(** * numba/typeinfer.py: the CPA type-inference engine

    A shallow embedding of the type-variable cells, the constraints, the
    constraint network and the fixed-point driver of [numba/typeinfer.py],
    followed by the properties of the engine that the specification states.

    Python objects that are mutated in place (the [TypeVar] cells held by
    the [TypeVarMap], the [refine_map], the [signature] attribute of the
    constraint objects) live in an explicit store, the record
    [TypeInferer]; a method is a function from the store to an outcome
    (normal return or raised exception) and the store it leaves behind.
    An exception does not roll the store back. *)

From stdpp Require Import base option list gmap strings sorting fin_maps.

Set Default Proof Using "Type".
Set Warnings "-register-all".
Local Open Scope string_scope.
Local Open Scope list_scope.
Local Open Scope stdpp_scope.

(** ** Types, locations, signatures *)

(** A Python value seen only through [resolve_value_type]. *)
Inductive pyvalue : Type :=
  | PyValue (repr : string).

(** Modelled from the spec: the classes of [numba.types] are not part of
    the sources; section 3 of the specification lists the shapes the
    engine consults by name.  [UniTuple] and [Tuple] are the two
    [BaseTuple] classes. *)
Inductive type : Type :=
  | Scalar (name : string)
  | Omitted (value : pyvalue)
  | UniTuple (dtype : type) (count : nat)
  | Tuple (types : list type)
  | Pair (first_type second_type : type)
  | ListType (dtype : type)
  | SetType (dtype : type)
  | IterableType (name : string) (yield_type : type)
  | BoundFunction (callable : string) (this : type)
  | Dispatcher (dispatcher : nat)
  | RecursiveCall (dispatcher_type : type) (func_id : nat)
  | undefined
  | none.

Lemma pyvalue_eq_dec (a b : pyvalue) : {a = b} + {a <> b}.
Proof. decide equality; apply String.string_dec. Defined.

Lemma type_eq_dec : forall a b : type, {a = b} + {a <> b}.
Proof.
  fix IH 1.
  decide equality;
    try apply String.string_dec; try apply Nat.eq_dec; try apply pyvalue_eq_dec.
  apply (List.list_eq_dec IH).
Defined.

#[global] Instance pyvalue_eq : EqDecision pyvalue := pyvalue_eq_dec.
#[global] Instance type_eq : EqDecision type := type_eq_dec.

(** [isinstance(tp, types.BaseTuple)], with [len(tp)] and [tp.types]. *)
Definition is_BaseTuple (tp : type) : bool :=
  match tp with
  | UniTuple _ _ | Tuple _ => true
  | _ => false
  end.

Definition tuple_len (tp : type) : nat :=
  match tp with
  | UniTuple _ n => n
  | Tuple ts => length ts
  | _ => 0
  end.

Definition tuple_types (tp : type) : list type :=
  match tp with
  | UniTuple t n => replicate n t
  | Tuple ts => ts
  | _ => []
  end.

Record Loc : Type := mkLoc { filename : string; line : nat }.

#[global] Instance Loc_eq : EqDecision Loc.
Proof. solve_decision. Defined.

Inductive Conversion : Type := exact | promote | safe | unsafe.

Record Signature : Type := mkSignature {
  return_type : type;
  args : list type;
  recvr : option type;
  pysig : option string
}.

#[global] Instance Signature_eq : EqDecision Signature.
Proof. solve_decision. Defined.

Definition with_return_type (sig : Signature) (tp : type) : Signature :=
  {| return_type := tp; args := args sig; recvr := recvr sig;
     pysig := pysig sig |}.

(** What a call constraint calls: the type held by a variable
    ([CallConstraint]) or the operator handed over directly
    ([IntrinsicCallConstraint]: ['getiter'], ['getitem'], an operator
    function, ...). *)
Inductive callee : Type :=
  | FnType (fnty : type)
  | FnIntrinsic (op : string).

(** Python truth value of the callee, as tested by [assert fnty]: a type
    object is true unless it has a length and that length is zero. *)
Definition truthy (f : callee) : bool :=
  match f with
  | FnType tp => negb (is_BaseTuple tp && bool_decide (tuple_len tp = 0))
  | FnIntrinsic op => negb (bool_decide (op = ""))
  end.

(** ** The typing context (external collaborator) *)

Record Frame : Type := mkFrame {
  (* the frame belongs to the inferer that is asking *)
  frame_is_self : bool;
  (* otherwise: the cells of the return variables of the frame's inferer *)
  frame_return_types : list (option type)
}.

Record Context : Type := mkContext {
  can_convert : type -> option type -> option Conversion;
  unify_pairs : type -> type -> option type;
  unify_types : list type -> option type;
  is_precise : type -> bool;
  resolve_value_type : pyvalue -> option type;
  resolve_function_type :
    callee -> list type -> list (string * type) -> option Signature;
  resolve_getattr : type -> string -> option type;
  resolve_static_getitem : type -> pyvalue -> option type;
  resolve_setitem : type -> type -> type -> option Signature;
  resolve_static_setitem : type -> pyvalue -> type -> option Signature;
  resolve_delitem : type -> type -> option Signature;
  resolve_setattr : type -> string -> type -> option Signature;
  explain_function_type : callee -> string;
  fold_argument_types :
    nat -> list type -> list (string * type) -> string * list type;
  callstack_match : nat -> list type -> Frame
}.

(** ** Constraints

    One constructor per constraint class, with the fields its [__init__]
    stores.  IR variables are represented by their names.  The classes
    whose instances carry a mutable [signature] attribute have an [id]
    standing for the identity of the object. *)
Inductive Constraint : Type :=
  | Propagate (dst src : string) (loc : Loc)
  | ArgConstraint (dst src : string) (loc : Loc)
  | BuildTupleConstraint (target : string) (items : list string) (loc : Loc)
  | BuildListConstraint (target : string) (items : list string) (loc : Loc)
  | BuildSetConstraint (target : string) (items : list string) (loc : Loc)
  | ExhaustIterConstraint (target : string) (count : nat) (iterator : string)
      (loc : Loc)
  | PairFirstConstraint (target pair : string) (loc : Loc)
  | PairSecondConstraint (target pair : string) (loc : Loc)
  (* [fallback_id] is the identity of the IntrinsicCallConstraint that
     __init__ builds when index_var is not None *)
  | StaticGetItemConstraint (fallback_id : nat) (target value : string)
      (index : pyvalue) (index_var : option string) (loc : Loc)
  | CallConstraint (id : nat) (target func : string) (args : list string)
      (kws : list (string * string)) (vararg : option string) (loc : Loc)
  | IntrinsicCallConstraint (id : nat) (target func : string)
      (args : list string) (kws : list (string * string))
      (vararg : option string) (loc : Loc)
  | GetAttrConstraint (target attr value : string) (loc inst_loc : Loc)
  | SetItemConstraint (id : nat) (target index value : string) (loc : Loc)
  | StaticSetItemConstraint (id : nat) (target : string) (index : pyvalue)
      (index_var value : string) (loc : Loc)
  | DelItemConstraint (id : nat) (target index : string) (loc : Loc)
  | SetAttrConstraint (id : nat) (target attr value : string) (loc : Loc)
  | PrintConstraint (id : nat) (args : list string) (vararg : option string)
      (loc : Loc).

(** [constraint.loc] *)
Definition constraint_loc (c : Constraint) : Loc :=
  match c with
  | Propagate _ _ loc | ArgConstraint _ _ loc
  | BuildTupleConstraint _ _ loc | BuildListConstraint _ _ loc
  | BuildSetConstraint _ _ loc | ExhaustIterConstraint _ _ _ loc
  | PairFirstConstraint _ _ loc | PairSecondConstraint _ _ loc
  | StaticGetItemConstraint _ _ _ _ _ loc
  | CallConstraint _ _ _ _ _ _ loc
  | IntrinsicCallConstraint _ _ _ _ _ _ loc
  | GetAttrConstraint _ _ _ loc _
  | SetItemConstraint _ _ _ _ loc | StaticSetItemConstraint _ _ _ _ _ loc
  | DelItemConstraint _ _ _ loc | SetAttrConstraint _ _ _ _ loc
  | PrintConstraint _ _ _ loc => loc
  end.

(** ** Exceptions *)

(** The messages of the [TypingError]s the module raises, by kind, with
    the values the message is formatted from. *)
Inductive TypingMsg : Type :=
  (* "No conversion from %s to %s for '%s', defined at %s" *)
  | NoConversion (tp : type) (cur : option type) (var : string)
      (define_loc : option Loc)
  (* "cannot unify %s and %s for '%s', defined at %s" *)
  | CannotUnify (cur tp : type) (var : string) (define_loc : option Loc)
  (* "No conversion from %s to %s for '%s'" (raised by lock) *)
  | NoConversionLock (tp : type) (cur : option type) (var : string)
  (* "Invalid usage of {0} with parameters ({1})" and the explanation *)
  | InvalidUsage (fnty : callee) (pos_args : list type)
      (kw_args : list (string * type)) (desc : string)
  | CannotResolveSetitem (targetty idxty valty : type)
  | CannotResolveStaticSetitem (targetty : type) (index : pyvalue)
      (valty : type)
  | CannotResolveDelitem (targetty idxty : type)
  | CannotResolveSetattr (targetty : type) (attr : string) (valty : type)
  (* "cannot type infer runaway recursion" *)
  | RunawayRecursion
  (* "Can't unify return type from the following types: %s" *)
  | CannotUnifyReturn (rettypes : list type).

Inductive exn : Type :=
  | TypingError (msg : TypingMsg) (loc : option Loc)
  (* a subclass of TypingError *)
  | UntypedAttributeError (ty : type) (attr : string) (loc : option Loc)
  (* TypingError("Internal error at {con}: ... {err} ...", loc): the
     wrapper built by ConstraintNetwork.propagate; [err] stands for the
     text of traceback.format_exc() *)
  | InternalTypingError (con : Constraint) (err : exn) (loc : Loc)
  (* ValueError("wrong tuple length for %r: expected %d, got %d") *)
  | ValueError_wrong_tuple_length (name : string) (expected got : nat)
  (* TypeError("*args in function call should be a tuple, got %s") *)
  | TypeError_varargs (got : type)
  | AssertionError
  | AttributeError (attr : string)
  (* RuntimeError: maximum recursion depth exceeded *)
  | RecursionLimitError
  (* a local variable read before its first assignment *)
  | UnboundLocalError (name : string).

(** [isinstance(e, TypingError)] *)
Definition is_TypingError (e : exn) : bool :=
  match e with
  | TypingError _ _ | UntypedAttributeError _ _ _
  | InternalTypingError _ _ _ => true
  | _ => false
  end.

Inductive Outcome (A : Type) : Type :=
  | Ret (a : A)
  | Raise (e : exn).
Arguments Ret {A} a.
Arguments Raise {A} e.

(** ** class TypeVar *)

Record TypeVar : Type := mkTypeVar {
  tv_var : string;
  tv_type : option type;
  tv_locked : bool;
  (* Stores source location of first definition *)
  tv_define_loc : option Loc
}.

(** [TypeVar.__init__] *)
Definition TypeVar_init (var : string) : TypeVar :=
  {| tv_var := var; tv_type := None; tv_locked := false;
     tv_define_loc := None |}.

Definition set_tv_type (self : TypeVar) (t : option type) : TypeVar :=
  {| tv_var := tv_var self; tv_type := t; tv_locked := tv_locked self;
     tv_define_loc := tv_define_loc self |}.

Definition set_tv_define_loc (self : TypeVar) (l : option Loc) : TypeVar :=
  {| tv_var := tv_var self; tv_type := tv_type self;
     tv_locked := tv_locked self; tv_define_loc := l |}.

Definition set_tv_locked (self : TypeVar) (b : bool) : TypeVar :=
  {| tv_var := tv_var self; tv_type := tv_type self; tv_locked := b;
     tv_define_loc := tv_define_loc self |}.

Section TypeVarMethods.
Variable ctx : Context.

(** [TypeVar.add_type]: the outcome (the returned [self.type], or the
    exception) and the cell afterwards. *)
Definition TypeVar_add_type (self : TypeVar) (tp : type)
    (loc : option Loc) : Outcome (option type) * TypeVar :=
  if tv_locked self then
    if bool_decide (Some tp <> tv_type self) then
      match can_convert ctx tp (tv_type self) with
      | None =>
          (Raise (TypingError
                    (NoConversion tp (tv_type self) (tv_var self)
                       (tv_define_loc self)) loc), self)
      | Some _ => (Ret (tv_type self), self)
      end
    else (Ret (tv_type self), self)
  else
    match tv_type self with
    | Some cur =>
        match unify_pairs ctx cur tp with
        | None =>
            (Raise (TypingError
                      (CannotUnify cur tp (tv_var self)
                         (tv_define_loc self)) loc), self)
        | Some unified =>
            let self' := set_tv_type self (Some unified) in
            (Ret (tv_type self'), self')
        end
    | None =>
        (* First time definition *)
        let self' := set_tv_type (set_tv_define_loc self loc) (Some tp) in
        (Ret (tv_type self'), self')
    end.

(** [TypeVar.lock] *)
Definition TypeVar_lock (self : TypeVar) (tp : type)
    (loc : option Loc) : Outcome unit * TypeVar :=
  if tv_locked self then (Raise AssertionError, self)
  else
    (* If there is already a type, ensure we can convert it to the
       locked type. *)
    let convertible :=
      match tv_type self with
      | Some cur => bool_decide (can_convert ctx cur (Some tp) <> None)
      | None => true
      end in
    if convertible then
      let self' := set_tv_locked (set_tv_type self (Some tp)) true in
      (Ret tt,
       match tv_define_loc self' with
       | None => set_tv_define_loc self' loc
       | Some _ => self'
       end)
    else
      (Raise (TypingError
                (NoConversionLock tp (tv_type self) (tv_var self)) None),
       self).

(** [TypeVar.union]; [other_type] is [other.type]. *)
Definition TypeVar_union (self : TypeVar) (other_type : option type)
    (loc : option Loc) : Outcome (option type) * TypeVar :=
  match other_type with
  | Some t =>
      match TypeVar_add_type self t loc with
      | (Ret _, self') => (Ret (tv_type self'), self')
      | (Raise e, self') => (Raise e, self')
      end
  | None => (Ret (tv_type self), self)
  end.
End TypeVarMethods.

(** [TypeVar.defined], [TypeVar.get], [TypeVar.getone] *)
Definition TypeVar_defined (self : TypeVar) : bool :=
  bool_decide (tv_type self <> None).

Definition TypeVar_get (self : TypeVar) : list type :=
  match tv_type self with
  | Some t => [t]
  | None => []
  end.

Definition TypeVar_getone (self : TypeVar) : Outcome type :=
  match tv_type self with
  | Some t => Ret t
  | None => Raise AssertionError
  end.

(** ** The store of a TypeInferer and its methods *)

Record TypeInferer : Type := mkTypeInferer {
  (* self.typevars: a TypeVarMap; the cells are the values *)
  typevars : gmap string TypeVar;
  (* self.constraints.constraints: the network, in insertion order *)
  constraints : list Constraint;
  (* Target var -> constraint with refine hook *)
  refine_map : gmap string Constraint;
  (* the [signature] attribute of the constraint objects, by object
     identity; no entry: the attribute was never assigned *)
  signatures : gmap nat (option Signature);
  (* Track all calls and associated constraints *)
  calls : list (nat * Constraint);
  (* The inference result of the above calls *)
  calltypes : gmap nat (option Signature);
  (* the operands of the Return terminators: _get_return_vars() *)
  return_vars : list string
}.

Definition set_typevars (f : gmap string TypeVar -> gmap string TypeVar)
    (st : TypeInferer) : TypeInferer :=
  {| typevars := f (typevars st); constraints := constraints st;
     refine_map := refine_map st;
     signatures := signatures st; calls := calls st;
     calltypes := calltypes st; return_vars := return_vars st |}.

Definition set_refine_map
    (f : gmap string Constraint -> gmap string Constraint)
    (st : TypeInferer) : TypeInferer :=
  {| typevars := typevars st; constraints := constraints st;
     refine_map := f (refine_map st);
     signatures := signatures st; calls := calls st;
     calltypes := calltypes st; return_vars := return_vars st |}.

Definition set_signatures
    (f : gmap nat (option Signature) -> gmap nat (option Signature))
    (st : TypeInferer) : TypeInferer :=
  {| typevars := typevars st; constraints := constraints st;
     refine_map := refine_map st;
     signatures := f (signatures st); calls := calls st;
     calltypes := calltypes st; return_vars := return_vars st |}.

Definition set_calltypes
    (f : gmap nat (option Signature) -> gmap nat (option Signature))
    (st : TypeInferer) : TypeInferer :=
  {| typevars := typevars st; constraints := constraints st;
     refine_map := refine_map st;
     signatures := signatures st; calls := calls st;
     calltypes := f (calltypes st); return_vars := return_vars st |}.

(** A method: from the store to an outcome and the store left behind. *)
Definition M (A : Type) : Type := TypeInferer -> Outcome A * TypeInferer.

Definition ret {A} (a : A) : M A := fun st => (Ret a, st).
Definition raise {A} (e : exn) : M A := fun st => (Raise e, st).
Definition bind {A B} (m : M A) (k : A -> M B) : M B :=
  fun st =>
    match m st with
    | (Ret a, st') => k a st'
    | (Raise e, st') => (Raise e, st')
    end.

Declare Scope method_scope.
Delimit Scope method_scope with method.
Notation "x <- m ;; k" := (bind m (fun x => k))
  (at level 100, m at next level, right associativity) : method_scope.
Notation "m ;; k" := (bind m (fun _ => k))
  (at level 100, right associativity) : method_scope.
Local Open Scope method_scope.

Definition lift {A} (o : Outcome A) : M A := fun st => (o, st).

(** [for x in xs: body(x)] *)
Fixpoint for_each {A} (xs : list A) (body : A -> M unit) : M unit :=
  match xs with
  | [] => ret tt
  | x :: xs' => body x ;; for_each xs' body
  end.

(** [[f(x) for x in xs]] *)
Fixpoint map_M {A B} (f : A -> M B) (xs : list A) : M (list B) :=
  match xs with
  | [] => ret []
  | x :: xs' => y <- f x ;; ys <- map_M f xs' ;; ret (y :: ys)
  end.

(** [TypeVarMap.__getitem__]: a missing name gets a fresh cell. *)
Definition typevars_getitem (name : string) : M TypeVar :=
  fun st =>
    match typevars st !! name with
    | Some tv => (Ret tv, st)
    | None =>
        let tv := TypeVar_init name in
        (Ret tv, set_typevars (insert name tv) st)
    end.

(** The cell object held under [name] is mutated in place. *)
Definition typevar_update (name : string) (tv : TypeVar) : M unit :=
  fun st => (Ret tt, set_typevars (insert name tv) st).

(** [with new_error_context(fmt, *args): body].  The argument values of
    the format string: *)
Inductive FmtArg : Type :=
  | FmtLoc (l : Loc)
  | FmtCallee (f : callee)
  | FmtStr (s : string).

Section Engine.
Variable ctx : Context.
(** [new_error_context] comes from [numba.errors], which is not part of
    the sources: it is a parameter, the rewriting that the context
    manager applies to an exception leaving its block. *)
Variable new_error_context : string -> list FmtArg -> exn -> exn.

Definition with_error_context {A} (fmt : string) (fargs : list FmtArg)
    (body : M A) : M A :=
  fun st =>
    match body st with
    | (Ret a, st') => (Ret a, st')
    | (Raise e, st') => (Raise (new_error_context fmt fargs e), st')
    end.

(** [TypeInferer.add_type], given what [self.propagate_refined_type]
    does. *)
Definition TypeInferer_add_type_with (prt : string -> type -> M unit)
    (var : string) (tp : type) (loc : option Loc)
    (unless_locked : bool) : M unit :=
  tv <- typevars_getitem var ;;
  if unless_locked && tv_locked tv then ret tt
  else
    let oldty := tv_type tv in
    let '(r, tv') := TypeVar_add_type ctx tv tp loc in
    typevar_update var tv' ;;
    unified <- lift r ;;
    if bool_decide (unified <> oldty) then
      match unified with
      | Some u => prt var u
      | None => ret tt  (* not reached: a cell never loses its type *)
      end
    else ret tt.

(** [Propagate.refine] and [GetAttrConstraint.refine], called through
    [TypeInferer.propagate_refined_type]; the other classes have no
    [refine] method.  The methods call each other; [depth] is what is
    left of the interpreter's recursion limit. *)
Fixpoint refine (depth : nat) (self : Constraint) (target_type : type)
    {struct depth} : M unit :=
  match depth with
  | 0 => raise RecursionLimitError
  | S depth' =>
      let prt := fun (updated_var : string) (updated_type : type) =>
        (fun st =>
           match refine_map st !! updated_var with
           | Some source_constraint =>
               refine depth' source_constraint updated_type st
           | None => (Ret tt, st)
           end) : M unit in
      match self with
      | Propagate dst src loc =>
          (* Do not back-propagate to locked variables (e.g. constants) *)
          TypeInferer_add_type_with prt src target_type (Some loc) true
      | GetAttrConstraint target attr value loc inst_loc =>
          match target_type with
          | BoundFunction _ recvr =>
              TypeInferer_add_type_with prt value recvr (Some loc) false ;;
              prt value recvr
          | _ => ret tt
          end
      | _ => raise (AttributeError "refine")
      end
  end.

(** [TypeInferer.propagate_refined_type] *)
Definition TypeInferer_propagate_refined_type (depth : nat)
    (updated_var : string) (updated_type : type) : M unit :=
  fun st =>
    match refine_map st !! updated_var with
    | Some source_constraint =>
        refine depth source_constraint updated_type st
    | None => (Ret tt, st)
    end.

(** [TypeInferer.add_type] *)
Definition TypeInferer_add_type (depth : nat) (var : string) (tp : type)
    (loc : option Loc) (unless_locked : bool) : M unit :=
  TypeInferer_add_type_with (TypeInferer_propagate_refined_type depth)
    var tp loc unless_locked.

(** [TypeInferer.copy_type]: [TypeVar.union] works on the cells
    directly, without refinement. *)
Definition TypeInferer_copy_type (src_var dest_var : string)
    (loc : option Loc) : M unit :=
  dest <- typevars_getitem dest_var ;;
  src <- typevars_getitem src_var ;;
  let '(r, dest') := TypeVar_union ctx dest (tv_type src) loc in
  typevar_update dest_var dest' ;;
  _ <- lift r ;;
  ret tt.

(** [TypeInferer.lock_type] *)
Definition TypeInferer_lock_type (var : string) (tp : type)
    (loc : option Loc) : M unit :=
  tv <- typevars_getitem var ;;
  let '(r, tv') := TypeVar_lock ctx tv tp loc in
  typevar_update var tv' ;;
  lift r.
End Engine.

(** ** The constraint classes *)

(** [itertools.product] of the type sets: the rightmost set advances
    fastest. *)
Fixpoint product {A} (tsets : list (list A)) : list (list A) :=
  match tsets with
  | [] => [[]]
  | s :: rest => x ← s; r ← product rest; [x :: r]
  end.

(** The tuple type [BuildTupleConstraint] builds from one combination. *)
Definition build_tuple_type (vals : list type) : type :=
  match vals with
  | v0 :: _ =>
      if forallb (fun v => bool_decide (v0 = v)) vals
      then UniTuple v0 (length vals)
      else Tuple vals
  | [] =>
      (* empty tuples fall here as well *)
      Tuple vals
  end.

(** [self.signature = sig] on the constraint object [id]. *)
Definition set_signature (id : nat) (sig : option Signature) : M unit :=
  fun st => (Ret tt, set_signatures (insert id sig) st).

(** [typeinfer.refine_map[name] = constraint] *)
Definition refine_map_setitem (name : string) (c : Constraint) : M unit :=
  fun st => (Ret tt, set_refine_map (insert name c) st).

(** [all(typevars[v.name].defined for v in names)]: the generator stops
    at the first undefined cell. *)
Fixpoint all_defined (names : list string) : M bool :=
  match names with
  | [] => ret true
  | n :: rest =>
      tv <- typevars_getitem n ;;
      if TypeVar_defined tv then all_defined rest else ret false
  end.

(** [typevars[name].getone()] *)
Definition typevars_getone (name : string) : M type :=
  tv <- typevars_getitem name ;; lift (TypeVar_getone tv).

(** [fold_arg_vars]: Fold and resolve the argument variables of a
    function call.  [None] is the bare [return]; the keyword dictionary
    is the list of its items. *)
Definition fold_arg_vars (args : list string) (vararg : option string)
    (kws : list (string * string))
    : M (option (list type * list (string * type))) :=
  (* Fetch all argument types, bail if any is unknown *)
  let n_pos_args := length args in
  let kwds := map fst kws in
  argtypes1 <- map_M typevars_getitem args ;;
  argtypes2 <- map_M (fun kv => typevars_getitem (snd kv)) kws ;;
  argtypes3 <- match vararg with
               | Some v => tv <- typevars_getitem v ;; ret [tv]
               | None => ret []
               end ;;
  let argtypes := argtypes1 ++ argtypes2 ++ argtypes3 in
  if negb (forallb TypeVar_defined argtypes) then ret None
  else
    let args := omap tv_type argtypes in
    let pos_args := take n_pos_args args in
    match vararg with
    | Some _ =>
        match last args with
        | Some star =>
            if negb (is_BaseTuple star) then
              (* Unsuitable for *args *)
              raise (TypeError_varargs star)
            else
              let pos_args := pos_args ++ tuple_types star in
              let args := take (length args - 1) args in
              ret (Some (pos_args, zip kwds (drop n_pos_args args)))
        | None => raise AssertionError
        end
    | None => ret (Some (pos_args, zip kwds (drop n_pos_args args)))
    end.

Section Constraints.
Variable ctx : Context.
Variable new_error_context : string -> list FmtArg -> exn -> exn.
(** what is left of the interpreter's recursion limit *)
Variable depth : nat.

#[local] Abbreviation add_type := (TypeInferer_add_type ctx depth).
#[local] Abbreviation error_context :=
  (with_error_context new_error_context).

(** [TypeInferer._unify_return_types] *)
Definition TypeInferer_unify_return_types (rettypes : list type)
    : M type :=
  match rettypes with
  | _ :: _ =>
      match unify_types ctx rettypes with
      | Some unified =>
          if is_precise ctx unified then ret unified
          else raise (TypingError (CannotUnifyReturn rettypes) None)
      | None => raise (TypingError (CannotUnifyReturn rettypes) None)
      end
  | [] =>
      (* Function without a successful return path *)
      ret none
  end.

(** [TypeInferer.resolve_call].  The set of return types is kept as a
    list without duplicates, in the order of the return variables. *)
Definition TypeInferer_resolve_call (fnty : callee)
    (pos_args : list type) (kw_args : list (string * type))
    : M (option Signature) :=
  match fnty with
  | FnType (RecursiveCall dispatcher_type _) =>
      (* Recursive call *)
      match dispatcher_type with
      | Dispatcher disp =>
          let '(pysig, args) :=
            fold_argument_types ctx disp pos_args kw_args in
          let frame := callstack_match ctx disp args in
          (* Unify known return types *)
          cells <- (if frame_is_self frame then
                      fun st =>
                        bind (map_M typevars_getitem (return_vars st))
                          (fun tvs => ret (map tv_type tvs)) st
                    else ret (frame_return_types frame)) ;;
          let rettypes := remove_dups (omap id cells) in
          match rettypes with
          | [] =>
              (* No known return type *)
              raise (TypingError RunawayRecursion None)
          | _ =>
              return_type <- TypeInferer_unify_return_types rettypes ;;
              ret (Some {| return_type := return_type; args := args;
                           recvr := None; pysig := Some pysig |})
          end
      | _ => raise (AttributeError "dispatcher")
      end
  | _ =>
      (* Normal non-recursive call *)
      ret (resolve_function_type ctx fnty pos_args kw_args)
  end.

(** The part of [CallConstraint.resolve] that follows
    [typeinfer.add_type(self.target, sig.return_type)]: If the function
    is a bound function and its receiver type was refined, propagate
    it. *)
Definition refine_receiver (func : string) (fnty : callee)
    (sig : Signature) : M unit :=
  match fnty, recvr sig with
  | FnType (BoundFunction callable this), Some sig_recvr =>
      if bool_decide (sig_recvr <> this) then
        match unify_pairs ctx sig_recvr this with
        | Some refined_this =>
            if is_precise ctx refined_this then
              TypeInferer_propagate_refined_type ctx depth func
                (BoundFunction callable refined_this)
            else ret tt
        | None => ret tt
        end
      else ret tt
  | _, _ => ret tt
  end.

(** The last part of [CallConstraint.resolve] before the signature is
    stored: If the return type is imprecise but can be unified with the
    target variable's inferred type, use the latter.  The result is the
    signature to store. *)
Definition refine_return_type (target : string) (sig : Signature)
    : M Signature :=
  if negb (is_precise ctx (return_type sig)) then
    target_tv <- typevars_getitem target ;;
    match tv_type target_tv with
    | Some targetty =>
        if bool_decide
             (unify_pairs ctx targetty (return_type sig) = Some targetty)
        then ret (with_return_type sig targetty)
        else ret sig
    | None => ret sig
    end
  else ret sig.

(** [CallConstraint.resolve], shared with [IntrinsicCallConstraint];
    [id], [target], [func], ... are the fields of [self]. *)
Definition CallConstraint_resolve (id : nat) (target func : string)
    (args : list string) (kws : list (string * string))
    (vararg : option string) (loc : Loc) (fnty : callee) : M unit :=
  if negb (truthy fnty) then raise AssertionError
  else
    r <- fold_arg_vars args vararg kws ;;
    match r with
    | None =>
        (* Cannot resolve call type until all argument types are known *)
        ret tt
    | Some (pos_args, kw_args) =>
        (* Resolve call type *)
        sig <- TypeInferer_resolve_call fnty pos_args kw_args ;;
        match sig with
        | None =>
            (* Arguments are invalid => explain why *)
            raise (TypingError
                     (InvalidUsage fnty pos_args kw_args
                        (explain_function_type ctx fnty)) (Some loc))
        | Some sig =>
            add_type target (return_type sig) (Some loc) false ;;
            refine_receiver func fnty sig ;;
            sig' <- refine_return_type target sig ;;
            set_signature id (Some sig')
        end
    end.

(** [Propagate.__call__] *)
Definition Propagate_call (dst src : string) (loc : Loc) : M unit :=
  error_context "typing of assignment at {0}" [FmtLoc loc]
    (TypeInferer_copy_type ctx src dst (Some loc) ;;
     (* If `dst` is refined, notify us *)
     refine_map_setitem dst (Propagate dst src loc)).

(** [ArgConstraint.__call__] *)
Definition ArgConstraint_call (dst src : string) (loc : Loc) : M unit :=
  error_context "typing of argument at {0}" [FmtLoc loc]
    (src_tv <- typevars_getitem src ;;
     match tv_type src_tv with
     | None => ret tt
     | Some ty =>
         match ty with
         | Omitted value =>
             match resolve_value_type ctx value with
             | Some ty' => add_type dst ty' (Some loc) false
             | None =>
                 (* add_type looks the cell up, then the assertion on
                    the type fails *)
                 typevars_getitem dst ;; raise AssertionError
             end
         | _ => add_type dst ty (Some loc) false
         end
     end).

(** [BuildTupleConstraint.__call__] *)
Definition BuildTupleConstraint_call (target : string)
    (items : list string) (loc : Loc) : M unit :=
  error_context "typing of tuple at {0}" [FmtLoc loc]
    (tsets <- map_M (fun i => tv <- typevars_getitem i ;;
                              ret (TypeVar_get tv)) items ;;
     oset <- typevars_getitem target ;;
     for_each (product tsets) (fun vals =>
       add_type target (build_tuple_type vals) (Some loc) false)).

(** [_BuildContainerConstraint.__call__]; [container_type] is
    [types.List] or [types.Set]. *)
Definition BuildContainerConstraint_call (container_type : type -> type)
    (target : string) (items : list string) (loc : Loc) : M unit :=
  error_context "typing of list at {0}" [FmtLoc loc]
    (oset <- typevars_getitem target ;;
     tsets <- map_M (fun i => tv <- typevars_getitem i ;;
                              ret (TypeVar_get tv)) items ;;
     match tsets with
     | [] => add_type target (container_type undefined) (Some loc) false
     | _ =>
         for_each (product tsets) (fun typs =>
           match unify_types ctx typs with
           | Some unified =>
               add_type target (container_type unified) (Some loc) false
           | None => ret tt
           end)
     end).

(** [ExhaustIterConstraint.__call__] *)
Definition ExhaustIterConstraint_call (target : string) (count : nat)
    (iterator : string) (loc : Loc) : M unit :=
  error_context "typing of exhaust iter at {0}" [FmtLoc loc]
    (oset <- typevars_getitem target ;;
     it <- typevars_getitem iterator ;;
     for_each (TypeVar_get it) (fun tp =>
       if is_BaseTuple tp then
         if bool_decide (tuple_len tp = count) then
           add_type target tp (Some loc) false
         else
           raise (ValueError_wrong_tuple_length iterator count
                    (tuple_len tp))
       else
         match tp with
         | IterableType _ yield_type =>
             add_type target (UniTuple yield_type count) (Some loc) false
         | _ => ret tt
         end)).

(** [PairFirstConstraint.__call__] *)
Definition PairFirstConstraint_call (target pair : string) (loc : Loc)
    : M unit :=
  error_context "typing of pair-first at {0}" [FmtLoc loc]
    (oset <- typevars_getitem target ;;
     p <- typevars_getitem pair ;;
     for_each (TypeVar_get p) (fun tp =>
       match tp with
       | Pair first_type _ => add_type target first_type (Some loc) false
       | _ =>
           (* XXX is this an error? *)
           ret tt
       end)).

(** [PairSecondConstraint.__call__] *)
Definition PairSecondConstraint_call (target pair : string) (loc : Loc)
    : M unit :=
  error_context "typing of pair-second at {0}" [FmtLoc loc]
    (oset <- typevars_getitem target ;;
     p <- typevars_getitem pair ;;
     for_each (TypeVar_get p) (fun tp =>
       match tp with
       | Pair _ second_type => add_type target second_type (Some loc) false
       | _ =>
           (* XXX is this an error? *)
           ret tt
       end)).

(** [IntrinsicCallConstraint.__call__] *)
Definition IntrinsicCallConstraint_call (id : nat) (target func : string)
    (args : list string) (kws : list (string * string))
    (vararg : option string) (loc : Loc) : M unit :=
  error_context "typing of intrinsic-call at {0}" [FmtLoc loc]
    (CallConstraint_resolve id target func args kws vararg loc
       (FnIntrinsic func)).

(** [CallConstraint.__call__] *)
Definition CallConstraint_call (id : nat) (target func : string)
    (args : list string) (kws : list (string * string))
    (vararg : option string) (loc : Loc) : M unit :=
  error_context "typing of call at {0}" [FmtLoc loc]
    (fnty <- typevars_getone func ;;
     error_context "resolving callee type: {0}" [FmtCallee (FnType fnty)]
       (CallConstraint_resolve id target func args kws vararg loc
          (FnType fnty))).

(** [StaticGetItemConstraint.__call__]; the fallback built by __init__
    is [IntrinsicCallConstraint(target, 'getitem', (value, index_var), {},
    None, loc)]. *)
Definition StaticGetItemConstraint_call (fallback_id : nat)
    (target value : string) (index : pyvalue) (index_var : option string)
    (loc : Loc) : M unit :=
  error_context "typing of static-get-item at {0}" [FmtLoc loc]
    (oset <- typevars_getitem target ;;
     v <- typevars_getitem value ;;
     for_each (TypeVar_get v) (fun ty =>
       match resolve_static_getitem ctx ty index with
       | Some itemty => add_type target itemty (Some loc) false
       | None =>
           match index_var with
           | Some iv =>
               IntrinsicCallConstraint_call fallback_id target "getitem"
                 [value; iv] [] None loc
           | None => ret tt
           end
       end)).

(** [GetAttrConstraint.__call__] *)
Definition GetAttrConstraint_call (target attr value : string)
    (loc inst_loc : Loc) : M unit :=
  error_context "typing of get attribute at {0}" [FmtLoc loc]
    (v <- typevars_getitem value ;;
     for_each (TypeVar_get v) (fun ty =>
       match resolve_getattr ctx ty attr with
       | None => raise (UntypedAttributeError ty attr (Some inst_loc))
       | Some attrty => add_type target attrty (Some loc) false
       end) ;;
     refine_map_setitem target
       (GetAttrConstraint target attr value loc inst_loc)).

(** [SetItemConstraint.__call__] *)
Definition SetItemConstraint_call (id : nat) (target index value : string)
    (loc : Loc) : M unit :=
  error_context "typing of setitem at {0}" [FmtLoc loc]
    (ok <- all_defined [target; index; value] ;;
     if negb ok then ret tt
     else
       targetty <- typevars_getone target ;;
       idxty <- typevars_getone index ;;
       valty <- typevars_getone value ;;
       match resolve_setitem ctx targetty idxty valty with
       | None =>
           raise (TypingError (CannotResolveSetitem targetty idxty valty)
                    (Some loc))
       | Some sig => set_signature id (Some sig)
       end).

(** [StaticSetItemConstraint.__call__] *)
Definition StaticSetItemConstraint_call (id : nat) (target : string)
    (index : pyvalue) (index_var value : string) (loc : Loc) : M unit :=
  error_context "typing of staticsetitem at {0}" [FmtLoc loc]
    (ok <- all_defined [target; index_var; value] ;;
     if negb ok then ret tt
     else
       targetty <- typevars_getone target ;;
       idxty <- typevars_getone index_var ;;
       valty <- typevars_getone value ;;
       let sig :=
         match resolve_static_setitem ctx targetty index valty with
         | Some sig => Some sig
         | None => resolve_setitem ctx targetty idxty valty
         end in
       match sig with
       | None =>
           raise (TypingError
                    (CannotResolveStaticSetitem targetty index valty)
                    (Some loc))
       | Some sig => set_signature id (Some sig)
       end).

(** [DelItemConstraint.__call__] *)
Definition DelItemConstraint_call (id : nat) (target index : string)
    (loc : Loc) : M unit :=
  error_context "typing of delitem at {0}" [FmtLoc loc]
    (ok <- all_defined [target; index] ;;
     if negb ok then ret tt
     else
       targetty <- typevars_getone target ;;
       idxty <- typevars_getone index ;;
       match resolve_delitem ctx targetty idxty with
       | None =>
           raise (TypingError (CannotResolveDelitem targetty idxty)
                    (Some loc))
       | Some sig => set_signature id (Some sig)
       end).

(** [SetAttrConstraint.__call__] *)
Definition SetAttrConstraint_call (id : nat) (target attr value : string)
    (loc : Loc) : M unit :=
  error_context "typing of set attribute {0!r} at {1}"
    [FmtStr attr; FmtLoc loc]
    (ok <- all_defined [target; value] ;;
     if negb ok then ret tt
     else
       targetty <- typevars_getone target ;;
       valty <- typevars_getone value ;;
       match resolve_setattr ctx targetty attr valty with
       | None =>
           raise (TypingError (CannotResolveSetattr targetty attr valty)
                    (Some loc))
       | Some sig => set_signature id (Some sig)
       end).

(** The built-in [print], as handed to [resolve_value_type]. *)
Definition py_print : pyvalue := PyValue "print".

(** [PrintConstraint.__call__] *)
Definition PrintConstraint_call (id : nat) (args : list string)
    (vararg : option string) (loc : Loc) : M unit :=
  r <- fold_arg_vars args vararg [] ;;
  match r with
  | None =>
      (* Cannot resolve call type until all argument types are known *)
      ret tt
  | Some (pos_args, kw_args) =>
      match resolve_value_type ctx py_print with
      | None => raise AssertionError
      | Some fnty =>
          sig <- TypeInferer_resolve_call (FnType fnty) pos_args kw_args ;;
          set_signature id sig
      end
  end.

(** [constraint(typeinfer)]: the [__call__] of the object's class. *)
Definition fire (c : Constraint) : M unit :=
  match c with
  | Propagate dst src loc => Propagate_call dst src loc
  | ArgConstraint dst src loc => ArgConstraint_call dst src loc
  | BuildTupleConstraint target items loc =>
      BuildTupleConstraint_call target items loc
  | BuildListConstraint target items loc =>
      BuildContainerConstraint_call ListType target items loc
  | BuildSetConstraint target items loc =>
      BuildContainerConstraint_call SetType target items loc
  | ExhaustIterConstraint target count iterator loc =>
      ExhaustIterConstraint_call target count iterator loc
  | PairFirstConstraint target p loc =>
      PairFirstConstraint_call target p loc
  | PairSecondConstraint target p loc =>
      PairSecondConstraint_call target p loc
  | StaticGetItemConstraint fid target value index index_var loc =>
      StaticGetItemConstraint_call fid target value index index_var loc
  | CallConstraint id target func args kws vararg loc =>
      CallConstraint_call id target func args kws vararg loc
  | IntrinsicCallConstraint id target func args kws vararg loc =>
      IntrinsicCallConstraint_call id target func args kws vararg loc
  | GetAttrConstraint target attr value loc inst_loc =>
      GetAttrConstraint_call target attr value loc inst_loc
  | SetItemConstraint id target index value loc =>
      SetItemConstraint_call id target index value loc
  | StaticSetItemConstraint id target index index_var value loc =>
      StaticSetItemConstraint_call id target index index_var value loc
  | DelItemConstraint id target index loc =>
      DelItemConstraint_call id target index loc
  | SetAttrConstraint id target attr value loc =>
      SetAttrConstraint_call id target attr value loc
  | PrintConstraint id args vararg loc =>
      PrintConstraint_call id args vararg loc
  end.
End Constraints.

(** ** class ConstraintNetwork and the driver *)

Section Driver.
Variable ctx : Context.
Variable new_error_context : string -> list FmtArg -> exn -> exn.
Variable depth : nat.

(** What the two [except] clauses of [ConstraintNetwork.propagate] do
    with the outcome of one constraint. *)
Definition capture (constraint : Constraint) (r : Outcome unit)
    (errors : list exn) : list exn :=
  match r with
  | Ret _ => errors
  | Raise e =>
      if is_TypingError e then errors ++ [e]
      else
        errors ++ [InternalTypingError constraint e
                     (constraint_loc constraint)]
  end.

(** [ConstraintNetwork.propagate]: Execute all constraints.  Errors are
    caught and returned as a list.  (The warnings scope around each
    constraint only collects warnings and is left out.) *)
Definition ConstraintNetwork_propagate (self : list Constraint)
    (typeinfer : TypeInferer) : list exn * TypeInferer :=
  fold_left
    (fun (acc : list exn * TypeInferer) constraint =>
       let '(errors, st) := acc in
       let '(r, st') := fire ctx new_error_context depth constraint st in
       (capture constraint r errors, st'))
    self ([], typeinfer).

(** The order of [sorted(self.typevars.items())]: names are unique, so
    the pairs are ordered by name. *)
Definition item_le (a b : string * TypeVar) : Prop := String.le a.1 b.1.

#[global] Instance item_le_dec : RelDecision item_le.
Proof. intros a b. unfold item_le. apply _. Defined.

Definition sorted_items (m : gmap string TypeVar)
    : list (string * TypeVar) :=
  merge_sort item_le (map_to_list m).

(** [TypeInferer.get_state_token] *)
Definition TypeInferer_get_state_token (self : TypeInferer)
    : list (option type) :=
  map (fun item => tv_type item.2) (sorted_items (typevars self)).

(** The [while] loop of [TypeInferer.propagate], unrolled at most [fuel]
    times; [None] when the loop is still running after that.  [errors]
    is [None] as long as the local variable is unbound. *)
Fixpoint propagate_loop (fuel : nat) (newtoken : list (option type))
    (oldtoken : option (list (option type))) (errors : option (list exn))
    (st : TypeInferer) : option (Outcome unit * TypeInferer) :=
  if bool_decide (Some newtoken <> oldtoken) then
    match fuel with
    | 0 => None
    | S fuel' =>
        let oldtoken := Some newtoken in
        (* Errors can appear when the type set is incomplete; only
           raise them when there is no progress anymore. *)
        let '(errors, st') :=
          ConstraintNetwork_propagate (constraints st) st in
        let newtoken := TypeInferer_get_state_token st' in
        propagate_loop fuel' newtoken oldtoken (Some errors) st'
    end
  else
    match errors with
    | None => Some (Raise (UnboundLocalError "errors"), st)
    | Some [] => Some (Ret tt, st)
    | Some (e :: _) => Some (Raise e, st)
    end.

(** [TypeInferer.propagate] (the debug hooks have no effect on the
    store). *)
Definition TypeInferer_propagate (fuel : nat) (self : TypeInferer)
    : option (Outcome unit * TypeInferer) :=
  let newtoken := TypeInferer_get_state_token self in
  let oldtoken := None in
  propagate_loop fuel newtoken oldtoken None self.
End Driver.

(** [get_call_signature] of the constraint classes.  [CallConstraint]
    has the class attribute [signature = None]; the other classes have
    the attribute only once [__call__] has assigned it. *)
Definition get_call_signature (c : Constraint) : M (option Signature) :=
  fun st =>
    match c with
    | CallConstraint id _ _ _ _ _ _
    | IntrinsicCallConstraint id _ _ _ _ _ _ =>
        (Ret (default None (signatures st !! id)), st)
    | SetItemConstraint id _ _ _ _
    | StaticSetItemConstraint id _ _ _ _ _
    | DelItemConstraint id _ _ _
    | SetAttrConstraint id _ _ _ _
    | PrintConstraint id _ _ _ =>
        match signatures st !! id with
        | Some sig => (Ret sig, st)
        | None => (Raise (AttributeError "signature"), st)
        end
    | StaticGetItemConstraint fid _ _ _ index_var _ =>
        (* self.fallback and self.fallback.get_call_signature() *)
        match index_var with
        | Some _ => (Ret (default None (signatures st !! fid)), st)
        | None => (Ret None, st)
        end
    | _ => (Raise (AttributeError "get_call_signature"), st)
    end.

(** [TypeInferer.get_function_types]: Fill and return the calltypes map.
    Modelled from the spec: [utils.UniqueDict], the class of [calltypes],
    is not part of the sources; the specification describes it as a map
    from call instruction to signature, and an assignment is an
    insertion. *)
Definition TypeInferer_get_function_types
    : M (gmap nat (option Signature)) :=
  fun st =>
    bind
      (for_each (calls st) (fun '(call, constraint) =>
         sig <- get_call_signature constraint ;;
         fun st' => (Ret tt, set_calltypes (insert call sig) st')))
      (fun _ st' => (Ret (calltypes st'), st')) st.

(** ** A small typing context

    A fragment of a numeric lattice with containers, used to run the
    engine on concrete programs.  The integers and floats promote as in
    NumPy; a container of [undefined] elements is imprecise and is
    absorbed by the same container with known elements. *)

Definition int64 : type := Scalar "int64".
Definition float32 : type := Scalar "float32".
Definition float64 : type := Scalar "float64".

Fixpoint demo_is_precise (tp : type) : bool :=
  match tp with
  | undefined => false
  | ListType t | SetType t => demo_is_precise t
  | _ => true
  end.

Definition demo_unify_pairs (a b : type) : option type :=
  if bool_decide (a = b) then Some a
  else
    match a, b with
    | undefined, _ => Some b
    | _, undefined => Some a
    | Scalar x, Scalar y =>
        if bool_decide (x ∈ ["int64"; "float32"; "float64"]
                        ∧ y ∈ ["int64"; "float32"; "float64"])
        then Some float64 else None
    | SetType undefined, SetType t => Some (SetType t)
    | SetType t, SetType undefined => Some (SetType t)
    | _, _ => None
    end.

Definition demo_can_convert (a : type) (b : option type)
    : option Conversion :=
  match b with
  | None => None
  | Some b =>
      if bool_decide (a = b) then Some exact
      else
        match a, b with
        | Scalar "int64", Scalar "float64" => Some safe
        | Scalar "float32", Scalar "float64" => Some promote
        | Scalar "int64", Scalar "float32" => Some unsafe
        | Scalar "float64", Scalar "float32" => Some unsafe
        | _, _ => None
        end
  end.

Definition demo_resolve_function_type (f : callee) (pos : list type)
    (kw : list (string * type)) : option Signature :=
  match f, pos, kw with
  | FnType (Scalar "set"), [], [] =>
      Some {| return_type := SetType undefined; args := [];
              recvr := None; pysig := None |}
  | FnType (Scalar "print"), [Scalar _], [] =>
      Some {| return_type := none; args := pos; recvr := None;
              pysig := None |}
  | FnIntrinsic "+", [Scalar x; Scalar y], [] =>
      match demo_unify_pairs (Scalar x) (Scalar y) with
      | Some t => Some {| return_type := t; args := pos; recvr := None;
                          pysig := None |}
      | None => None
      end
  | _, _, _ => None
  end.

Definition demo_ctx : Context :=
  {| can_convert := demo_can_convert;
     unify_pairs := demo_unify_pairs;
     unify_types := fun ts =>
       match ts with
       | [] => None
       | t :: rest =>
           foldl (fun acc u => acc ≫= fun a => demo_unify_pairs a u)
             (Some t) rest
       end;
     is_precise := demo_is_precise;
     resolve_value_type := fun v =>
       if bool_decide (v = py_print) then Some (Scalar "print") else None;
     resolve_function_type := demo_resolve_function_type;
     resolve_getattr := fun _ _ => None;
     resolve_static_getitem := fun _ _ => None;
     resolve_setitem := fun _ _ _ => None;
     resolve_static_setitem := fun _ _ _ => None;
     resolve_delitem := fun _ _ => None;
     resolve_setattr := fun _ _ _ => None;
     explain_function_type := fun _ => "";
     fold_argument_types := fun _ pos _ => ("", pos);
     callstack_match := fun _ _ =>
       {| frame_is_self := true; frame_return_types := [] |} |}.

(** Error contexts that leave the exception as it is. *)
Definition demo_error_context (fmt : string) (fargs : list FmtArg)
    (e : exn) : exn := e.

(** A context whose [unify_pairs] is not a join: the symbols "A", "B",
    "C" widen along A, B -> D and D, C -> E only. *)
Definition chain_unify_pairs (a b : type) : option type :=
  if bool_decide (a = b) then Some a
  else
    match a, b with
    | Scalar "A", Scalar "B" => Some (Scalar "D")
    | Scalar "D", Scalar "C" => Some (Scalar "E")
    | _, _ => None
    end.

Definition chain_ctx : Context :=
  {| can_convert := demo_can_convert;
     unify_pairs := chain_unify_pairs;
     unify_types := fun _ => None;
     is_precise := demo_is_precise;
     resolve_value_type := fun _ => None;
     resolve_function_type := fun _ _ _ => None;
     resolve_getattr := fun _ _ => None;
     resolve_static_getitem := fun _ _ => None;
     resolve_setitem := fun _ _ _ => None;
     resolve_static_setitem := fun _ _ _ => None;
     resolve_delitem := fun _ _ => None;
     resolve_setattr := fun _ _ _ => None;
     explain_function_type := fun _ => "";
     fold_argument_types := fun _ pos _ => ("", pos);
     callstack_match := fun _ _ =>
       {| frame_is_self := true; frame_return_types := [] |} |}.

Definition demo_loc (n : nat) : Loc := {| filename := "demo.py"; line := n |}.

(** The store of a fresh inferer over a given network. *)
Definition fresh_inferer (network : list Constraint)
    (calls : list (nat * Constraint)) (return_vars : list string)
    : TypeInferer :=
  {| typevars := ∅; constraints := network; refine_map := ∅;
     signatures := ∅; calls := calls; calltypes := ∅;
     return_vars := return_vars |}.

(** [x = 1; y = 2.0; z = x + y; w = z]: the constants are locked by the
    build phase, the rest is left to the network. *)
Definition demo_network : list Constraint :=
  [ Propagate "w" "z" (demo_loc 4);
    IntrinsicCallConstraint 0 "z" "+" ["x"; "y"] [] None (demo_loc 3) ].

Definition demo_seeded : TypeInferer :=
  let st0 := fresh_inferer demo_network [] ["w"] in
  let st1 := (TypeInferer_lock_type demo_ctx "x" int64
                (Some (demo_loc 1)) st0).2 in
  (TypeInferer_lock_type demo_ctx "y" float64 (Some (demo_loc 2)) st1).2.

(** ** Histories of a cell

    The two methods that write [self.type], applied one after the other
    to a cell; an exception leaves the cell as the method left it and the
    history goes on (the network captures it). *)

Inductive cell_op : Type :=
  | OpAddType (tp : type) (loc : option Loc)
  | OpLock (tp : type) (loc : option Loc).

Definition apply_op (ctx : Context) (tv : TypeVar) (op : cell_op)
    : TypeVar :=
  match op with
  | OpAddType tp loc => (TypeVar_add_type ctx tv tp loc).2
  | OpLock tp loc => (TypeVar_lock ctx tv tp loc).2
  end.

Definition run_ops (ctx : Context) (ops : list cell_op) (tv : TypeVar)
    : TypeVar :=
  fold_left (apply_op ctx) ops tv.

(** One change of a cell's type by [add_type]: the first assignment, or
    the replacement of the type by its [unify_pairs] with the added one. *)
Inductive add_step (ctx : Context) : option type -> option type -> Prop :=
  | add_step_first (T : type) : add_step ctx None (Some T)
  | add_step_join (A X U : type) :
      unify_pairs ctx A X = Some U -> add_step ctx (Some A) (Some U).

(** One change of a cell's type by [lock]: the lock target replaces the
    type, which must convert to it. *)
Inductive lock_step (ctx : Context) : option type -> option type -> Prop :=
  | lock_step_first (T : type) : lock_step ctx None (Some T)
  | lock_step_convert (A T : type) (c : Conversion) :
      can_convert ctx A (Some T) = Some c ->
      lock_step ctx (Some A) (Some T).

Definition cell_step (ctx : Context) (p q : option type) : Prop :=
  add_step ctx p q \/ lock_step ctx p q.

(** The join with the undefined state as its neutral element. *)
Definition join_bottom (ctx : Context) (p : option type) (X : type)
    : option type :=
  match p with
  | None => Some X
  | Some A => unify_pairs ctx A X
  end.

(** The relation between the type of a cell at an earlier and at a later
    point that the monotonicity property of the specification states:
    undefined, unchanged, or one join of the earlier type. *)
Definition one_join (ctx : Context) (p q : option type) : Prop :=
  q = None \/ q = p \/ exists X, q = join_bottom ctx p X.

(** Cells and stores ordered by what [add_type] can do to them. *)
Definition cell_le (ctx : Context) (a b : TypeVar) : Prop :=
  rtc (add_step ctx) (tv_type a) (tv_type b)
  /\ (tv_locked a = true -> b = a).

Definition store_le (ctx : Context) (s s' : TypeInferer) : Prop :=
  forall name tv,
    typevars s !! name = Some tv ->
    exists tv', typevars s' !! name = Some tv' /\ cell_le ctx tv tv'.

(** The store after [n] passes of the network over it. *)
Definition after_passes (ctx : Context)
    (new_error_context : string -> list FmtArg -> exn -> exn)
    (depth : nat) (n : nat) (st : TypeInferer) : TypeInferer :=
  Nat.iter n
    (fun s =>
       (ConstraintNetwork_propagate ctx new_error_context depth
          (constraints s) s).2)
    st.

(** An unlocked cell that holds a type. *)
Definition cell_of (var : string) (tp : type) : TypeVar :=
  {| tv_var := var; tv_type := Some tp; tv_locked := false;
     tv_define_loc := None |}.

(** The cell that [typevars[name]] returns on a given store, and the
    store after the look-ups of several names (a name without a cell
    gets a fresh one). *)
Definition cell_at (st : TypeInferer) (name : string) : TypeVar :=
  default (TypeVar_init name) (typevars st !! name).

Definition touch (names : list string) (st : TypeInferer) : TypeInferer :=
  fold_left (fun s name => (typevars_getitem name s).2) names st.

(** ** The passes, as the specification words them *)

(** One pass: every constraint fires once, in order; a typing error is
    kept as it is, any other exception is kept wrapped into a typing
    error that carries the constraint and its location, and in both
    cases the pass goes on with the next constraint. *)
Inductive fires_in_order (ctx : Context)
    (nec : string -> list FmtArg -> exn -> exn) (depth : nat)
    : list Constraint -> TypeInferer -> list exn -> TypeInferer -> Prop :=
  | fires_none st : fires_in_order ctx nec depth [] st [] st
  | fires_ok c cs st st1 errs st2 :
      fire ctx nec depth c st = (Ret tt, st1) ->
      fires_in_order ctx nec depth cs st1 errs st2 ->
      fires_in_order ctx nec depth (c :: cs) st errs st2
  | fires_typing_error c cs st e st1 errs st2 :
      fire ctx nec depth c st = (Raise e, st1) ->
      is_TypingError e = true ->
      fires_in_order ctx nec depth cs st1 errs st2 ->
      fires_in_order ctx nec depth (c :: cs) st (e :: errs) st2
  | fires_other_error c cs st e st1 errs st2 :
      fire ctx nec depth c st = (Raise e, st1) ->
      is_TypingError e = false ->
      fires_in_order ctx nec depth cs st1 errs st2 ->
      fires_in_order ctx nec depth (c :: cs) st
        (InternalTypingError c e (constraint_loc c) :: errs) st2.

(** What is raised once the passes have stopped: the first error of the
    last pass, if it had any. *)
Definition first_error (errors : list exn) : Outcome unit :=
  match errors with
  | [] => Ret tt
  | e :: _ => Raise e
  end.

(** The fixed-point phase: a pass that leaves the token as it was is the
    last one; after any other pass the phase starts again, and the errors
    of that pass are dropped. *)
Inductive reaches_fixpoint (ctx : Context)
    (nec : string -> list FmtArg -> exn -> exn) (depth : nat)
    : TypeInferer -> Outcome unit * TypeInferer -> Prop :=
  | fixpoint_now st errors st1 :
      ConstraintNetwork_propagate ctx nec depth (constraints st) st
      = (errors, st1) ->
      TypeInferer_get_state_token st1 = TypeInferer_get_state_token st ->
      reaches_fixpoint ctx nec depth st (first_error errors, st1)
  | fixpoint_later st errors st1 res :
      ConstraintNetwork_propagate ctx nec depth (constraints st) st
      = (errors, st1) ->
      TypeInferer_get_state_token st1 <> TypeInferer_get_state_token st ->
      reaches_fixpoint ctx nec depth st1 res ->
      reaches_fixpoint ctx nec depth st res.

(** The token the specification describes: the (name, type) pairs in the
    order of the names. *)
Definition named_token (self : TypeInferer) : list (string * option type) :=
  map (fun item => (item.1, tv_type item.2)) (sorted_items (typevars self)).

(** Stores for running single constraints. *)
Definition store_of (cells : list (string * TypeVar))
    (refiners : list (string * Constraint)) (calls : list (nat * Constraint))
    : TypeInferer :=
  {| typevars := list_to_map cells; constraints := [];
     refine_map := list_to_map refiners; signatures := ∅; calls := calls;
     calltypes := ∅; return_vars := [] |}.

Definition locked_cell (var : string) (tp : type) : TypeVar :=
  {| tv_var := var; tv_type := Some tp; tv_locked := true;
     tv_define_loc := None |}.

(** [s = set()] after [s.add(1)] has refined [s] to a set of integers. *)
Definition set_store : TypeInferer :=
  store_of [("set_fn", locked_cell "set_fn" (Scalar "set"));
            ("s", cell_of "s" (SetType int64))] [] [].

Definition set_signature_int64 : Signature :=
  {| return_type := SetType int64; args := []; recvr := None;
     pysig := None |}.

(** [w = z], registered as the refiner of [w], with a locked [x]. *)
Definition refine_store : TypeInferer :=
  store_of [("x", locked_cell "x" int64)]
    [("w", Propagate "w" "z" (demo_loc 4))] [].

(** A pair, a two-element tuple and an iterable. *)
Definition shapes_store : TypeInferer :=
  store_of [("p", cell_of "p" (Pair int64 float64));
            ("t2", cell_of "t2" (UniTuple int64 2));
            ("it", cell_of "it" (IterableType "range_iter" int64))] [] [].

(** [print(t)] for an argument the built-in cannot print. *)
Definition print_constraint_demo : Constraint :=
  PrintConstraint 3 ["t"] None (demo_loc 9).

Definition print_store : TypeInferer :=
  store_of [("t", cell_of "t" (Tuple []))] [] [(7, print_constraint_demo)].

(** The invalid-call error of [CallConstraint.resolve]. *)
Definition is_invalid_call (e : exn) : bool :=
  match e with
  | TypingError (InvalidUsage _ _ _ _) _ => true
  | _ => false
  end.

(** A method is monotone when it only lets the cells grow. *)
Definition monotone (ctx : Context) {A} (m : M A) : Prop :=
  forall st r st', m st = (r, st') -> store_le ctx st st'.

(** A method that raises only exceptions with a given property. *)
Definition raises_only (P : exn -> Prop) {A} (m : M A) : Prop :=
  forall st e st', m st = (Raise e, st') -> P e.

(** ** class TypeVarMap, as a dictionary *)

(** [TypeVar.__len__] *)
Definition TypeVar_len (self : TypeVar) : nat :=
  match tv_type self with
  | Some _ => 1
  | None => 0
  end.

(** KeyError("Cannot redefine typevar %s" % name) *)
Inductive KeyError : Type :=
  | CannotRedefineTypevar (name : string).

(** [TypeVarMap.__setitem__] *)
Definition TypeVarMap_setitem (self : gmap string TypeVar) (name : string)
    (value : TypeVar) : KeyError + gmap string TypeVar :=
  match self !! name with
  | Some _ => inl (CannotRedefineTypevar name)
  | None => inr (<[name := value]> self)
  end.

(** [TypeVarMap.__getitem__], through [__setitem__] as the class has it:
    the value returned and the dictionary afterwards. *)
Definition TypeVarMap_getitem (self : gmap string TypeVar) (name : string)
    : KeyError + (TypeVar * gmap string TypeVar) :=
  match self !! name with
  | None =>
      match TypeVarMap_setitem self name (TypeVar_init name) with
      | inl e => inl e
      | inr self' =>
          match self' !! name with
          | Some tv => inr (tv, self')
          | None => inl (CannotRedefineTypevar name)
          end
      end
  | Some tv => inr (tv, self)
  end.

(** The names that [all(typevars[v.name].defined for v in names)] looks
    up on a store: up to the first one without a type, included. *)
Fixpoint looked_up (st : TypeInferer) (names : list string) : list string :=
  match names with
  | [] => []
  | n :: rest =>
      if TypeVar_defined (cell_at st n) then n :: looked_up st rest
      else [n]
  end.

(** The variables that the constraints of the indexed and attribute
    stores read. *)
Definition item_names (c : Constraint) : option (list string) :=
  match c with
  | SetItemConstraint _ target index value _ => Some [target; index; value]
  | StaticSetItemConstraint _ target _ index_var value _ =>
      Some [target; index_var; value]
  | DelItemConstraint _ target index _ => Some [target; index]
  | SetAttrConstraint _ target _ value _ => Some [target; value]
  | _ => None
  end.

(** ** Building the network and seeding *)

(** [ConstraintNetwork.append], on the network of the inferer *)
Definition ConstraintNetwork_append (constraint : Constraint)
    (st : TypeInferer) : TypeInferer :=
  {| typevars := typevars st;
     constraints := constraints st ++ [constraint];
     refine_map := refine_map st; signatures := signatures st;
     calls := calls st; calltypes := calltypes st;
     return_vars := return_vars st |}.

(** [TypeInferer._mangle_arg_name]: Disambiguise argument name *)
Definition mangle_arg_name (name : string) : string := "arg." +:+ name.

(** [TypeInferer.seed_type]: All arguments should be seeded. *)
Definition TypeInferer_seed_type (ctx : Context) (name : string)
    (typ : type) : M unit :=
  TypeInferer_lock_type ctx name typ None.

(** [TypeInferer.seed_argument]; [arg_names] is the dictionary
    [{ index: mangled name }] of the inferer, returned updated. *)
Definition TypeInferer_seed_argument (ctx : Context)
    (arg_names : gmap nat string) (name : string) (index : nat)
    (typ : type) : M (gmap nat string) :=
  (let name := mangle_arg_name name in
   TypeInferer_seed_type ctx name typ ;;
   ret (<[index := name]> arg_names))%method.

(** [TypeInferer.seed_return]: Seeding of return value is optional. *)
Definition TypeInferer_seed_return (ctx : Context) (typ : type) : M unit :=
  fun st =>
    for_each (return_vars st)
      (fun var => TypeInferer_lock_type ctx var typ None) st.

(** ** The unify phase *)

(** What [TypeInferer.unify] raises: its two typing errors, the errors
    of the dictionary and list accesses it makes, the typing errors of
    [get_generator_type], and, under [Raised], the exceptions of the
    methods it calls. *)
Inductive UnifyError : Type :=
  (* TypingError("Undefined variable '%s'") *)
  | UndefinedVariable (var : string)
  (* TypingError("Can't infer type of variable '%s': %s") *)
  | CannotInferType (var : string) (tp : type)
  (* k[0] on an empty name *)
  | NameIndexError
  (* typemap[name] on a name the dictionary does not have *)
  | TypemapKeyError (name : string)
  (* arg_types[index] = ... with an index beyond the list *)
  | ArgIndexError (index : nat)
  (* "Cannot type generator: it does not yield any value" *)
  | GeneratorDoesNotYield
  (* "Cannot type generator: cannot unify yielded types %s" *)
  | GeneratorCannotUnify (yield_types : list type)
  | Raised (e : exn).

(** [c.isalpha()] on an ASCII character: the letters *)
Definition is_alpha (c : Ascii.ascii) : bool :=
  let n := Ascii.nat_of_ascii c in
  (Nat.leb 65 n && Nat.leb n 90) || (Nat.leb 97 n && Nat.leb n 122).

(** [k[0].isalpha()] for a name of ASCII characters that is not empty.
    The definitions below take the test as a parameter [isalpha0], so
    that what is proved of them does not depend on the alphabet. *)
Definition starts_alpha (k : string) : bool :=
  match k with
  | String c _ => is_alpha c
  | EmptyString => false
  end.

(** [check_var] of [unify], on the cell the name stands for; [typdict]
    is returned with the new entry. *)
Definition check_var (ctx : Context) (st : TypeInferer)
    (typdict : gmap string type) (var : string)
    : UnifyError + gmap string type :=
  let tv := cell_at st var in
  match tv_type tv with
  | None => inl (UndefinedVariable var)
  | Some tp =>
      if is_precise ctx tp then inr (<[var := tp]> typdict)
      else inl (CannotInferType var tp)
  end.

(** [for var in vars: check_var(var)] *)
Fixpoint check_vars (ctx : Context) (st : TypeInferer)
    (typdict : gmap string type) (vars : list string)
    : UnifyError + gmap string type :=
  match vars with
  | [] => inr typdict
  | var :: rest =>
      match check_var ctx st typdict var with
      | inl e => inl e
      | inr typdict' => check_vars ctx st typdict' rest
      end
  end.

(** [[typemap[name] for name in names]] *)
Fixpoint typemap_getitems (typemap : gmap string type)
    (names : list string) : UnifyError + list type :=
  match names with
  | [] => inr []
  | name :: rest =>
      match typemap !! name with
      | None => inl (TypemapKeyError name)
      | Some t =>
          match typemap_getitems typemap rest with
          | inl e => inl e
          | inr ts => inr (t :: ts)
          end
      end
  end.

(** [TypeInferer.get_return_type]; the set of the return types is a list
    without duplicates, in the order of the return variables. *)
Definition TypeInferer_get_return_type (ctx : Context) (st : TypeInferer)
    (typemap : gmap string type) : UnifyError + type :=
  match typemap_getitems typemap (return_vars st) with
  | inl e => inl e
  | inr tys =>
      match (TypeInferer_unify_return_types ctx (remove_dups tys) st).1 with
      | Ret t => inr t
      | Raise e => inl (Raised e)
      end
  end.

(** What [get_generator_type] reads of [self.generator_info]: the state
    variables and the names of the yielded values. *)
Record GeneratorInfo : Type := mkGeneratorInfo {
  state_vars : list string;
  yield_points : list string
}.

(** The return type of [unify]: a type of the lattice, or
    [types.Generator(func, yield_type, arg_types, state_types,
    has_finalizer=True)]. *)
Inductive ReturnType : Type :=
  | PlainReturn (t : type)
  | GeneratorReturn (yield_type : type) (arg_types : list (option type))
      (state_types : list type).

(** [TypeInferer.get_generator_type]; the items of [arg_names] are taken
    in the order of the dictionary. *)
Definition TypeInferer_get_generator_type (ctx : Context)
    (arg_names : gmap nat string) (gi : GeneratorInfo)
    (typdict : gmap string type) : UnifyError + ReturnType :=
  let fill :=
    fold_left
      (fun (acc : UnifyError + list (option type)) (item : nat * string) =>
         match acc with
         | inl e => inl e
         | inr arg_types =>
             match typdict !! item.2 with
             | None => inl (TypemapKeyError item.2)
             | Some t =>
                 if bool_decide (item.1 < length arg_types)
                 then inr (<[item.1 := Some t]> arg_types)
                 else inl (ArgIndexError item.1)
             end
         end)
      (map_to_list arg_names)
      (inr (replicate (size arg_names) None)) in
  match fill with
  | inl e => inl e
  | inr arg_types =>
      match typemap_getitems typdict (state_vars gi) with
      | inl e => inl e
      | inr state_types =>
          match typemap_getitems typdict (yield_points gi) with
          | inl e => inl e
          | inr [] => inl GeneratorDoesNotYield
          | inr yield_types =>
              match unify_types ctx yield_types with
              | None => inl (GeneratorCannotUnify yield_types)
              | Some yield_type =>
                  inr (GeneratorReturn yield_type arg_types state_types)
              end
          end
      end
  end.

(** The names [unify] checks, in its order: the user-visible ones, then
    the temporaries. *)
Definition unify_order (isalpha0 : string -> bool) (st : TypeInferer)
    : list string :=
  let keys := (map_to_list (typevars st)).*1 in
  let temps := filter (fun k => isalpha0 k = false) keys in
  let others := filter (fun k => isalpha0 k = true) keys in
  merge_sort String.le others ++ merge_sort String.le temps.

(** [TypeInferer.unify]: Run the final unification pass over all
    inferred types, and catch imprecise types.  [arg_names] and
    [generator_info] are the attributes of the inferer. *)
Definition TypeInferer_unify (ctx : Context) (isalpha0 : string -> bool)
    (arg_names : gmap nat string)
    (generator_info : option GeneratorInfo) (st : TypeInferer)
    : (UnifyError
       + (gmap string type * ReturnType * gmap nat (option Signature)))
      * TypeInferer :=
  if bool_decide ("" ∈ (map_to_list (typevars st)).*1) then
    (inl NameIndexError, st)
  else
    (* For better error display, check first user-visible vars, then
       temporaries *)
    match check_vars ctx st ∅ (unify_order isalpha0 st) with
    | inl e => (inl e, st)
    | inr typdict =>
        match TypeInferer_get_return_type ctx st typdict with
        | inl e => (inl e, st)
        | inr retty =>
            match TypeInferer_get_function_types st with
            | (Raise e, st') => (inl (Raised e), st')
            | (Ret fntys, st') =>
                match generator_info with
                | Some gi =>
                    match TypeInferer_get_generator_type ctx arg_names gi
                            typdict with
                    | inl e => (inl e, st')
                    | inr retty => (inr (typdict, retty, fntys), st')
                    end
                | None => (inr (typdict, PlainReturn retty, fntys), st')
                end
            end
        end
    end.

(** Stores for the unify phase: [x] and the returned temporary are
    integers; and, in the second, [b] and a temporary are undefined. *)
Definition unify_store : TypeInferer :=
  {| typevars := list_to_map [("x", cell_of "x" int64);
                              ("$0.1", cell_of "$0.1" int64)];
     constraints := []; refine_map := ∅; signatures := ∅; calls := [];
     calltypes := ∅; return_vars := ["$0.1"] |}.

Definition undefined_store : TypeInferer :=
  store_of [("$0.1", TypeVar_init "$0.1"); ("b", TypeVar_init "b");
            ("a", cell_of "a" int64)] [] [].

(** * Properties *)

(** ** TypeVar.add_type *)

(** C1.  [TypeVar.add_type(T, loc)] on every cell.  Locked: the cell is
    left as it is, and when [T] differs from the current type the call
    raises the no-conversion typing error exactly when
    [can_convert(T, current)] is [None] (it returns the current type
    otherwise).  Unlocked and undefined: the type becomes [T] and
    [define_loc] becomes [loc].  Unlocked and defined: the type becomes
    [unify_pairs(current, T)], and the cannot-unify typing error is raised
    exactly when that join is [None], the cell being left as it is. *)
Theorem TypeVar_add_type_cases (ctx : Context) (tv : TypeVar) (T : type)
    (loc : option Loc) :
  (tv_locked tv = true ->
     (TypeVar_add_type ctx tv T loc).2 = tv
     /\ (Some T <> tv_type tv ->
         ((TypeVar_add_type ctx tv T loc).1
            = Raise (TypingError
                       (NoConversion T (tv_type tv) (tv_var tv)
                          (tv_define_loc tv)) loc)
          <-> can_convert ctx T (tv_type tv) = None)
         /\ (can_convert ctx T (tv_type tv) <> None ->
             (TypeVar_add_type ctx tv T loc).1 = Ret (tv_type tv)))
     /\ (Some T = tv_type tv ->
         (TypeVar_add_type ctx tv T loc).1 = Ret (tv_type tv)))
  /\ (tv_locked tv = false -> tv_type tv = None ->
      TypeVar_add_type ctx tv T loc
      = (Ret (Some T),
         {| tv_var := tv_var tv; tv_type := Some T; tv_locked := false;
            tv_define_loc := loc |}))
  /\ (tv_locked tv = false -> forall cur, tv_type tv = Some cur ->
      (forall U, unify_pairs ctx cur T = Some U ->
         TypeVar_add_type ctx tv T loc
         = (Ret (Some U),
            {| tv_var := tv_var tv; tv_type := Some U; tv_locked := false;
               tv_define_loc := tv_define_loc tv |}))
      /\ ((TypeVar_add_type ctx tv T loc).1
            = Raise (TypingError
                       (CannotUnify cur T (tv_var tv) (tv_define_loc tv))
                       loc)
          <-> unify_pairs ctx cur T = None)
      /\ (unify_pairs ctx cur T = None ->
          (TypeVar_add_type ctx tv T loc).2 = tv)).
Proof.
  destruct tv as [var ty locked dloc]; simpl.
  split; [|split].
  - intros ->. unfold TypeVar_add_type; simpl.
    case_bool_decide as Hne.
    + destruct (can_convert ctx T ty) eqn:Hc; simpl.
      * split; [done|]. split; [|by intros ?].
        intros _. split; [|done]. split; [done|congruence].
      * split; [done|]. split; [|by intros ?].
        intros _. split; [done|]. by intros [].
    + split; [done|]. split; [by intros ?|done].
  - intros -> ->. reflexivity.
  - intros -> cur ->. unfold TypeVar_add_type; simpl.
    destruct (unify_pairs ctx cur T) as [U|] eqn:Hu; simpl.
    + split; [by intros ? [= ->]|]. split; [|done].
      split; [done|congruence].
    + split; [done|]. split; [done|done].
Qed.

(** ** Monotone growth of the cells *)

Section Monotone.
Variable ctx : Context.

Lemma cell_le_refl (a : TypeVar) : cell_le ctx a a.
Proof. split; [apply rtc_refl | done]. Qed.

Lemma cell_le_trans (a b c : TypeVar) :
  cell_le ctx a b -> cell_le ctx b c -> cell_le ctx a c.
Proof.
  intros [Hab Hla] [Hbc Hlb]. split.
  - by etrans.
  - intros Hl. specialize (Hla Hl). subst b. auto.
Qed.

Lemma store_le_refl (s : TypeInferer) : store_le ctx s s.
Proof. intros name tv Htv. exists tv. split; [done | apply cell_le_refl]. Qed.

Lemma store_le_same_typevars (s s' : TypeInferer) :
  typevars s' = typevars s -> store_le ctx s s'.
Proof.
  intros Heq name tv Htv. exists tv. rewrite Heq.
  split; [done | apply cell_le_refl].
Qed.

Lemma store_le_trans (s1 s2 s3 : TypeInferer) :
  store_le ctx s1 s2 -> store_le ctx s2 s3 -> store_le ctx s1 s3.
Proof.
  intros H12 H23 name tv Htv.
  destruct (H12 _ _ Htv) as (tv2 & Htv2 & Hle2).
  destruct (H23 _ _ Htv2) as (tv3 & Htv3 & Hle3).
  exists tv3. split; [done | by eapply cell_le_trans].
Qed.

(** What one [add_type] does to the type of a cell. *)
Lemma TypeVar_add_type_step (tv : TypeVar) (T : type) (loc : option Loc) :
  (TypeVar_add_type ctx tv T loc).2 = tv
  \/ (tv_locked tv = false
      /\ add_step ctx (tv_type tv) (tv_type (TypeVar_add_type ctx tv T loc).2)).
Proof.
  unfold TypeVar_add_type.
  destruct (tv_locked tv) eqn:Hl.
  - left. case_bool_decide; [destruct (can_convert _ _ _)|]; done.
  - destruct (tv_type tv) as [cur|] eqn:Hty.
    + destruct (unify_pairs ctx cur T) as [U|] eqn:Hu; [|by left].
      right. split; [done|]. simpl. by econstructor.
    + right. split; [done|]. simpl. constructor.
Qed.

Lemma TypeVar_add_type_le (tv : TypeVar) (T : type) (loc : option Loc) :
  cell_le ctx tv (TypeVar_add_type ctx tv T loc).2.
Proof.
  destruct (TypeVar_add_type_step tv T loc) as [-> | [Hl Hs]].
  - apply cell_le_refl.
  - split; [by apply rtc_once | congruence].
Qed.

Lemma TypeVar_union_le (tv : TypeVar) (o : option type) (loc : option Loc) :
  cell_le ctx tv (TypeVar_union ctx tv o loc).2.
Proof.
  unfold TypeVar_union. destruct o as [t|]; [|apply cell_le_refl].
  pose proof (TypeVar_add_type_le tv t loc) as H.
  by destruct (TypeVar_add_type ctx tv t loc) as [[?|?] ?].
Qed.

(** What one [lock] does to the type of a cell. *)
Lemma TypeVar_lock_step (tv : TypeVar) (T : type) (loc : option Loc) :
  (TypeVar_lock ctx tv T loc).2 = tv
  \/ (tv_locked tv = false
      /\ lock_step ctx (tv_type tv) (tv_type (TypeVar_lock ctx tv T loc).2)).
Proof.
  unfold TypeVar_lock.
  destruct (tv_locked tv) eqn:Hl; [by left|].
  assert (forall tv0 : TypeVar,
            tv_type match tv_define_loc tv0 with
                    | None => set_tv_define_loc tv0 loc
                    | Some _ => tv0
                    end = tv_type tv0) as Hty
    by (intros tv0; by destruct (tv_define_loc tv0)).
  destruct (tv_type tv) as [cur|] eqn:Hty0.
  - case_bool_decide as Hc; [|by left].
    right. split; [done|]. cbn [snd]. rewrite Hty. simpl.
    destruct (can_convert ctx cur (Some T)) as [c|] eqn:Hcc; [|done].
    by econstructor.
  - right. split; [done|]. cbn [snd]. rewrite Hty. constructor.
Qed.

(** A returned type that differs from the old one is a type: the case
    left open in [TypeInferer_add_type_with] is never taken. *)
Lemma TypeVar_add_type_returns (tv : TypeVar) (T : type) (loc : option Loc)
    (u : option type) :
  (TypeVar_add_type ctx tv T loc).1 = Ret u ->
  u = tv_type (TypeVar_add_type ctx tv T loc).2
  /\ (u <> tv_type tv -> u <> None).
Proof.
  unfold TypeVar_add_type.
  destruct (tv_locked tv).
  - case_bool_decide; [destruct (can_convert _ _ _)|]; simpl;
      intros [= <-]; done.
  - destruct (tv_type tv) as [cur|].
    + destruct (unify_pairs ctx cur T); simpl; intros [= <-]; done.
    + simpl. intros [= <-]. done.
Qed.

#[local] Abbreviation mono := (monotone ctx).

Lemma mono_ret {A} (a : A) : mono (ret a).
Proof. intros st r st' [= _ <-]. apply store_le_refl. Qed.

Lemma mono_raise {A} (e : exn) : mono (@raise A e).
Proof. intros st r st' [= _ <-]. apply store_le_refl. Qed.

Lemma mono_lift {A} (o : Outcome A) : mono (lift o).
Proof. intros st r st' [= _ <-]. apply store_le_refl. Qed.

Lemma mono_bind {A B} (m : M A) (k : A -> M B) :
  mono m -> (forall a, mono (k a)) -> mono (bind m k).
Proof.
  intros Hm Hk st r st'. unfold bind.
  destruct (m st) as [[a|e] st1] eqn:Hst.
  - intros Hk'. eapply store_le_trans; [by eapply Hm | by eapply Hk].
  - intros [= _ <-]. by eapply Hm.
Qed.

Lemma mono_for_each {A} (xs : list A) (body : A -> M unit) :
  (forall x, mono (body x)) -> mono (for_each xs body).
Proof.
  intros Hb. induction xs as [|x xs IH]; simpl.
  - apply mono_ret.
  - apply mono_bind; auto.
Qed.

Lemma mono_map_M {A B} (f : A -> M B) (xs : list A) :
  (forall x, mono (f x)) -> mono (map_M f xs).
Proof.
  intros Hf. induction xs as [|x xs IH]; simpl.
  - apply mono_ret.
  - apply mono_bind; [auto|]. intros y.
    apply mono_bind; [auto|]. intros ys. apply mono_ret.
Qed.

Lemma mono_error_context {A} nec fmt fargs (body : M A) :
  mono body -> mono (with_error_context nec fmt fargs body).
Proof.
  intros Hb st r st'. unfold with_error_context.
  destruct (body st) as [[a|e] st1] eqn:Hst; intros [= _ <-];
    by eapply Hb.
Qed.

Lemma mono_set_signature id sig : mono (set_signature id sig).
Proof. intros st r st' [= _ <-]. by apply store_le_same_typevars. Qed.

Lemma mono_refine_map_setitem name c : mono (refine_map_setitem name c).
Proof. intros st r st' [= _ <-]. by apply store_le_same_typevars. Qed.

(** Looking a cell up returns the cell now held under that name; a fresh
    cell is added under a name that had none. *)
Lemma typevars_getitem_keeps (name : string) (st : TypeInferer) n tv0 :
  typevars st !! n = Some tv0 ->
  typevars (typevars_getitem name st).2 !! n = Some tv0.
Proof.
  intros Hn. unfold typevars_getitem.
  destruct (typevars st !! name) as [tv|] eqn:Hl; [done|].
  simpl. rewrite lookup_insert_ne; [done|]. congruence.
Qed.

Lemma typevars_getitem_spec (name : string) (st : TypeInferer) :
  exists tv,
    (typevars_getitem name st).1 = Ret tv
    /\ typevars (typevars_getitem name st).2 !! name = Some tv
    /\ store_le ctx st (typevars_getitem name st).2.
Proof.
  assert (store_le ctx st (typevars_getitem name st).2) as Hle.
  { intros n tv Hn. exists tv. split; [|apply cell_le_refl].
    by apply typevars_getitem_keeps. }
  revert Hle. unfold typevars_getitem.
  destruct (typevars st !! name) as [tv|] eqn:Hl; intros Hle.
  - by exists tv.
  - exists (TypeVar_init name). split; [done|]. simpl.
    split; [by rewrite lookup_insert_eq | done].
Qed.

Lemma mono_typevars_getitem name : mono (typevars_getitem name).
Proof.
  intros st r st' H.
  destruct (typevars_getitem_spec name st) as (tv & _ & _ & Hle).
  by rewrite H in Hle.
Qed.

(** Writing a grown cell back under its name lets the store grow. *)
Lemma typevar_update_le (var : string) (tv tv' : TypeVar)
    (st : TypeInferer) :
  typevars st !! var = Some tv ->
  cell_le ctx tv tv' ->
  store_le ctx st (typevar_update var tv' st).2.
Proof.
  intros Hl Hle n tv0 Hn. simpl.
  destruct (decide (var = n)) as [<-|Hne].
  - exists tv'. rewrite lookup_insert_eq. split; [done|]. congruence.
  - exists tv0. rewrite lookup_insert_ne; [|done].
    split; [done | apply cell_le_refl].
Qed.

Lemma mono_add_type_with (prt : string -> type -> M unit) var tp loc ul :
  (forall v u, mono (prt v u)) ->
  mono (TypeInferer_add_type_with ctx prt var tp loc ul).
Proof.
  intros Hp st r st'. unfold TypeInferer_add_type_with, bind.
  destruct (typevars_getitem_spec var st) as (tv & Hr & Hlk & Hle).
  destruct (typevars_getitem var st) as [r0 st0]; simpl in *; subst r0.
  destruct (ul && tv_locked tv); [by intros [= _ <-]|].
  pose proof (TypeVar_add_type_le tv tp loc) as Hcell.
  destruct (TypeVar_add_type ctx tv tp loc) as [r1 tv'].
  simpl in Hcell. unfold bind. simpl.
  pose proof (typevar_update_le var tv tv' st0 Hlk Hcell) as Hle1.
  simpl in Hle1.
  assert (store_le ctx st (set_typevars (insert var tv') st0)) as Hle2
    by (by eapply store_le_trans).
  destruct r1 as [u|e]; simpl; [|by intros [= _ <-]].
  case_bool_decide; [|by intros [= _ <-]].
  destruct u as [u|]; [|by intros [= _ <-]].
  intros Hprt. eapply store_le_trans; [done | by eapply Hp].
Qed.

Lemma mono_refine (depth : nat) :
  forall (c : Constraint) (T : type), mono (refine ctx depth c T).
Proof.
  induction depth as [|d IH]; intros c T; simpl.
  - apply mono_raise.
  - assert (forall v u,
              mono (fun st =>
                      match refine_map st !! v with
                      | Some source_constraint =>
                          refine ctx d source_constraint u st
                      | None => (Ret tt, st)
                      end)) as Hprt.
    { intros v u st r st'. destruct (refine_map st !! v).
      - apply IH.
      - intros [= _ <-]. apply store_le_refl. }
    destruct c; try apply mono_raise.
    + by apply mono_add_type_with.
    + destruct T; try apply mono_ret.
      apply mono_bind; [by apply mono_add_type_with|].
      intros _. apply Hprt.
Qed.

Lemma mono_propagate_refined_type depth v u :
  mono (TypeInferer_propagate_refined_type ctx depth v u).
Proof.
  intros st r st'. unfold TypeInferer_propagate_refined_type.
  destruct (refine_map st !! v).
  - by apply mono_refine.
  - intros [= _ <-]. apply store_le_refl.
Qed.

Lemma mono_add_type depth var tp loc ul :
  mono (TypeInferer_add_type ctx depth var tp loc ul).
Proof.
  apply mono_add_type_with. intros v u. apply mono_propagate_refined_type.
Qed.

Lemma mono_copy_type src dst loc :
  mono (TypeInferer_copy_type ctx src dst loc).
Proof.
  intros st r st'. unfold TypeInferer_copy_type, bind.
  destruct (typevars_getitem_spec dst st) as (tv & Hr & Hlk & Hle).
  destruct (typevars_getitem dst st) as [r0 st0]; simpl in *; subst r0.
  destruct (typevars_getitem_spec src st0) as (tvs & Hrs & Hlks & Hles).
  destruct (typevars_getitem src st0) as [r1 st1] eqn:Hst1;
    simpl in *; subst r1.
  pose proof (typevars_getitem_keeps src st0 dst tv Hlk) as Hlk1.
  rewrite Hst1 in Hlk1. simpl in Hlk1.
  pose proof (TypeVar_union_le tv (tv_type tvs) loc) as Hcell.
  destruct (TypeVar_union ctx tv (tv_type tvs) loc) as [r2 tv'].
  simpl in Hcell. unfold bind. simpl.
  pose proof (typevar_update_le dst tv tv' st1 Hlk1 Hcell) as Hle2.
  simpl in Hle2.
  assert (store_le ctx st (set_typevars (insert dst tv') st1)) as Hle3.
  { eapply store_le_trans; [done|]. by eapply store_le_trans. }
  destruct r2; simpl; by intros [= _ <-].
Qed.

Ltac mono_step :=
  lazymatch goal with
  | |- mono (ret _) => apply mono_ret
  | |- mono (raise _) => apply mono_raise
  | |- mono (lift _) => apply mono_lift
  | |- mono (bind _ _) => apply mono_bind; [|intros ?]
  | |- mono (for_each _ _) => apply mono_for_each; intros ?
  | |- mono (map_M _ _) => apply mono_map_M; intros ?
  | |- mono (with_error_context _ _ _ _) => apply mono_error_context
  | |- mono (typevars_getitem _) => apply mono_typevars_getitem
  | |- mono (set_signature _ _) => apply mono_set_signature
  | |- mono (refine_map_setitem _ _) => apply mono_refine_map_setitem
  | |- mono (TypeInferer_add_type _ _ _ _ _ _) => apply mono_add_type
  | |- mono (TypeInferer_propagate_refined_type _ _ _ _) =>
      apply mono_propagate_refined_type
  | |- mono (TypeInferer_copy_type _ _ _ _) => apply mono_copy_type
  | |- mono (match ?x with _ => _ end) => destruct x
  end.
Ltac mono_auto := repeat mono_step.

Lemma mono_all_defined names : mono (all_defined names).
Proof. induction names; simpl; mono_auto; done. Qed.

Lemma mono_typevars_getone name : mono (typevars_getone name).
Proof. unfold typevars_getone. mono_auto. Qed.

Lemma mono_fold_arg_vars args vararg kws :
  mono (fold_arg_vars args vararg kws).
Proof. unfold fold_arg_vars. mono_auto. Qed.

Lemma mono_unify_return_types rettypes :
  mono (TypeInferer_unify_return_types ctx rettypes).
Proof. unfold TypeInferer_unify_return_types. mono_auto. Qed.

Lemma mono_resolve_call fnty pos kw :
  mono (TypeInferer_resolve_call ctx fnty pos kw).
Proof.
  unfold TypeInferer_resolve_call.
  destruct fnty as [fnty|op]; [|apply mono_ret].
  destruct fnty; try apply mono_ret.
  destruct fnty; try apply mono_raise.
  destruct (fold_argument_types _ _ _ _) as [pysig args0].
  apply mono_bind.
  - destruct (frame_is_self _); [|apply mono_ret].
    intros st r st'. apply mono_bind; [|intros ?; apply mono_ret].
    apply mono_map_M. intros ?. apply mono_typevars_getitem.
  - intros cells. destruct (remove_dups _); [apply mono_raise|].
    apply mono_bind; [apply mono_unify_return_types|].
    intros ?. apply mono_ret.
Qed.

Lemma mono_resolve depth id target func args kws vararg loc fnty :
  mono (CallConstraint_resolve ctx depth id target func args kws vararg
          loc fnty).
Proof.
  unfold CallConstraint_resolve.
  destruct (negb (truthy fnty)); [apply mono_raise|].
  apply mono_bind; [apply mono_fold_arg_vars|].
  intros [[pos kw]|]; [|apply mono_ret].
  apply mono_bind; [apply mono_resolve_call|].
  intros [sig|]; [|apply mono_raise].
  unfold refine_receiver, refine_return_type. mono_auto.
Qed.

Lemma mono_fire nec depth (c : Constraint) : mono (fire ctx nec depth c).
Proof.
  destruct c; simpl.
  - unfold Propagate_call. mono_auto.
  - unfold ArgConstraint_call. mono_auto.
  - unfold BuildTupleConstraint_call. mono_auto.
  - unfold BuildContainerConstraint_call. mono_auto.
  - unfold BuildContainerConstraint_call. mono_auto.
  - unfold ExhaustIterConstraint_call. mono_auto.
  - unfold PairFirstConstraint_call. mono_auto.
  - unfold PairSecondConstraint_call. mono_auto.
  - unfold StaticGetItemConstraint_call, IntrinsicCallConstraint_call.
    mono_auto; apply mono_resolve.
  - unfold CallConstraint_call. mono_auto; try apply mono_typevars_getone.
    apply mono_resolve.
  - unfold IntrinsicCallConstraint_call. mono_auto. apply mono_resolve.
  - unfold GetAttrConstraint_call. mono_auto.
  - unfold SetItemConstraint_call. mono_auto;
      first [apply mono_all_defined | apply mono_typevars_getone].
  - unfold StaticSetItemConstraint_call. mono_auto;
      first [apply mono_all_defined | apply mono_typevars_getone].
  - unfold DelItemConstraint_call. mono_auto;
      first [apply mono_all_defined | apply mono_typevars_getone].
  - unfold SetAttrConstraint_call. mono_auto;
      first [apply mono_all_defined | apply mono_typevars_getone].
  - unfold PrintConstraint_call. mono_auto;
      first [apply mono_fold_arg_vars | apply mono_resolve_call].
Qed.

(** One pass of the network only lets the cells grow. *)
Lemma ConstraintNetwork_propagate_le nec depth cs st :
  store_le ctx st (ConstraintNetwork_propagate ctx nec depth cs st).2.
Proof.
  unfold ConstraintNetwork_propagate.
  generalize (@nil exn). revert st.
  induction cs as [|c cs IH]; intros st errs; simpl.
  - apply store_le_refl.
  - destruct (fire ctx nec depth c st) as [r st1] eqn:Hf.
    eapply store_le_trans; [by eapply mono_fire | apply IH].
Qed.
End Monotone.

Section CellHistories.
Variable ctx : Context.

Lemma add_step_defined (p q : option type) :
  rtc (add_step ctx) p q -> p <> None -> q <> None.
Proof.
  induction 1 as [|p q r Hs _ IH]; [done|].
  intros _. apply IH. by destruct Hs.
Qed.

Lemma cell_step_defined (p q : option type) :
  rtc (cell_step ctx) p q -> p <> None -> q <> None.
Proof.
  induction 1 as [|p q r Hs _ IH]; [done|].
  intros _. apply IH. by destruct Hs as [[]|[]].
Qed.

Lemma apply_op_step (tv : TypeVar) (op : cell_op) :
  apply_op ctx tv op = tv
  \/ (tv_locked tv = false
      /\ cell_step ctx (tv_type tv) (tv_type (apply_op ctx tv op))).
Proof.
  destruct op as [T loc|T loc]; simpl.
  - destruct (TypeVar_add_type_step ctx tv T loc) as [?|[? ?]];
      [by left | right; split; [done | by left]].
  - destruct (TypeVar_lock_step ctx tv T loc) as [?|[? ?]];
      [by left | right; split; [done | by right]].
Qed.

Lemma run_ops_history (ops : list cell_op) (tv : TypeVar) :
  rtc (cell_step ctx) (tv_type tv) (tv_type (run_ops ctx ops tv))
  /\ (tv_locked tv = true -> run_ops ctx ops tv = tv).
Proof.
  unfold run_ops. revert tv.
  induction ops as [|op ops IH]; intros tv; simpl; [done|].
  destruct (IH (apply_op ctx tv op)) as [Hrtc Hlock].
  destruct (apply_op_step tv op) as [Heq | [Hl Hs]].
  - rewrite Heq in *. done.
  - split; [by eapply rtc_l | congruence].
Qed.

(** One [add_type] is within what the monotonicity property allows. *)
Lemma add_type_one_join (tv : TypeVar) (T : type) (loc : option Loc) :
  one_join ctx (tv_type tv) (tv_type (TypeVar_add_type ctx tv T loc).2).
Proof.
  destruct (TypeVar_add_type_step ctx tv T loc) as [-> | [_ Hs]].
  - right. by left.
  - right. right. destruct Hs as [T'|A X U HU].
    + by exists T'.
    + exists X. by rewrite <- HU.
Qed.

Lemma after_passes_le nec depth (p q : nat) (st : TypeInferer) :
  p <= q ->
  store_le ctx (after_passes ctx nec depth p st)
    (after_passes ctx nec depth q st).
Proof.
  induction 1 as [|q Hle IH]; [apply store_le_refl|].
  eapply store_le_trans; [exact IH|].
  simpl. apply ConstraintNetwork_propagate_le.
Qed.

Lemma token_length (st : TypeInferer) :
  length (TypeInferer_get_state_token st) = size (typevars st).
Proof.
  unfold TypeInferer_get_state_token, sorted_items.
  rewrite length_map, merge_sort_Permutation.
  apply length_map_to_list.
Qed.

Lemma store_le_size (s s' : TypeInferer) :
  store_le ctx s s' -> size (typevars s) <= size (typevars s').
Proof.
  intros Hle. apply dom_subseteq_size.
  intros name [tv Htv]%elem_of_dom.
  destruct (Hle _ _ Htv) as (tv' & Htv' & _).
  apply elem_of_dom. by exists tv'.
Qed.
End CellHistories.

(** ** Monotonicity of the cells *)

(** C3, as the code has it.  Between two points of an inference the type
    of a cell changes by a finite sequence of steps, each of them the
    first assignment of a type, the replacement of the type by its
    [unify_pairs] with an added type (both by [add_type]), or the
    replacement of the type by a lock target it converts to (by [lock]);
    a defined cell never becomes undefined and a locked cell never
    changes.  One [add_type] alone yields the old type or one join of it.
    Across the passes of the network only [add_type] steps occur, no
    cell is dropped, and the state token never shrinks. *)
Theorem cells_grow_monotonically (ctx : Context)
    (nec : string -> list FmtArg -> exn -> exn) (depth : nat)
    (st : TypeInferer) (p q : nat) (Hpq : p <= q) :
  (forall ops tv,
      rtc (cell_step ctx) (tv_type tv) (tv_type (run_ops ctx ops tv))
      /\ (tv_locked tv = true -> run_ops ctx ops tv = tv)
      /\ (tv_type tv <> None -> tv_type (run_ops ctx ops tv) <> None))
  /\ (forall tv T loc,
        one_join ctx (tv_type tv)
          (tv_type (TypeVar_add_type ctx tv T loc).2))
  /\ (forall name tv,
        typevars (after_passes ctx nec depth p st) !! name = Some tv ->
        exists tv',
          typevars (after_passes ctx nec depth q st) !! name = Some tv'
          /\ rtc (add_step ctx) (tv_type tv) (tv_type tv')
          /\ (tv_locked tv = true -> tv' = tv)
          /\ (tv_type tv <> None -> tv_type tv' <> None))
  /\ length (TypeInferer_get_state_token (after_passes ctx nec depth p st))
     <= length
          (TypeInferer_get_state_token (after_passes ctx nec depth q st)).
Proof.
  pose proof (after_passes_le ctx nec depth p q st Hpq) as Hle.
  split; [|split; [|split]].
  - intros ops tv. destruct (run_ops_history ctx ops tv) as [Hrtc Hlock].
    split; [done|]. split; [done|]. by apply (cell_step_defined ctx).
  - apply add_type_one_join.
  - intros name tv Htv. destruct (Hle _ _ Htv) as (tv' & Htv' & Hrtc & Hl).
    exists tv'. split; [done|]. split; [done|]. split; [done|].
    by apply (add_step_defined ctx).
  - rewrite !token_length. by eapply store_le_size.
Qed.

Lemma cells_grow_monotonically_witness :
  0 <= 2
  /\ length
       (TypeInferer_get_state_token
          (after_passes demo_ctx demo_error_context 50 0 demo_seeded))
     <= length
          (TypeInferer_get_state_token
             (after_passes demo_ctx demo_error_context 50 2 demo_seeded)).
Proof.
  split; [lia|].
  refine (proj2 (proj2 (proj2
    (cells_grow_monotonically demo_ctx demo_error_context 50 demo_seeded
       0 2 _)))).
  lia.
Defined.

(** The property as the specification words it (the later type is
    undefined, the earlier type, or one join of the earlier type) fails
    on a lock over a defined cell, here an [int64] cell locked to
    [float32], and on two successive joins when [unify_pairs] is not
    absorbing. *)
Lemma one_join_fails :
  ~ one_join demo_ctx (tv_type (cell_of "x" int64))
      (tv_type (run_ops demo_ctx [OpLock float32 None] (cell_of "x" int64)))
  /\ ~ one_join chain_ctx (tv_type (cell_of "x" (Scalar "A")))
         (tv_type
            (run_ops chain_ctx
               [OpAddType (Scalar "B") None; OpAddType (Scalar "C") None]
               (cell_of "x" (Scalar "A")))).
Proof.
  split.
  - change (~ one_join demo_ctx (Some int64) (Some float32)).
    intros [H | [H | [X H]]]; [done | done |].
    simpl in H. unfold demo_unify_pairs in H.
    case_bool_decide; [by subst X|].
    destruct X; try done.
    simpl in H. case_bool_decide; done.
  - change (~ one_join chain_ctx (Some (Scalar "A")) (Some (Scalar "E"))).
    intros [H | [H | [X H]]]; [done | done |].
    simpl in H. unfold chain_unify_pairs in H.
    case_bool_decide; [by subst X|].
    destruct X as [n| | | | | | | | | | | |]; try done.
    destruct (decide (n = "B")) as [->|Hn]; [done|].
    simpl in H.
    repeat (match type of H with
            | context [match ?s with _ => _ end] => destruct s
            end; try done).
Qed.

Lemma TypeVar_add_type_cases_witness :
  (TypeVar_add_type demo_ctx
     {| tv_var := "x"; tv_type := Some int64; tv_locked := true;
        tv_define_loc := None |} (Scalar "str") None).1
  = Raise (TypingError (NoConversion (Scalar "str") (Some int64) "x" None)
             None)
  /\ TypeVar_add_type demo_ctx (TypeVar_init "y") float32 (Some (demo_loc 7))
     = (Ret (Some float32),
        {| tv_var := "y"; tv_type := Some float32; tv_locked := false;
           tv_define_loc := Some (demo_loc 7) |})
  /\ TypeVar_add_type demo_ctx (cell_of "z" int64) float32 None
     = (Ret (Some float64), cell_of "z" float64).
Proof.
  split; [|split].
  - destruct (TypeVar_add_type_cases demo_ctx
                {| tv_var := "x"; tv_type := Some int64; tv_locked := true;
                   tv_define_loc := None |} (Scalar "str") None)
      as [H _].
    destruct (H eq_refl) as (_ & H1 & _).
    assert (Some (Scalar "str") <> Some int64) as Hne by discriminate.
    destruct (H1 Hne) as [[_ H2] _]. apply H2. reflexivity.
  - destruct (TypeVar_add_type_cases demo_ctx (TypeVar_init "y") float32
                (Some (demo_loc 7))) as (_ & H & _).
    apply (H eq_refl eq_refl).
  - destruct (TypeVar_add_type_cases demo_ctx (cell_of "z" int64) float32
                None) as (_ & _ & H).
    destruct (H eq_refl int64 eq_refl) as [H1 _].
    apply (H1 float64). reflexivity.
Defined.

(** ** TypeInferer.add_type and the refinement hook *)

Lemma typevars_getitem_eq (name : string) (st : TypeInferer) :
  typevars_getitem name st = (Ret (cell_at st name), touch [name] st).
Proof.
  unfold touch, cell_at, typevars_getitem; simpl.
  by destruct (typevars st !! name).
Qed.

Lemma cell_at_touch1 (name n : string) (st : TypeInferer) :
  cell_at (touch [name] st) n = cell_at st n.
Proof.
  unfold touch, cell_at, typevars_getitem; simpl.
  destruct (typevars st !! name) eqn:Hl; [done|]. simpl.
  destruct (decide (name = n)) as [->|Hne].
  - by rewrite lookup_insert_eq, Hl.
  - by rewrite lookup_insert_ne.
Qed.

Lemma cell_at_touch (names : list string) (n : string) (st : TypeInferer) :
  cell_at (touch names st) n = cell_at st n.
Proof.
  revert st. induction names as [|m names IH]; intros st; [done|].
  change (touch (m :: names) st) with (touch names (touch [m] st)).
  by rewrite IH, cell_at_touch1.
Qed.

Lemma touch_app (xs ys : list string) (st : TypeInferer) :
  touch (xs ++ ys) st = touch ys (touch xs st).
Proof. unfold touch. by rewrite fold_left_app. Qed.

Lemma update_after_touch (var : string) (tv : TypeVar) (st : TypeInferer) :
  set_typevars (insert var tv) (touch [var] st)
  = set_typevars (insert var tv) st.
Proof.
  unfold touch, typevars_getitem; simpl.
  destruct (typevars st !! var); [done|].
  unfold set_typevars; simpl. by rewrite insert_insert_eq.
Qed.

Lemma touch_locked (var : string) (st : TypeInferer) :
  tv_locked (cell_at st var) = true -> touch [var] st = st.
Proof.
  unfold touch, cell_at, typevars_getitem; simpl.
  by destruct (typevars st !! var).
Qed.

(** [TypeInferer.add_type] in terms of the cell it finds. *)
Lemma TypeInferer_add_type_unfold (ctx : Context) (d : nat) (v : string)
    (T : type) (loc : option Loc) (ul : bool) (s : TypeInferer) :
  let tv := cell_at s v in
  let s1 := set_typevars (insert v (TypeVar_add_type ctx tv T loc).2) s in
  TypeInferer_add_type ctx d v T loc ul s
  = if ul && tv_locked tv then (Ret tt, touch [v] s)
    else
      match (TypeVar_add_type ctx tv T loc).1 with
      | Raise e => (Raise e, s1)
      | Ret u =>
          if bool_decide (u <> tv_type tv) then
            match u with
            | Some u' => TypeInferer_propagate_refined_type ctx d v u' s1
            | None => (Ret tt, s1)
            end
          else (Ret tt, s1)
      end.
Proof.
  intros tv s1. subst s1.
  unfold TypeInferer_add_type, TypeInferer_add_type_with, bind.
  rewrite typevars_getitem_eq. fold tv.
  destruct (ul && tv_locked tv); [done|].
  destruct (TypeVar_add_type ctx tv T loc) as [r' tv'].
  unfold bind, typevar_update, lift.
  rewrite update_after_touch. simpl.
  destruct r' as [u|e]; [|done].
  case_bool_decide; [|done]. by destruct u.
Qed.

(** C5.  [TypeInferer.add_type(var, T, loc, unless_locked)] does nothing
    when [unless_locked] is set and the cell is locked.  Otherwise it adds
    [T] to the cell; an exception of the cell is passed on; when the
    resulting type is the type before the call nothing more happens, and
    when it differs [propagate_refined_type(var, new_type)] is run on the
    updated store.  [propagate_refined_type] calls [refine] on the
    constraint registered in [refine_map[var]] if there is one, and
    [Propagate.refine(T)] leaves a locked source as it is and adds [T] to
    an unlocked one. *)
Theorem TypeInferer_add_type_cases (ctx : Context) (depth : nat)
    (var : string) (T : type) (loc : option Loc) (unless_locked : bool)
    (st : TypeInferer) :
  let tv := cell_at st var in
  let r := (TypeVar_add_type ctx tv T loc).1 in
  let st1 :=
    set_typevars (insert var (TypeVar_add_type ctx tv T loc).2) st in
  (unless_locked = true -> tv_locked tv = true ->
     TypeInferer_add_type ctx depth var T loc unless_locked st
     = (Ret tt, st))
  /\ (unless_locked = false \/ tv_locked tv = false ->
      (forall e, r = Raise e ->
         TypeInferer_add_type ctx depth var T loc unless_locked st
         = (Raise e, st1))
      /\ (r = Ret (tv_type tv) ->
          TypeInferer_add_type ctx depth var T loc unless_locked st
          = (Ret tt, st1))
      /\ (forall u, r = Ret (Some u) -> Some u <> tv_type tv ->
          TypeInferer_add_type ctx depth var T loc unless_locked st
          = TypeInferer_propagate_refined_type ctx depth var u st1)
      /\ (forall o, r = Ret o -> o <> tv_type tv -> exists u, o = Some u))
  /\ (forall u s,
        TypeInferer_propagate_refined_type ctx depth var u s
        = match refine_map s !! var with
          | Some source_constraint => refine ctx depth source_constraint u s
          | None => (Ret tt, s)
          end)
  /\ (forall d dst src ploc s,
        (tv_locked (cell_at s src) = true ->
           refine ctx (S d) (Propagate dst src ploc) T s = (Ret tt, s))
        /\ (tv_locked (cell_at s src) = false ->
            refine ctx (S d) (Propagate dst src ploc) T s
            = TypeInferer_add_type ctx d src T (Some ploc) false s)).
Proof.
  intros tv r st1.
  split; [|split; [|split]].
  - intros -> Hl. rewrite TypeInferer_add_type_unfold.
    rewrite (touch_locked var st Hl). fold tv. by rewrite Hl.
  - intros Hor. rewrite TypeInferer_add_type_unfold. fold tv r st1.
    assert (unless_locked && tv_locked tv = false) as ->.
    { destruct Hor as [-> | ->]; [done | apply andb_false_r]. }
    split; [|split; [|split]].
    + by intros e ->.
    + intros ->. by rewrite bool_decide_false by (by intros ?).
    + intros u -> Hne. by rewrite bool_decide_true.
    + intros o Ho Hne.
      destruct (TypeVar_add_type_returns ctx tv T loc o Ho) as [_ Hsome].
      destruct o as [u|]; [by exists u | by destruct (Hsome Hne)].
  - done.
  - intros d dst src ploc s.
    assert (refine ctx (S d) (Propagate dst src ploc) T s
            = TypeInferer_add_type ctx d src T (Some ploc) true s) as ->
      by reflexivity.
    rewrite !TypeInferer_add_type_unfold.
    split; intros Hl; rewrite Hl; [|done].
    by rewrite (touch_locked src s Hl).
Qed.

(** ** The constraints that read one set of candidates *)

Lemma map_M_get (items : list string) (st : TypeInferer) :
  map_M (fun i => tv <- typevars_getitem i ;; ret (TypeVar_get tv))%method
    items st
  = (Ret (map (fun i => TypeVar_get (cell_at st i)) items), touch items st).
Proof.
  revert st. induction items as [|i items IH]; intros st; [done|].
  simpl. unfold bind at 1. unfold bind at 1.
  rewrite typevars_getitem_eq. unfold ret at 1.
  unfold bind at 1. rewrite IH. unfold ret.
  f_equal. f_equal. f_equal.
  apply map_ext. intros j. by rewrite cell_at_touch1.
Qed.

Lemma for_each_one {A} (x : A) (body : A -> M unit) (st : TypeInferer) :
  for_each [x] body st = body x st.
Proof.
  simpl. unfold bind, ret. by destruct (body x st) as [[[]|e] st'].
Qed.

Lemma error_context_ext {A} nec fmt fargs (m1 m2 : M A) (st : TypeInferer) :
  m1 st = m2 st ->
  with_error_context nec fmt fargs m1 st
  = with_error_context nec fmt fargs m2 st.
Proof. unfold with_error_context. by intros ->. Qed.

(** The two look-ups that open the constraints with one source. *)
Lemma lookup_target_then (target source : string) {A}
    (k : TypeVar -> M A) (st : TypeInferer) :
  (oset <- typevars_getitem target ;;
   v <- typevars_getitem source ;; k v)%method st
  = k (cell_at st source) (touch [target; source] st).
Proof.
  unfold bind at 1. rewrite typevars_getitem_eq.
  unfold bind at 1. rewrite typevars_getitem_eq.
  by rewrite cell_at_touch1.
Qed.

(** C6, as the code has it.  When fired, [BuildTupleConstraint] iterates
    over the Cartesian product of the type sets of its items and adds one
    tuple type to the target for each combination: [UniTuple(t, n)] when
    the combination has at least one element and its [n] elements all
    equal [t], and [Tuple] of the combination otherwise, which includes
    the combination of zero items. *)
Theorem BuildTupleConstraint_fires (ctx : Context)
    (nec : string -> list FmtArg -> exn -> exn) (depth : nat)
    (target : string) (items : list string) (loc : Loc)
    (st : TypeInferer) :
  BuildTupleConstraint_call ctx nec depth target items loc st
  = with_error_context nec "typing of tuple at {0}" [FmtLoc loc]
      (for_each (product (map (fun i => TypeVar_get (cell_at st i)) items))
         (fun vals =>
            TypeInferer_add_type ctx depth target (build_tuple_type vals)
              (Some loc) false))
      (touch (items ++ [target]) st)
  /\ (forall vals,
        (forall t, vals <> [] -> Forall (eq t) vals ->
           build_tuple_type vals = UniTuple t (length vals))
        /\ (vals = [] \/ ~ (exists t, Forall (eq t) vals) ->
            build_tuple_type vals = Tuple vals)).
Proof.
  split.
  - unfold BuildTupleConstraint_call, with_error_context.
    unfold bind at 1. rewrite map_M_get.
    unfold bind at 1. rewrite typevars_getitem_eq.
    by rewrite touch_app.
  - intros vals. split.
    + intros t Hne Hall. destruct vals as [|v0 vals]; [done|].
      unfold build_tuple_type.
      assert (v0 = t) as -> by (by inversion Hall).
      rewrite (proj2 (forallb_forall _ _)); [done|].
      intros v Hv. apply bool_decide_eq_true.
      rewrite Forall_forall in Hall. apply Hall.
      by apply list_elem_of_In.
    + intros [-> | Hno]; [done|].
      destruct vals as [|v0 vals]; [done|].
      unfold build_tuple_type.
      destruct (forallb _ _) eqn:Hall; [|done].
      exfalso. apply Hno. exists v0.
      rewrite Forall_forall. intros v Hv.
      rewrite forallb_forall in Hall.
      apply list_elem_of_In, Hall in Hv.
      by apply bool_decide_eq_true in Hv.
Qed.

(** A tuple of zero items gets the type [Tuple(())], which is no
    [UniTuple]. *)
Lemma empty_tuple_is_Tuple :
  tv_type
    (cell_at
       (BuildTupleConstraint_call demo_ctx demo_error_context 50 "t" []
          (demo_loc 1) (fresh_inferer [] [] [])).2 "t")
  = Some (Tuple [])
  /\ forall t n, Tuple [] <> UniTuple t n.
Proof. split; [by vm_compute | done]. Qed.

(** C7.  When fired, [ExhaustIterConstraint] looks at the candidate type
    [T] of the iterator variable, if it has one.  A [BaseTuple] of length
    [count] is added to the target; a [BaseTuple] of another length makes
    the constraint fail with the wrong-tuple-length error; an
    [IterableType] adds [UniTuple(T.iterator_type.yield_type, count)];
    any other candidate, like no candidate at all, leaves every cell as
    it is and raises nothing. *)
Theorem ExhaustIterConstraint_fires (ctx : Context)
    (nec : string -> list FmtArg -> exn -> exn) (depth : nat)
    (target : string) (count : nat) (iterator : string) (loc : Loc)
    (st : TypeInferer) :
  let st0 := touch [target; iterator] st in
  let fmt := "typing of exhaust iter at {0}" in
  let call := ExhaustIterConstraint_call ctx nec depth target count
                iterator loc st in
  let add := fun tp =>
    with_error_context nec fmt [FmtLoc loc]
      (TypeInferer_add_type ctx depth target tp (Some loc) false) st0 in
  (forall n, cell_at st0 n = cell_at st n)
  /\ match tv_type (cell_at st iterator) with
     | None => call = (Ret tt, st0)
     | Some T =>
         (is_BaseTuple T = true -> tuple_len T = count -> call = add T)
         /\ (is_BaseTuple T = true -> tuple_len T <> count ->
             call
             = (Raise (nec fmt [FmtLoc loc]
                         (ValueError_wrong_tuple_length iterator count
                            (tuple_len T))), st0))
         /\ (is_BaseTuple T = false -> forall name y,
             T = IterableType name y -> call = add (UniTuple y count))
         /\ (is_BaseTuple T = false ->
             (forall name y, T <> IterableType name y) ->
             call = (Ret tt, st0))
     end.
Proof.
  intros st0 fmt call add.
  split; [intros n; apply cell_at_touch|].
  subst call add. unfold ExhaustIterConstraint_call, with_error_context.
  rewrite lookup_target_then. fold st0.
  unfold TypeVar_get.
  destruct (tv_type (cell_at st iterator)) as [T|]; [|reflexivity].
  rewrite for_each_one.
  split; [|split; [|split]].
  - intros -> Hlen. by rewrite bool_decide_true.
  - intros -> Hlen. by rewrite bool_decide_false.
  - intros -> name y ->. done.
  - intros -> Hno. destruct T; try done. by destruct (Hno name T).
Qed.

(** C9.  For a candidate type of the pair variable that is a [Pair],
    [PairFirstConstraint] adds its first and [PairSecondConstraint] its
    second component type to the target; for any other candidate, like
    for no candidate, they leave every cell as it is and raise nothing. *)
Theorem PairConstraints_fire (ctx : Context)
    (nec : string -> list FmtArg -> exn -> exn) (depth : nat)
    (target pair_var : string) (loc : Loc) (st : TypeInferer) :
  let st0 := touch [target; pair_var] st in
  let first := PairFirstConstraint_call ctx nec depth target pair_var
                 loc st in
  let second := PairSecondConstraint_call ctx nec depth target pair_var
                  loc st in
  let add := fun fmt tp =>
    with_error_context nec fmt [FmtLoc loc]
      (TypeInferer_add_type ctx depth target tp (Some loc) false) st0 in
  (forall n, cell_at st0 n = cell_at st n)
  /\ match tv_type (cell_at st pair_var) with
     | None => first = (Ret tt, st0) /\ second = (Ret tt, st0)
     | Some T =>
         (forall a b, T = Pair a b ->
            first = add "typing of pair-first at {0}" a
            /\ second = add "typing of pair-second at {0}" b)
         /\ ((forall a b, T <> Pair a b) ->
             first = (Ret tt, st0) /\ second = (Ret tt, st0))
     end.
Proof.
  intros st0 first second add.
  split; [intros n; apply cell_at_touch|].
  subst first second add.
  unfold PairFirstConstraint_call, PairSecondConstraint_call,
    with_error_context.
  rewrite !lookup_target_then. fold st0.
  unfold TypeVar_get.
  destruct (tv_type (cell_at st pair_var)) as [T|]; [|by split].
  rewrite !for_each_one.
  split.
  - by intros a b ->.
  - intros Hno. destruct T; try done. by destruct (Hno T1 T2).
Qed.

(** ** One pass of the network *)

Section Passes.
Variable ctx : Context.
Variable nec : string -> list FmtArg -> exn -> exn.
Variable depth : nat.

#[local] Abbreviation pass := (ConstraintNetwork_propagate ctx nec depth).

Lemma pass_accumulates (cs : list Constraint) (acc : list exn)
    (st : TypeInferer) :
  fold_left
    (fun (acc : list exn * TypeInferer) constraint =>
       let '(errors, st) := acc in
       let '(r, st') := fire ctx nec depth constraint st in
       (capture constraint r errors, st'))
    cs (acc, st)
  = (acc ++ (pass cs st).1, (pass cs st).2).
Proof.
  unfold ConstraintNetwork_propagate.
  revert acc st. induction cs as [|c cs IH]; intros acc st; simpl.
  - by rewrite app_nil_r.
  - destruct (fire ctx nec depth c st) as [r st1].
    rewrite IH. rewrite (IH (capture c r [])). simpl.
    f_equal. destruct r as [[]|e]; simpl; [done|].
    destruct (is_TypingError e); by rewrite <- app_assoc.
Qed.

Lemma pass_nil (st : TypeInferer) : pass [] st = ([], st).
Proof. done. Qed.

Lemma pass_cons (c : Constraint) (cs : list Constraint) (st : TypeInferer) :
  pass (c :: cs) st
  = let '(r, st1) := fire ctx nec depth c st in
    (capture c r [] ++ (pass cs st1).1, (pass cs st1).2).
Proof.
  unfold ConstraintNetwork_propagate at 1. simpl.
  destruct (fire ctx nec depth c st) as [r st1].
  apply pass_accumulates.
Qed.

Lemma pass_fires (cs : list Constraint) (st : TypeInferer) :
  fires_in_order ctx nec depth cs st (pass cs st).1 (pass cs st).2.
Proof.
  revert st. induction cs as [|c cs IH]; intros st.
  - constructor.
  - rewrite pass_cons.
    destruct (fire ctx nec depth c st) as [[[]|e] st1] eqn:Hf; simpl.
    + by eapply fires_ok.
    + destruct (is_TypingError e) eqn:He; simpl.
      * by eapply fires_typing_error.
      * by eapply fires_other_error.
Qed.

Lemma fires_pass (cs : list Constraint) (st st' : TypeInferer)
    (errs : list exn) :
  fires_in_order ctx nec depth cs st errs st' -> pass cs st = (errs, st').
Proof.
  induction 1 as [st | c cs st st1 errs st2 Hf _ IH
                  | c cs st e st1 errs st2 Hf He _ IH
                  | c cs st e st1 errs st2 Hf He _ IH];
    [done | rewrite pass_cons, Hf, IH; simpl ..].
  - done.
  - by rewrite He.
  - by rewrite He.
Qed.

Lemma pass_errors (cs : list Constraint) (st : TypeInferer) :
  length (pass cs st).1 <= length cs
  /\ Forall (fun e => is_TypingError e = true) (pass cs st).1.
Proof.
  revert st. induction cs as [|c cs IH]; intros st.
  - split; [done | constructor].
  - rewrite pass_cons.
    destruct (fire ctx nec depth c st) as [r st1]. simpl.
    destruct (IH st1) as [Hlen Hall].
    rewrite length_app. split.
    + destruct r as [[]|e]; simpl; [lia|].
      destruct (is_TypingError e); simpl; lia.
    + apply Forall_app. split; [|done].
      destruct r as [[]|e]; simpl; [constructor|].
      destruct (is_TypingError e) eqn:He; by repeat constructor.
Qed.
End Passes.

(** C8.  [ConstraintNetwork.propagate] fires every constraint exactly
    once per pass, in insertion order, and returns the list of the
    captured errors: a typing error raised by a constraint is appended as
    it is, any other exception is appended wrapped into a typing error
    that carries the constraint, its location and the trace of the
    exception; in both cases the next constraint fires on the store the
    failed one left.  Nothing is raised by the pass itself, and every
    returned error is a typing error. *)
Theorem ConstraintNetwork_propagate_fires_in_order (ctx : Context)
    (nec : string -> list FmtArg -> exn -> exn) (depth : nat)
    (cs : list Constraint) (st : TypeInferer) :
  (forall errs st',
      ConstraintNetwork_propagate ctx nec depth cs st = (errs, st')
      <-> fires_in_order ctx nec depth cs st errs st')
  /\ length (ConstraintNetwork_propagate ctx nec depth cs st).1 <= length cs
  /\ Forall (fun e => is_TypingError e = true)
       (ConstraintNetwork_propagate ctx nec depth cs st).1.
Proof.
  split; [|apply pass_errors].
  intros errs st'. split.
  - intros H. pose proof (pass_fires ctx nec depth cs st) as Hf.
    by rewrite H in Hf.
  - apply fires_pass.
Qed.

(** ** The fixed-point phase *)

Section FixedPoint.
Variable ctx : Context.
Variable nec : string -> list FmtArg -> exn -> exn.
Variable depth : nat.

#[local] Abbreviation token := TypeInferer_get_state_token.

(** The loop once the first pass is behind it. *)
Lemma propagate_loop_after_pass (fuel : nat) (old : list (option type))
    (errors : list exn) (st : TypeInferer) :
  propagate_loop ctx nec depth fuel (token st) (Some old) (Some errors) st
  = if bool_decide (token st = old) then Some (first_error errors, st)
    else
      match fuel with
      | 0 => None
      | S fuel' =>
          let '(errors', st') :=
            ConstraintNetwork_propagate ctx nec depth (constraints st) st in
          propagate_loop ctx nec depth fuel' (token st') (Some (token st))
            (Some errors') st'
      end.
Proof.
  destruct fuel as [|fuel']; simpl.
  - case_bool_decide as H1; case_bool_decide as H2; try done.
    + destruct H1. by rewrite H2.
    + by destruct errors.
    + congruence.
  - case_bool_decide as H1; case_bool_decide as H2; try done.
    + destruct H1. by rewrite H2.
    + by destruct errors.
    + congruence.
Qed.

Lemma propagate_first_pass (fuel : nat) (st : TypeInferer) :
  TypeInferer_propagate ctx nec depth (S fuel) st
  = let '(errors, st') :=
      ConstraintNetwork_propagate ctx nec depth (constraints st) st in
    propagate_loop ctx nec depth fuel (token st') (Some (token st))
      (Some errors) st'.
Proof. reflexivity. Qed.

Lemma propagate_no_fuel (st : TypeInferer) :
  TypeInferer_propagate ctx nec depth 0 st = None.
Proof. reflexivity. Qed.

Lemma propagate_reaches (fuel : nat) (st : TypeInferer)
    (res : Outcome unit * TypeInferer) :
  TypeInferer_propagate ctx nec depth fuel st = Some res ->
  reaches_fixpoint ctx nec depth st res.
Proof.
  destruct fuel as [|fuel]; [by rewrite propagate_no_fuel|].
  rewrite propagate_first_pass.
  revert st. induction fuel as [|fuel IH]; intros st;
    destruct (ConstraintNetwork_propagate ctx nec depth (constraints st) st)
      as [errors st1] eqn:Hp;
    rewrite propagate_loop_after_pass;
    case_bool_decide as Htok; try done.
  - intros [= <-]. by eapply fixpoint_now.
  - intros [= <-]. by eapply fixpoint_now.
  - intros Hloop. eapply fixpoint_later; [done | done |].
    by apply IH.
Qed.

Lemma reaches_propagate (st : TypeInferer)
    (res : Outcome unit * TypeInferer) :
  reaches_fixpoint ctx nec depth st res ->
  exists fuel, TypeInferer_propagate ctx nec depth fuel st = Some res.
Proof.
  induction 1 as [st errors st1 Hp Htok
                 | st errors st1 res Hp Htok _ [fuel IH]].
  - exists 1. rewrite propagate_first_pass, Hp.
    rewrite propagate_loop_after_pass. by rewrite bool_decide_true.
  - destruct fuel as [|fuel]; [by rewrite propagate_no_fuel in IH|].
    exists (S (S fuel)). rewrite propagate_first_pass, Hp.
    rewrite propagate_loop_after_pass, bool_decide_false by done.
    by rewrite <- propagate_first_pass.
Qed.
End FixedPoint.

(** The items of the token come in the order of the names, and they are
    the items of the map. *)
Lemma sorted_items_sorted (m : gmap string TypeVar) :
  Sorted item_le (sorted_items m) /\ sorted_items m ≡ₚ map_to_list m.
Proof.
  split; [|apply merge_sort_Permutation].
  apply Sorted_merge_sort.
  intros a b. unfold item_le. apply (total String.le).
Qed.

Lemma sorted_items_names (l : list (string * TypeVar)) :
  Sorted item_le l -> Sorted String.le (map fst l).
Proof.
  induction 1 as [|a l _ IH Hhd]; simpl; [constructor|].
  constructor; [done|]. destruct Hhd; simpl; by constructor.
Qed.

(** Across stores that only grow, two tokens are equal exactly when the
    (name, type) pairs are: a new cell makes the token longer. *)
Lemma named_token_zip (st : TypeInferer) :
  named_token st
  = zip (map fst (sorted_items (typevars st))) (TypeInferer_get_state_token st).
Proof.
  unfold named_token, TypeInferer_get_state_token.
  induction (sorted_items (typevars st)) as [|[n tv] l IH]; simpl; [done|].
  by rewrite IH.
Qed.

Lemma sorted_names_of_dom (m1 m2 : gmap string TypeVar) :
  dom m1 = dom m2 ->
  map fst (sorted_items m1) = map fst (sorted_items m2).
Proof.
  intros Hdom.
  apply (Sorted_unique String.le).
  - apply sorted_items_names, sorted_items_sorted.
  - apply sorted_items_names, sorted_items_sorted.
  - unfold sorted_items. rewrite !merge_sort_Permutation.
    apply NoDup_Permutation; try apply NoDup_fst_map_to_list.
    intros n. rewrite !list_elem_of_fmap.
    split; intros [[k v] [-> Hin]]; simpl.
    + apply elem_of_map_to_list in Hin.
      assert (k ∈ dom m2) as [v' Hv']%elem_of_dom
        by (rewrite <- Hdom; apply elem_of_dom; eauto).
      exists (k, v'). split; [done|]. by apply elem_of_map_to_list.
    + apply elem_of_map_to_list in Hin.
      assert (k ∈ dom m1) as [v' Hv']%elem_of_dom
        by (rewrite Hdom; apply elem_of_dom; eauto).
      exists (k, v'). split; [done|]. by apply elem_of_map_to_list.
Qed.

Lemma store_le_dom ctx (s s' : TypeInferer) :
  store_le ctx s s' -> dom (typevars s) ⊆ dom (typevars s').
Proof.
  intros Hle name [tv Htv]%elem_of_dom.
  destruct (Hle _ _ Htv) as (tv' & Htv' & _).
  apply elem_of_dom. by exists tv'.
Qed.

Lemma token_eq_named ctx (s s' : TypeInferer) :
  store_le ctx s s' ->
  TypeInferer_get_state_token s' = TypeInferer_get_state_token s
  <-> named_token s' = named_token s.
Proof.
  intros Hle. split.
  - intros Htok. rewrite !named_token_zip, Htok. f_equal.
    apply sorted_names_of_dom. symmetry.
    apply set_subseteq_size_eq; [by eapply store_le_dom|].
    rewrite !size_dom. rewrite <- !token_length. by rewrite Htok.
  - intros Hn. unfold TypeInferer_get_state_token.
    assert (forall st,
              map (fun item : string * TypeVar => tv_type item.2)
                (sorted_items (typevars st))
              = map snd (named_token st)) as H.
    { intros st. unfold named_token. by rewrite map_map. }
    by rewrite !H, Hn.
Qed.

(** C2, as the code has it.  The state token of
    [TypeInferer.propagate] is the sequence of the current types of the
    cells, in the order of the variable names; the names themselves are
    not part of it, although across one pass two tokens are equal exactly
    when the (name, type) pairs are.  The method saves the token, runs
    one pass of the constraint network and computes the token again,
    until two consecutive tokens are equal; at least one pass is run.
    When the loop ends, the first error of the last pass is raised if and only if
    that pass returned errors; the errors of the earlier passes are
    dropped. *)
Theorem TypeInferer_propagate_fixpoint (ctx : Context)
    (nec : string -> list FmtArg -> exn -> exn) (depth : nat)
    (st : TypeInferer) :
  TypeInferer_get_state_token st = map snd (named_token st)
  /\ Sorted String.le (map fst (named_token st))
  /\ named_token st
     ≡ₚ map (fun item => (item.1, tv_type item.2))
          (map_to_list (typevars st))
  /\ (let st1 :=
        (ConstraintNetwork_propagate ctx nec depth (constraints st) st).2 in
      TypeInferer_get_state_token st1 = TypeInferer_get_state_token st
      <-> named_token st1 = named_token st)
  /\ (forall res,
        (exists fuel, TypeInferer_propagate ctx nec depth fuel st = Some res)
        <-> reaches_fixpoint ctx nec depth st res).
Proof.
  destruct (sorted_items_sorted (typevars st)) as [Hs Hp].
  split; [|split; [|split; [|split]]].
  - unfold TypeInferer_get_state_token, named_token.
    by rewrite map_map.
  - unfold named_token. rewrite map_map. simpl.
    by apply sorted_items_names.
  - unfold named_token. by rewrite Hp.
  - apply (token_eq_named ctx). apply ConstraintNetwork_propagate_le.
  - intros res. split.
    + intros [fuel H]. by eapply propagate_reaches.
    + apply reaches_propagate.
Qed.

(** Two stores with one [int64] cell each, under different names: the
    tokens are equal although the (name, type) pairs differ. *)
Lemma token_has_no_names :
  let sx := set_typevars (insert "x" (cell_of "x" int64))
              (fresh_inferer [] [] []) in
  let sy := set_typevars (insert "y" (cell_of "y" int64))
              (fresh_inferer [] [] []) in
  TypeInferer_get_state_token sx = TypeInferer_get_state_token sy
  /\ named_token sx <> named_token sy.
Proof. split; [by vm_compute | by vm_compute]. Qed.

(** ** CallConstraint.resolve: the stored signature *)

Lemma refine_return_type_eq (ctx : Context) (target : string)
    (sig : Signature) (st : TypeInferer) :
  refine_return_type ctx target sig st
  = if is_precise ctx (return_type sig) then (Ret sig, st)
    else
      (Ret match tv_type (cell_at st target) with
           | Some targetty =>
               if bool_decide
                    (unify_pairs ctx targetty (return_type sig)
                     = Some targetty)
               then with_return_type sig targetty
               else sig
           | None => sig
           end,
       touch [target] st).
Proof.
  unfold refine_return_type.
  destruct (is_precise ctx (return_type sig)); [done|]. simpl.
  unfold bind. rewrite typevars_getitem_eq.
  destruct (tv_type (cell_at st target)) as [targetty|]; [|done].
  by case_bool_decide.
Qed.

(** C4.  In [CallConstraint.resolve], once the call has been resolved to
    a signature, its return type added to the target and the receiver
    refinement done, the signature is stored: with its return type
    rewritten to the type of the target when the return type is not
    precise and the target's cell is defined with a type that absorbs it
    ([unify_pairs(target_type, return_type)] is [target_type]), and with
    its original return type in every other case. *)
Theorem CallConstraint_resolve_stores (ctx : Context) (depth : nat)
    (id : nat) (target func : string) (args : list string)
    (kws : list (string * string)) (vararg : option string) (loc : Loc)
    (fnty : callee) (st st1 st2 st3 st4 : TypeInferer)
    (pos_args : list type) (kw_args : list (string * type))
    (sig : Signature) :
  truthy fnty = true ->
  fold_arg_vars args vararg kws st = (Ret (Some (pos_args, kw_args)), st1) ->
  TypeInferer_resolve_call ctx fnty pos_args kw_args st1
  = (Ret (Some sig), st2) ->
  TypeInferer_add_type ctx depth target (return_type sig) (Some loc) false
    st2 = (Ret tt, st3) ->
  refine_receiver ctx depth func fnty sig st3 = (Ret tt, st4) ->
  let result :=
    CallConstraint_resolve ctx depth id target func args kws vararg loc
      fnty st in
  let stored := signatures result.2 !! id in
  result.1 = Ret tt
  /\ (forall targetty,
        is_precise ctx (return_type sig) = false ->
        tv_type (cell_at st4 target) = Some targetty ->
        unify_pairs ctx targetty (return_type sig) = Some targetty ->
        stored = Some (Some (with_return_type sig targetty)))
  /\ (is_precise ctx (return_type sig) = true
      \/ tv_type (cell_at st4 target) = None
      \/ (exists targetty,
            tv_type (cell_at st4 target) = Some targetty
            /\ unify_pairs ctx targetty (return_type sig)
               <> Some targetty) ->
      stored = Some (Some sig)).
Proof.
  intros Htruthy Hfold Hres Hadd Hrecv result stored.
  subst stored result. unfold CallConstraint_resolve, bind.
  rewrite Htruthy. cbn [negb]. cbv iota.
  rewrite Hfold, Hres, Hadd, Hrecv, refine_return_type_eq.
  destruct (is_precise ctx (return_type sig)) eqn:Hprec.
  - simpl. rewrite lookup_insert_eq.
    split; [done|]. split; [done|]. done.
  - simpl. rewrite lookup_insert_eq.
    split; [done|]. split.
    + intros targetty _ -> Hu. by rewrite bool_decide_true.
    + intros [? | [-> | (targetty & -> & Hu)]]; [done | done |].
      by rewrite bool_decide_false.
Qed.

(** ** PrintConstraint *)


Section RaisesOnly.
Variable P : exn -> Prop.

Lemma raises_only_ret {A} (a : A) : raises_only P (ret a).
Proof. by intros st e st'. Qed.

Lemma raises_only_raise {A} (e : exn) : P e -> raises_only P (@raise A e).
Proof. by intros He st e' st' [= <- _]. Qed.

Lemma raises_only_bind {A B} (m : M A) (k : A -> M B) :
  raises_only P m -> (forall a, raises_only P (k a)) ->
  raises_only P (bind m k).
Proof.
  intros Hm Hk st e st'. unfold bind.
  destruct (m st) as [[a|e0] st1] eqn:Hst.
  - apply Hk.
  - intros [= <- _]. by eapply Hm.
Qed.

Lemma raises_only_getitem name : raises_only P (typevars_getitem name).
Proof. intros st e st'. by rewrite typevars_getitem_eq. Qed.

Lemma raises_only_map_M {A B} (f : A -> M B) (xs : list A) :
  (forall x, raises_only P (f x)) -> raises_only P (map_M f xs).
Proof.
  intros Hf. induction xs as [|x xs IH]; simpl.
  - apply raises_only_ret.
  - apply raises_only_bind; [auto|]. intros y.
    apply raises_only_bind; [auto|]. intros ys. apply raises_only_ret.
Qed.

Lemma raises_only_set_signature id sig :
  raises_only P (set_signature id sig).
Proof. by intros st e st'. Qed.
End RaisesOnly.

Lemma fold_arg_vars_no_invalid_call args vararg kws :
  raises_only (fun e => is_invalid_call e = false)
    (fold_arg_vars args vararg kws).
Proof.
  unfold fold_arg_vars.
  repeat first
    [ apply raises_only_ret
    | by apply raises_only_raise
    | apply raises_only_getitem
    | apply raises_only_map_M; intros ?
    | apply raises_only_bind; [|intros ?]
    | match goal with
      | |- raises_only _ (match ?x with _ => _ end) => destruct x
      end ].
Qed.

Lemma resolve_call_no_invalid_call ctx fnty pos kw :
  raises_only (fun e => is_invalid_call e = false)
    (TypeInferer_resolve_call ctx fnty pos kw).
Proof.
  unfold TypeInferer_resolve_call, TypeInferer_unify_return_types.
  destruct fnty as [fnty|op]; [|apply raises_only_ret].
  destruct fnty; try apply raises_only_ret.
  destruct fnty; try by apply raises_only_raise.
  destruct (fold_argument_types _ _ _ _) as [pysig args0].
  apply raises_only_bind.
  - destruct (frame_is_self _); [|apply raises_only_ret].
    assert (forall rv,
              raises_only (fun e => is_invalid_call e = false)
                (bind (map_M typevars_getitem rv)
                   (fun tvs => ret (map tv_type tvs)))) as Hrv.
    { intros rv. apply raises_only_bind; [|intros ?; apply raises_only_ret].
      apply raises_only_map_M. intros ?. apply raises_only_getitem. }
    intros st. apply Hrv.
  - intros cells.
    repeat first
      [ apply raises_only_ret
      | by apply raises_only_raise
      | apply raises_only_bind; [|intros ?]
      | match goal with
        | |- raises_only _ (match ?x with _ => _ end) => destruct x
        end ].
Qed.

Lemma map_M_getitem (names : list string) (st : TypeInferer) :
  map_M typevars_getitem names st
  = (Ret (map (cell_at st) names), touch names st).
Proof.
  revert st. induction names as [|n names IH]; intros st; [done|].
  simpl. unfold bind at 1. rewrite typevars_getitem_eq.
  unfold bind at 1. rewrite IH. unfold ret.
  f_equal. f_equal. f_equal.
  apply map_ext. intros j. by rewrite cell_at_touch1.
Qed.

(** Without [*args], the fold succeeds as soon as every argument cell is
    defined, and yields the types of the cells. *)
Lemma fold_arg_vars_defined (args : list string) (st : TypeInferer) :
  Forall (fun a => tv_type (cell_at st a) <> None) args ->
  fold_arg_vars args None [] st
  = (Ret (Some (omap (fun a => tv_type (cell_at st a)) args, [])),
     touch args st).
Proof.
  intros Hall. unfold fold_arg_vars.
  unfold bind at 1. rewrite map_M_getitem.
  simpl. unfold bind, ret. rewrite app_nil_r.
  rewrite (proj2 (forallb_forall _ _)).
  - simpl. do 3 f_equal.
    assert (omap tv_type (map (cell_at st) args)
            = omap (fun a => tv_type (cell_at st a)) args) as ->.
    { clear Hall. induction args as [|a args IH]; csimpl; [done|].
      by rewrite IH. }
    f_equal. apply take_ge.
    clear Hall. induction args as [|a args IH]; csimpl; [done|].
    destruct (tv_type (cell_at st a)); simpl; lia.
  - intros tv [a [<- Ha]]%in_map_iff.
    apply bool_decide_eq_true.
    rewrite Forall_forall in Hall. apply Hall. by apply list_elem_of_In.
Qed.

(** The entry that [get_function_types] leaves for a call. *)
Lemma get_function_types_entry (cs : list (nat * Constraint))
    (st0 st st' : TypeInferer) pre call c post :
  signatures st = signatures st0 ->
  for_each cs (fun '(call, constraint) =>
      sig <- get_call_signature constraint ;;
      fun s => (Ret tt, set_calltypes (insert call sig) s))%method st
  = (Ret tt, st') ->
  cs = pre ++ (call, c) :: post ->
  call ∉ map fst post ->
  exists sig, get_call_signature c st0 = (Ret sig, st0)
              /\ calltypes st' !! call = Some sig.
Proof.
  revert st pre. induction cs as [|[call0 c0] cs IH]; intros st pre Hsig.
  - intros _ Hcs. by destruct pre.
  - simpl. unfold bind at 1. unfold bind at 1.
    assert (forall s, signatures s = signatures st0 ->
              (get_call_signature c0 s).2 = s
              /\ (get_call_signature c0 s).1
                 = (get_call_signature c0 st0).1) as Hget.
    { intros s Hs. unfold get_call_signature. rewrite Hs.
      destruct c0; simpl; try done;
        repeat match goal with
               | |- context [match ?x with _ => _ end] => destruct x
               end; done. }
    destruct (Hget st Hsig) as [Hst Hr].
    destruct (get_call_signature c0 st) as [[sig0|e] s1] eqn:Hg;
      simpl in Hst, Hr; subst s1; [|done].
    intros Hrest Hcs Hnotin.
    destruct pre as [|p0 pre]; simpl in Hcs.
    + injection Hcs as ? ? ?; subst call0 c0 cs.
      exists sig0. split.
      { destruct (Hget st0 eq_refl) as [Hst0 _].
        destruct (get_call_signature c st0) as [r0 s0]; simpl in *.
        by subst. }
      clear IH Hget Hg Hr.
      assert (calltypes (set_calltypes (insert call sig0) st) !! call
              = Some sig0) as Hnow by (simpl; apply lookup_insert_eq).
      revert Hrest Hnow Hnotin.
      generalize (set_calltypes (insert call sig0) st).
      induction post as [|[call1 c1] post IHp]; intros s.
      * by intros [= <-].
      * simpl. unfold bind at 1. unfold bind at 1.
        destruct (get_call_signature c1 s) as [[sig1|e1] s1] eqn:Hg1;
          [|done].
        assert (s1 = s) as ->.
        { unfold get_call_signature in Hg1.
          destruct c1; simpl in Hg1;
            repeat match type of Hg1 with
                   | context [match ?x with _ => _ end] => destruct x
                   end; congruence. }
        intros Hrest Hnow Hnotin.
        apply (IHp _ Hrest).
        -- simpl. rewrite lookup_insert_ne; [done|].
           intros ->. apply Hnotin. simpl. left.
        -- intros Hin. apply Hnotin. simpl. by right.
    + injection Hcs as ? ?; subst p0 cs.
      by eapply (IH (set_calltypes (insert call0 sig0) st) pre).
Qed.

(** C10.  [PrintConstraint] never raises the invalid-call error of
    [CallConstraint].  Once the arguments are folded, which happens as
    soon as all argument cells are defined (and [*args], if present,
    holds a tuple), it stores whatever [resolve_call] returns as its
    signature, [None] included, and [get_function_types] copies the
    stored value into [calltypes] as it is, so the entry of the call may
    be [None]. *)
Theorem PrintConstraint_stores_any_signature (ctx : Context)
    (nec : string -> list FmtArg -> exn -> exn) (depth : nat) (id : nat)
    (args : list string) (vararg : option string) (loc : Loc)
    (st : TypeInferer) :
  let print_constraint := PrintConstraint id args vararg loc in
  (forall e st',
      fire ctx nec depth print_constraint st = (Raise e, st') ->
      is_invalid_call e = false)
  /\ (forall pos_args kw_args st1 fnty sig st2,
        fold_arg_vars args vararg [] st
        = (Ret (Some (pos_args, kw_args)), st1) ->
        resolve_value_type ctx py_print = Some fnty ->
        TypeInferer_resolve_call ctx (FnType fnty) pos_args kw_args st1
        = (Ret sig, st2) ->
        fire ctx nec depth print_constraint st
        = (Ret tt, set_signatures (insert id sig) st2))
  /\ (vararg = None ->
      Forall (fun a => tv_type (cell_at st a) <> None) args ->
      fold_arg_vars args vararg [] st
      = (Ret (Some (omap (fun a => tv_type (cell_at st a)) args, [])),
         touch args st))
  /\ (forall m st' pre call post,
        TypeInferer_get_function_types st = (Ret m, st') ->
        calls st = pre ++ (call, print_constraint) :: post ->
        call ∉ map fst post ->
        exists sig, signatures st !! id = Some sig /\ m !! call = Some sig).
Proof.
  intros print_constraint. subst print_constraint. simpl fire.
  split; [|split; [|split]].
  - unfold PrintConstraint_call.
    apply raises_only_bind; [apply fold_arg_vars_no_invalid_call|].
    intros [[pos kw]|]; [|apply raises_only_ret].
    destruct (resolve_value_type ctx py_print);
      [|by apply raises_only_raise].
    apply raises_only_bind; [apply resolve_call_no_invalid_call|].
    intros sig. apply raises_only_set_signature.
  - intros pos kw st1 fnty sig st2 Hfold Hprint Hres.
    unfold PrintConstraint_call, bind. by rewrite Hfold, Hprint, Hres.
  - intros -> Hall. by apply fold_arg_vars_defined.
  - intros m st' pre call post Hget Hcalls Hnotin.
    unfold TypeInferer_get_function_types in Hget.
    unfold bind at 1 in Hget.
    match type of Hget with
    | context [for_each ?cs ?body st] =>
        destruct (for_each cs body st) as [[[]|e] s1] eqn:Hloop
    end; [|done].
    injection Hget as <- <-.
    destruct (get_function_types_entry (calls st) st st s1 pre call
                (PrintConstraint id args vararg loc) post eq_refl Hloop
                Hcalls Hnotin) as (sig & Hsig & Hentry).
    exists sig. split; [|done].
    unfold get_call_signature in Hsig.
    destruct (signatures st !! id); congruence.
Qed.

(** ** The properties on concrete programs *)

Lemma CallConstraint_resolve_stores_witness :
  signatures
    (CallConstraint_resolve demo_ctx 50 0 "s" "set_fn" [] [] None
       (demo_loc 1) (FnType (Scalar "set")) set_store).2 !! 0
  = Some (Some set_signature_int64).
Proof.
  pose proof (CallConstraint_resolve_stores demo_ctx 50 0 "s" "set_fn" [] []
                None (demo_loc 1) (FnType (Scalar "set"))
                set_store set_store set_store set_store set_store [] []
                {| return_type := SetType undefined; args := [];
                   recvr := None; pysig := None |}) as H.
  assert (truthy (FnType (Scalar "set")) = true) as H1 by reflexivity.
  assert (fold_arg_vars [] None [] set_store
          = (Ret (Some ([], [])), set_store)) as H2 by reflexivity.
  assert (TypeInferer_resolve_call demo_ctx (FnType (Scalar "set")) [] []
            set_store
          = (Ret (Some {| return_type := SetType undefined; args := [];
                          recvr := None; pysig := None |}), set_store))
    as H3 by reflexivity.
  assert (TypeInferer_add_type demo_ctx 50 "s" (SetType undefined)
            (Some (demo_loc 1)) false set_store = (Ret tt, set_store))
    as H4 by (vm_compute; reflexivity).
  assert (refine_receiver demo_ctx 50 "set_fn" (FnType (Scalar "set"))
            {| return_type := SetType undefined; args := [];
               recvr := None; pysig := None |} set_store
          = (Ret tt, set_store)) as H5 by reflexivity.
  destruct (H H1 H2 H3 H4 H5) as (_ & Hrewrite & _).
  apply (Hrewrite (SetType int64)); vm_compute; reflexivity.
Defined.

Lemma TypeInferer_add_type_cases_witness :
  TypeInferer_add_type demo_ctx 50 "x" float64 None true refine_store
  = (Ret tt, refine_store)
  /\ tv_type
       (cell_at
          (TypeInferer_add_type demo_ctx 50 "w" int64 None false
             refine_store).2 "z")
     = Some int64.
Proof.
  split.
  - destruct (TypeInferer_add_type_cases demo_ctx 50 "x" float64 None true
                refine_store) as [H _].
    apply H; reflexivity.
  - destruct (TypeInferer_add_type_cases demo_ctx 50 "w" int64 None false
                refine_store) as (_ & H & _).
    destruct (H (or_introl eq_refl)) as (_ & _ & Hchanged & _).
    rewrite (Hchanged int64); [by vm_compute | reflexivity | discriminate].
Defined.

Lemma BuildTupleConstraint_fires_witness :
  build_tuple_type [int64; int64; int64] = UniTuple int64 3
  /\ build_tuple_type [int64; int64; float64]
     = Tuple [int64; int64; float64]
  /\ build_tuple_type [] = Tuple [].
Proof.
  destruct (BuildTupleConstraint_fires demo_ctx demo_error_context 50 "t"
              [] (demo_loc 1) (fresh_inferer [] [] [])) as [_ H].
  split; [|split].
  - apply (proj1 (H [int64; int64; int64]) int64); [discriminate|].
    by repeat constructor.
  - apply (proj2 (H [int64; int64; float64])). right.
    intros [t Ht]. inversion Ht as [|? ? <- Ht']. inversion Ht' as [|? ? _ Ht''].
    inversion Ht'' as [|? ? Heq _]. discriminate.
  - apply (proj2 (H [])). by left.
Defined.

Lemma ExhaustIterConstraint_fires_witness :
  tv_type
    (cell_at
       (ExhaustIterConstraint_call demo_ctx demo_error_context 50 "x" 2
          "it" (demo_loc 5) shapes_store).2 "x")
  = Some (UniTuple int64 2)
  /\ (ExhaustIterConstraint_call demo_ctx demo_error_context 50 "x" 3 "t2"
        (demo_loc 5) shapes_store).1
     = Raise (ValueError_wrong_tuple_length "t2" 3 2).
Proof.
  split.
  - destruct (ExhaustIterConstraint_fires demo_ctx demo_error_context 50
                "x" 2 "it" (demo_loc 5) shapes_store) as [_ H].
    change (tv_type (cell_at shapes_store "it"))
      with (Some (IterableType "range_iter" int64)) in H.
    destruct H as (_ & _ & H & _).
    rewrite (H eq_refl "range_iter" int64 eq_refl). by vm_compute.
  - destruct (ExhaustIterConstraint_fires demo_ctx demo_error_context 50
                "x" 3 "t2" (demo_loc 5) shapes_store) as [_ H].
    change (tv_type (cell_at shapes_store "t2"))
      with (Some (UniTuple int64 2)) in H.
    destruct H as (_ & H & _).
    rewrite H; [reflexivity | reflexivity | discriminate].
Defined.

Lemma PairConstraints_fire_witness :
  tv_type
    (cell_at
       (PairFirstConstraint_call demo_ctx demo_error_context 50 "a" "p"
          (demo_loc 6) shapes_store).2 "a")
  = Some int64
  /\ PairSecondConstraint_call demo_ctx demo_error_context 50 "b" "it"
       (demo_loc 6) shapes_store
     = (Ret tt, touch ["b"; "it"] shapes_store).
Proof.
  split.
  - destruct (PairConstraints_fire demo_ctx demo_error_context 50 "a" "p"
                (demo_loc 6) shapes_store) as [_ H].
    change (tv_type (cell_at shapes_store "p"))
      with (Some (Pair int64 float64)) in H.
    destruct H as [H _].
    destruct (H int64 float64 eq_refl) as [-> _]. by vm_compute.
  - destruct (PairConstraints_fire demo_ctx demo_error_context 50 "b" "it"
                (demo_loc 6) shapes_store) as [_ H].
    change (tv_type (cell_at shapes_store "it"))
      with (Some (IterableType "range_iter" int64)) in H.
    destruct H as [_ H].
    apply H. discriminate.
Defined.

Lemma ConstraintNetwork_propagate_fires_in_order_witness :
  fires_in_order demo_ctx demo_error_context 50
    [ExhaustIterConstraint "x" 3 "t2" (demo_loc 5);
     PairFirstConstraint "a" "p" (demo_loc 6)]
    shapes_store
    [InternalTypingError (ExhaustIterConstraint "x" 3 "t2" (demo_loc 5))
       (ValueError_wrong_tuple_length "t2" 3 2) (demo_loc 5)]
    (ConstraintNetwork_propagate demo_ctx demo_error_context 50
       [ExhaustIterConstraint "x" 3 "t2" (demo_loc 5);
        PairFirstConstraint "a" "p" (demo_loc 6)] shapes_store).2.
Proof.
  apply (proj1 (ConstraintNetwork_propagate_fires_in_order demo_ctx
                  demo_error_context 50 _ shapes_store)).
  by vm_compute.
Defined.

Lemma TypeInferer_propagate_fixpoint_witness :
  exists st,
    reaches_fixpoint demo_ctx demo_error_context 50 demo_seeded (Ret tt, st)
    /\ TypeInferer_get_state_token st
       = [Some float64; Some int64; Some float64; Some float64].
Proof.
  destruct (TypeInferer_propagate demo_ctx demo_error_context 50 10
              demo_seeded) as [[r st]|] eqn:Hrun; [|by vm_compute in Hrun].
  exists st.
  assert (r = Ret tt
          /\ TypeInferer_get_state_token st
             = [Some float64; Some int64; Some float64; Some float64])
    as [-> Htok].
  { vm_compute in Hrun. injection Hrun as <- <-. by vm_compute. }
  split; [|done].
  apply (proj2 (proj2 (proj2 (proj2
    (TypeInferer_propagate_fixpoint demo_ctx demo_error_context 50
       demo_seeded))))).
  by exists 10.
Defined.

Lemma PrintConstraint_stores_any_signature_witness :
  fire demo_ctx demo_error_context 50 print_constraint_demo print_store
  = (Ret tt, set_signatures (insert 3 None) (touch ["t"] print_store))
  /\ (TypeInferer_get_function_types
        (set_signatures (insert 3 None) (touch ["t"] print_store))).1
     = Ret {[ 7 := None ]}.
Proof.
  split.
  - destruct (PrintConstraint_stores_any_signature demo_ctx
                demo_error_context 50 3 ["t"] None (demo_loc 9) print_store)
      as (_ & H & Hfold & _).
    apply (H [Tuple []] [] (touch ["t"] print_store) (Scalar "print") None).
    + rewrite (Hfold eq_refl); [reflexivity|].
      repeat constructor; discriminate.
    + reflexivity.
    + reflexivity.
  - by vm_compute.
Defined.

(** * Further properties of the engine *)

(** ** TypeVar.lock *)

Lemma TypeVar_lock_locked (ctx : Context) (tv : TypeVar) (T : type)
    (loc : option Loc) :
  ((TypeVar_lock ctx tv T loc).1 = Ret tt ->
   tv_locked (TypeVar_lock ctx tv T loc).2 = true /\ tv_locked tv = false
   /\ tv_type (TypeVar_lock ctx tv T loc).2 = Some T)
  /\ (tv_locked tv = true ->
      TypeVar_lock ctx tv T loc = (Raise AssertionError, tv)).
Proof.
  unfold TypeVar_lock. destruct (tv_locked tv); [done|].
  split; [|done].
  destruct (match tv_type tv with
            | Some cur => bool_decide (can_convert ctx cur (Some T) <> None)
            | None => true
            end); [|done].
  intros _. simpl. by destruct (tv_define_loc tv).
Qed.

(** X1.  [TypeVar.lock(T, loc)] fails with an assertion error exactly on
    a locked cell, and on an unlocked cell with the no-conversion typing
    error exactly when the cell holds a type that does not convert to
    [T]; a failed lock leaves the cell as it was.  A successful lock
    stores [T], sets the lock and keeps a [define_loc] that was already
    set. *)
Theorem TypeVar_lock_cases (ctx : Context) (tv : TypeVar) (T : type)
    (loc : option Loc) :
  let r := (TypeVar_lock ctx tv T loc).1 in
  let tv' := (TypeVar_lock ctx tv T loc).2 in
  (r = Raise AssertionError <-> tv_locked tv = true)
  /\ (r = Raise (TypingError (NoConversionLock T (tv_type tv) (tv_var tv))
                   None)
      <-> tv_locked tv = false
          /\ exists cur, tv_type tv = Some cur
                         /\ can_convert ctx cur (Some T) = None)
  /\ (r <> Ret tt -> tv' = tv)
  /\ (r = Ret tt ->
      tv_var tv' = tv_var tv /\ tv_type tv' = Some T
      /\ tv_locked tv' = true
      /\ tv_define_loc tv'
         = match tv_define_loc tv with
           | Some l => Some l
           | None => loc
           end).
Proof.
  intros r tv'. subst r tv'. unfold TypeVar_lock.
  destruct tv as [var ty locked dloc]; simpl.
  destruct locked; simpl.
  - split; [done|]. split; [|done]. split; [done | by intros [? _]].
  - destruct ty as [cur|]; simpl.
    + case_bool_decide as Hc; simpl.
      * split; [done|]. split; [|split; [done|]].
        -- split; [done|]. intros [_ (c & Heq & Hcc)]. by simplify_eq.
        -- intros _. by destruct dloc.
      * split; [done|]. split; [|done].
        split; [|done]. intros _. split; [done|]. exists cur.
        split; [done|]. by destruct (can_convert ctx cur (Some T)).
    + split; [done|]. split; [|split; [done|]].
      * split; [done|]. by intros [_ (c & ? & _)].
      * intros _. by destruct dloc.
Qed.

Lemma TypeVar_lock_cases_witness :
  TypeVar_lock demo_ctx (cell_of "x" int64) float64 (Some (demo_loc 2))
  = (Ret tt,
     {| tv_var := "x"; tv_type := Some float64; tv_locked := true;
        tv_define_loc := Some (demo_loc 2) |})
  /\ (TypeVar_lock demo_ctx (locked_cell "x" int64) int64 None).1
     = Raise AssertionError
  /\ (TypeVar_lock demo_ctx (cell_of "x" int64) (Scalar "str") None).1
     = Raise (TypingError
                (NoConversionLock (Scalar "str") (Some int64) "x") None).
Proof.
  split; [reflexivity|]. split.
  - apply (proj1 (TypeVar_lock_cases demo_ctx (locked_cell "x" int64) int64
                    None)).
    reflexivity.
  - apply (proj1 (proj2 (TypeVar_lock_cases demo_ctx (cell_of "x" int64)
                           (Scalar "str") None))).
    split; [reflexivity|]. by exists int64.
Defined.

(** X2.  Lock integrity: once a lock has succeeded, no later [add_type]
    or [lock] changes the cell; its type stays the lock target, and an
    added type is accepted exactly when it is the lock target or converts
    to it. *)
Theorem lock_is_final (ctx : Context) (tv : TypeVar) (T : type)
    (loc : option Loc) :
  (TypeVar_lock ctx tv T loc).1 = Ret tt ->
  let locked := (TypeVar_lock ctx tv T loc).2 in
  (forall ops, run_ops ctx ops locked = locked)
  /\ (forall ops, tv_type (run_ops ctx ops locked) = Some T)
  /\ (forall X l,
        (TypeVar_add_type ctx locked X l).1 = Ret (Some T)
        <-> X = T \/ can_convert ctx X (Some T) <> None)
  /\ (forall T' l, (TypeVar_lock ctx locked T' l).1 = Raise AssertionError).
Proof.
  intros Hok locked.
  destruct (TypeVar_lock_locked ctx tv T loc) as [Hret _].
  destruct (Hret Hok) as (Hl & _ & Hty). fold locked in Hty, Hl.
  assert (forall ops, run_ops ctx ops locked = locked) as Hrun.
  { intros ops. by apply run_ops_history. }
  split; [done|]. split; [by intros ops; rewrite Hrun|]. split.
  - intros X l. unfold TypeVar_add_type. rewrite Hl, Hty.
    case_bool_decide as Hne.
    + destruct (can_convert ctx X (Some T)) as [c|] eqn:Hc; simpl.
      * split; [by right | done].
      * split; [done|]. intros [-> | ?]; done.
    + simpl. split; [|done]. intros _. left. congruence.
  - intros T' l.
    by rewrite (proj2 (TypeVar_lock_locked ctx locked T' l) Hl).
Qed.

Lemma lock_is_final_witness :
  tv_type
    (run_ops demo_ctx
       [OpAddType float64 None; OpLock float32 None; OpAddType int64 None]
       (TypeVar_lock demo_ctx (TypeVar_init "c") int64 None).2)
  = Some int64.
Proof.
  apply (lock_is_final demo_ctx (TypeVar_init "c") int64 None eq_refl).
Defined.

(** ** The location of the first definition *)

(** X3.  [define_loc] is written by the first [add_type] or [lock] of a
    fresh cell, and a location that is recorded for a defined cell is
    never replaced afterwards, whatever is added or locked. *)
Theorem define_loc_set_once (ctx : Context) (tv : TypeVar) (l : Loc)
    (ops : list cell_op) :
  (forall var T loc,
      tv_define_loc (TypeVar_add_type ctx (TypeVar_init var) T loc).2 = loc
      /\ tv_define_loc (TypeVar_lock ctx (TypeVar_init var) T loc).2 = loc)
  /\ (tv_type tv <> None -> tv_define_loc tv = Some l ->
      tv_define_loc (run_ops ctx ops tv) = Some l).
Proof.
  split; [done|].
  unfold run_ops. revert tv.
  induction ops as [|op ops IH]; intros tv Hdef Hloc; simpl; [done|].
  assert (tv_type (apply_op ctx tv op) <> None
          /\ tv_define_loc (apply_op ctx tv op) = Some l) as [H1 H2].
  { destruct tv as [var [cur|] locked dloc]; [|done].
    simpl in Hloc. subst dloc.
    destruct op as [T loc|T loc]; simpl.
    - unfold TypeVar_add_type; simpl. destruct locked.
      + case_bool_decide; [destruct (can_convert _ _ _)|]; done.
      + destruct (unify_pairs ctx cur T); done.
    - unfold TypeVar_lock; simpl. destruct locked; [done|].
      case_bool_decide; done. }
  by apply IH.
Qed.

Lemma define_loc_set_once_witness :
  tv_define_loc
    (run_ops demo_ctx
       [OpAddType float64 (Some (demo_loc 8)); OpLock float64 (Some (demo_loc 9))]
       (TypeVar_add_type demo_ctx (TypeVar_init "v") int64
          (Some (demo_loc 3))).2)
  = Some (demo_loc 3).
Proof.
  apply (define_loc_set_once demo_ctx
           (TypeVar_add_type demo_ctx (TypeVar_init "v") int64
              (Some (demo_loc 3))).2 (demo_loc 3)); [discriminate|reflexivity].
Defined.

(** ** TypeVarMap *)

(** X4.  Looking a name up in the [TypeVarMap] never fails: a missing
    name gets a fresh, undefined and unlocked cell, the other cells are
    untouched, and a second look-up returns the same cell and changes
    nothing.  Binding a name that has a cell is rejected with a
    [KeyError] and binding a new one is read back by the next look-up. *)
Theorem TypeVarMap_getitem_setitem (m : gmap string TypeVar)
    (name : string) :
  exists cell m',
    TypeVarMap_getitem m name = inr (cell, m')
    /\ m' !! name = Some cell
    /\ (m !! name = None -> cell = TypeVar_init name)
    /\ (forall n tv, m !! n = Some tv -> m' !! n = Some tv)
    /\ (forall n, n <> name -> m' !! n = m !! n)
    /\ TypeVarMap_getitem m' name = inr (cell, m')
    /\ (forall v,
          TypeVarMap_setitem m' name v = inl (CannotRedefineTypevar name))
    /\ (forall st, typevars st = m ->
          (typevars_getitem name st).1 = Ret cell
          /\ typevars (typevars_getitem name st).2 = m')
    /\ (forall v m2, TypeVarMap_setitem m name v = inr m2 ->
          m !! name = None /\ TypeVarMap_getitem m2 name = inr (v, m2)).
Proof.
  unfold TypeVarMap_getitem, TypeVarMap_setitem, typevars_getitem.
  destruct (m !! name) as [tv|] eqn:Hl.
  - exists tv, m. rewrite Hl.
    split; [done|]. split; [done|]. split; [done|]. split; [done|].
    split; [done|]. split; [done|]. split; [done|]. split; [|done].
    intros st <-. by rewrite Hl.
  - exists (TypeVar_init name), (<[name := TypeVar_init name]> m).
    rewrite lookup_insert_eq.
    split; [done|]. split; [done|]. split; [done|]. split.
    { intros n tv Hn. rewrite lookup_insert_ne; [done | congruence]. }
    split; [by intros n Hn; rewrite lookup_insert_ne|].
    split; [done|]. split; [done|]. split.
    + intros st <-. by rewrite Hl.
    + intros v m2 [= <-]. split; [done|]. by rewrite lookup_insert_eq.
Qed.

(** ** fold_arg_vars *)

Lemma map_M_getitem_on {A} (g : A -> string) (xs : list A)
    (st : TypeInferer) :
  map_M (fun x => typevars_getitem (g x)) xs st
  = (Ret (map (fun x => cell_at st (g x)) xs), touch (map g xs) st).
Proof.
  revert st. induction xs as [|x xs IH]; intros st; [done|].
  simpl. unfold bind at 1. rewrite typevars_getitem_eq.
  unfold bind at 1. rewrite IH. unfold ret.
  f_equal. f_equal. f_equal.
  apply map_ext. intros j. by rewrite cell_at_touch1.
Qed.

Lemma omap_defined (st : TypeInferer) (names : list string) :
  Forall (fun n => tv_type (cell_at st n) <> None) names ->
  length (omap tv_type (map (cell_at st) names)) = length names
  /\ forallb TypeVar_defined (map (cell_at st) names) = true.
Proof.
  induction 1 as [|n names Hn _ [IH1 IH2]]; [done|].
  csimpl. unfold TypeVar_defined at 1.
  rewrite bool_decide_true by done. simpl.
  destruct (tv_type (cell_at st n)); [|done]. simpl. by rewrite IH1.
Qed.

Lemma forallb_undefined (st : TypeInferer) (names : list string) :
  Exists (fun n => tv_type (cell_at st n) = None) names ->
  forallb TypeVar_defined (map (cell_at st) names) = false.
Proof.
  induction 1 as [n names Hn | n names _ IH]; simpl.
  - unfold TypeVar_defined at 1. by rewrite Hn.
  - rewrite IH. apply andb_false_r.
Qed.

Lemma fold_arg_lists (A K : list type) (star : type) :
  last (A ++ K ++ [star]) = Some star
  /\ take (length A) (A ++ K ++ [star]) = A
  /\ drop (length A)
       (take (length (A ++ K ++ [star]) - 1) (A ++ K ++ [star])) = K
  /\ take (length A) (A ++ K ++ []) = A
  /\ drop (length A) (A ++ K ++ []) = K.
Proof.
  split; [by rewrite !app_assoc, last_snoc|].
  split; [by rewrite take_app_length|].
  split.
  - rewrite (app_assoc A K [star]).
    replace (length ((A ++ K) ++ [star]) - 1) with (length (A ++ K))
      by (rewrite !length_app; simpl; lia).
    by rewrite take_app_length, drop_app_length.
  - rewrite app_nil_r. by rewrite take_app_length, drop_app_length.
Qed.

(** X5.  [fold_arg_vars] looks every argument variable up (positional,
    keyword, then [*args]) whatever the outcome.  If one of them has no
    type yet the result is [None], also when [*args] could not be a
    tuple; otherwise a [*args] that is not a tuple raises the type error,
    and in the remaining cases the positional types are followed by the
    element types of the [*args] tuple and the keyword types are paired
    with their names. *)
Theorem fold_arg_vars_cases (args : list string) (vararg : option string)
    (kws : list (string * string)) (st : TypeInferer) :
  let names := args ++ map snd kws ++ option_list vararg in
  let ty := fun n => tv_type (cell_at st n) in
  let r := (fold_arg_vars args vararg kws st).1 in
  let kw_args := zip (map fst kws) (omap ty (map snd kws)) in
  (fold_arg_vars args vararg kws st).2 = touch names st
  /\ (Exists (fun n => ty n = None) names -> r = Ret None)
  /\ (Forall (fun n => ty n <> None) names ->
      match vararg with
      | None => r = Ret (Some (omap ty args, kw_args))
      | Some v =>
          forall star, ty v = Some star ->
            (is_BaseTuple star = true ->
               r = Ret (Some (omap ty args ++ tuple_types star, kw_args)))
            /\ (is_BaseTuple star = false ->
                r = Raise (TypeError_varargs star))
      end).
Proof.
  intros names ty r kw_args.
  assert (fold_arg_vars args vararg kws st
          = (let argtypes := map (cell_at st) names in
             if negb (forallb TypeVar_defined argtypes) then Ret None
             else
               let tys := omap tv_type argtypes in
               match vararg with
               | Some _ =>
                   match last tys with
                   | Some star =>
                       if negb (is_BaseTuple star)
                       then Raise (TypeError_varargs star)
                       else
                         Ret (Some (take (length args) tys ++ tuple_types star,
                                    zip (map fst kws)
                                      (drop (length args)
                                         (take (length tys - 1) tys))))
                   | None => Raise AssertionError
                   end
               | None =>
                   Ret (Some (take (length args) tys,
                              zip (map fst kws) (drop (length args) tys)))
               end,
             touch names st)) as Heq.
  { unfold fold_arg_vars, names.
    unfold bind at 1. rewrite map_M_getitem.
    unfold bind at 1.
    rewrite (map_M_getitem_on snd kws).
    unfold bind at 1.
    assert ((match vararg with
             | Some v => (tv <- typevars_getitem v ;; ret [tv])%method
             | None => ret []
             end) (touch (map snd kws) (touch args st))
            = (Ret (map (cell_at st) (option_list vararg)),
               touch (option_list vararg)
                 (touch (map snd kws) (touch args st)))) as ->.
    { destruct vararg as [v|]; [|done]. simpl.
      unfold bind. rewrite typevars_getitem_eq. unfold ret.
      by rewrite !cell_at_touch. }
    rewrite !touch_app, !map_app.
    assert (map (fun x : string * string => cell_at (touch args st) x.2) kws
            = map (cell_at st) (map snd kws)) as ->.
    { rewrite map_map. apply map_ext. intros j. by rewrite cell_at_touch. }
    destruct (negb (forallb _ _)); [done|].
    destruct vararg; [|done].
    destruct (last _); [|done]. by destruct (negb (is_BaseTuple _)). }
  subst r. rewrite Heq. simpl.
  split; [done|]. split.
  - intros Hex. by rewrite (forallb_undefined st names Hex).
  - intros Hall.
    destruct (omap_defined st names Hall) as [Hlen ->]. simpl.
    unfold names in Hall. apply Forall_app in Hall as [Ha Hall].
    apply Forall_app in Hall as [Hk Hv].
    destruct (omap_defined st args Ha) as [Hla _].
    destruct (omap_defined st (map snd kws) Hk) as [Hlk _].
    assert (forall l, omap tv_type (map (cell_at st) l) = omap ty l) as Hty.
    { induction l as [|a l IH]; csimpl; [done|]. by rewrite IH. }
    unfold names. rewrite !map_app, !omap_app, !Hty.
    rewrite Hty in Hla, Hlk.
    destruct vararg as [v|]; cbv beta iota zeta.
    + intros star Hstar.
      assert (omap ty (option_list (Some v)) = [star]) as ->.
      { unfold ty in *. csimpl. by rewrite Hstar. }
      destruct (fold_arg_lists (omap ty args) (omap ty (map snd kws)) star)
        as (-> & H1 & H2 & _).
      rewrite <- Hla, H1, H2.
      split; by intros ->.
    + destruct (fold_arg_lists (omap ty args) (omap ty (map snd kws)) none)
        as (_ & _ & _ & H3 & H4).
      change (omap ty (option_list None)) with (@nil type).
      by rewrite <- Hla, H3, H4.
Qed.

(** ** Constraints that resolve a signature *)

Lemma touch_signatures (names : list string) (st : TypeInferer) :
  signatures (touch names st) = signatures st
  /\ refine_map (touch names st) = refine_map st
  /\ calltypes (touch names st) = calltypes st.
Proof.
  revert st. induction names as [|n names IH]; intros st; [done|].
  change (touch (n :: names) st) with (touch names (touch [n] st)).
  destruct (IH (touch [n] st)) as (-> & -> & ->).
  unfold touch, typevars_getitem; simpl.
  by destruct (typevars st !! n).
Qed.

Lemma touch_defined (names : list string) (st : TypeInferer) :
  Forall (fun n => tv_type (cell_at st n) <> None) names ->
  touch names st = st.
Proof.
  induction 1 as [|n names Hn _ IH]; [done|].
  change (touch (n :: names) st) with (touch names (touch [n] st)).
  assert (touch [n] st = st) as ->; [|done].
  unfold touch, typevars_getitem, cell_at in *; simpl.
  by destruct (typevars st !! n).
Qed.

Lemma typevars_getone_defined (name : string) (t : type) (st : TypeInferer) :
  tv_type (cell_at st name) = Some t -> typevars_getone name st = (Ret t, st).
Proof.
  intros Ht. unfold typevars_getone, bind. rewrite typevars_getitem_eq.
  rewrite (touch_defined [name]) by (constructor; [congruence | done]).
  unfold lift, TypeVar_getone. by rewrite Ht.
Qed.

Lemma typevars_getone_undefined (name : string) (st : TypeInferer) :
  tv_type (cell_at st name) = None ->
  typevars_getone name st = (Raise AssertionError, touch [name] st).
Proof.
  intros Ht. unfold typevars_getone, bind. rewrite typevars_getitem_eq.
  unfold lift, TypeVar_getone. by rewrite Ht.
Qed.

Lemma all_defined_eq (names : list string) (st : TypeInferer) :
  all_defined names st
  = (Ret (forallb (fun n => TypeVar_defined (cell_at st n)) names),
     touch (looked_up st names) st).
Proof.
  revert st. induction names as [|n names IH]; intros st; [done|].
  cbn [all_defined looked_up forallb]. unfold bind.
  rewrite typevars_getitem_eq.
  destruct (TypeVar_defined (cell_at st n)) eqn:Hd; [|done].
  assert (touch [n] st = st) as Ht.
  { apply touch_defined. constructor; [|done].
    by apply bool_decide_eq_true in Hd. }
  change (touch (n :: looked_up st names) st)
    with (touch (looked_up st names) (touch [n] st)).
  by rewrite Ht, IH.
Qed.

Lemma forallb_cells (st : TypeInferer) (names : list string) :
  forallb TypeVar_defined (map (cell_at st) names)
  = forallb (fun n => TypeVar_defined (cell_at st n)) names.
Proof. induction names as [|n names IH]; simpl; [done | by rewrite IH]. Qed.

Lemma forallb_defined_false (st : TypeInferer) (names : list string) :
  Exists (fun n => tv_type (cell_at st n) = None) names ->
  forallb (fun n => TypeVar_defined (cell_at st n)) names = false.
Proof.
  intros H. rewrite <- (forallb_undefined st names H).
  by rewrite forallb_cells.
Qed.

Lemma forallb_defined_true (st : TypeInferer) (names : list string) :
  Forall (fun n => tv_type (cell_at st n) <> None) names ->
  forallb (fun n => TypeVar_defined (cell_at st n)) names = true
  /\ touch (looked_up st names) st = st.
Proof.
  intros H. split.
  - rewrite <- (proj2 (omap_defined st names H)). by rewrite forallb_cells.
  - apply touch_defined.
    induction H as [|n names Hn H IH]; simpl; [done|].
    unfold TypeVar_defined. rewrite bool_decide_true by done.
    by constructor.
Qed.

(** X6.  [CallConstraint.resolve] stores no signature and writes no type
    in three cases: a callee that is false as a Python value fails the
    assertion; an argument variable without a type ends the call
    normally, after every argument variable has been looked up; and a
    call that [resolve_call] cannot resolve raises the invalid-usage
    typing error at the location of the constraint.  A [CallConstraint]
    whose callee variable has no type fails on the assertion of
    [getone], inside the error context of the call. *)
Theorem CallConstraint_resolve_no_signature (ctx : Context)
    (nec : string -> list FmtArg -> exn -> exn) (depth : nat) (id : nat)
    (target func : string) (args : list string)
    (kws : list (string * string)) (vararg : option string) (loc : Loc)
    (fnty : callee) (st : TypeInferer) :
  let names := args ++ map snd kws ++ option_list vararg in
  let resolve :=
    CallConstraint_resolve ctx depth id target func args kws vararg loc
      fnty st in
  (truthy fnty = false -> resolve = (Raise AssertionError, st))
  /\ (truthy fnty = true ->
      Exists (fun n => tv_type (cell_at st n) = None) names ->
      resolve = (Ret tt, touch names st)
      /\ signatures resolve.2 = signatures st
      /\ forall n, cell_at resolve.2 n = cell_at st n)
  /\ (truthy fnty = true ->
      forall pos_args kw_args st1 st2,
        fold_arg_vars args vararg kws st
        = (Ret (Some (pos_args, kw_args)), st1) ->
        TypeInferer_resolve_call ctx fnty pos_args kw_args st1
        = (Ret None, st2) ->
        resolve
        = (Raise (TypingError
                    (InvalidUsage fnty pos_args kw_args
                       (explain_function_type ctx fnty)) (Some loc)), st2))
  /\ (tv_type (cell_at st func) = None ->
      CallConstraint_call ctx nec depth id target func args kws vararg loc st
      = (Raise (nec "typing of call at {0}" [FmtLoc loc] AssertionError),
         touch [func] st)).
Proof.
  intros names resolve. subst resolve. unfold CallConstraint_resolve.
  split; [by intros ->|]. split; [|split].
  - intros -> Hex. cbn [negb]. cbv iota. unfold bind.
    destruct (fold_arg_vars_cases args vararg kws st) as (Hst & Hnone & _).
    specialize (Hnone Hex).
    destruct (fold_arg_vars args vararg kws st) as [r st1].
    simpl in Hst, Hnone. subst r st1. fold names. simpl.
    split; [done|].
    split; [apply (touch_signatures names st) | intros n; apply cell_at_touch].
  - intros -> pos kw st1 st2 Hfold Hres. cbn [negb]. cbv iota.
    unfold bind. by rewrite Hfold, Hres.
  - intros Hfunc. unfold CallConstraint_call, with_error_context, bind.
    by rewrite (typevars_getone_undefined func st Hfunc).
Qed.

Lemma CallConstraint_resolve_no_signature_witness :
  CallConstraint_resolve demo_ctx 50 0 "z" "f" ["a"; "t2"] [] None
    (demo_loc 3) (FnType (Scalar "set")) shapes_store
  = (Ret tt, touch ["a"; "t2"] shapes_store)
  /\ CallConstraint_resolve demo_ctx 50 0 "z" "f" ["t2"] [] None
       (demo_loc 3) (FnType (Scalar "set")) shapes_store
     = (Raise (TypingError
                 (InvalidUsage (FnType (Scalar "set")) [UniTuple int64 2] []
                    "") (Some (demo_loc 3))), shapes_store).
Proof.
  split.
  - destruct (CallConstraint_resolve_no_signature demo_ctx
                demo_error_context 50 0 "z" "f" ["a"; "t2"] [] None
                (demo_loc 3) (FnType (Scalar "set")) shapes_store)
      as (_ & H & _).
    apply H; [reflexivity|]. by left.
  - destruct (CallConstraint_resolve_no_signature demo_ctx
                demo_error_context 50 0 "z" "f" ["t2"] [] None
                (demo_loc 3) (FnType (Scalar "set")) shapes_store)
      as (_ & _ & H & _).
    apply (H eq_refl [UniTuple int64 2] [] shapes_store shapes_store);
      reflexivity.
Defined.

(** X7.  The constraints of [setitem], static [setitem], [delitem] and
    [setattr] do nothing as long as one of the variables they read has no
    type: no error, no signature, and the variables after the first
    untyped one are not even looked up. *)
Theorem item_constraints_bail (ctx : Context)
    (nec : string -> list FmtArg -> exn -> exn) (depth : nat)
    (c : Constraint) (names : list string) (st : TypeInferer) :
  item_names c = Some names ->
  Exists (fun n => tv_type (cell_at st n) = None) names ->
  fire ctx nec depth c st = (Ret tt, touch (looked_up st names) st)
  /\ signatures (fire ctx nec depth c st).2 = signatures st
  /\ (forall n, cell_at (fire ctx nec depth c st).2 n = cell_at st n)
  /\ (forall n, n ∉ looked_up st names ->
        typevars (fire ctx nec depth c st).2 !! n = typevars st !! n).
Proof.
  intros Hc Hex.
  assert (fire ctx nec depth c st = (Ret tt, touch (looked_up st names) st))
    as ->.
  { destruct c; try done; injection Hc as <-; simpl;
      unfold SetItemConstraint_call, StaticSetItemConstraint_call,
        DelItemConstraint_call, SetAttrConstraint_call,
        with_error_context, bind;
      rewrite all_defined_eq, (forallb_defined_false st _ Hex); done. }
  split; [done|]. split; [apply (touch_signatures _ st)|].
  split; [intros n; apply cell_at_touch|]. simpl.
  generalize (looked_up st names). clear.
  intros l. revert st. induction l as [|m l IH]; intros st n Hn; [done|].
  change (touch (m :: l) st) with (touch l (touch [m] st)).
  rewrite IH by (intros ?; apply Hn; by right).
  unfold touch, typevars_getitem; simpl.
  destruct (typevars st !! m); [done|]. simpl.
  rewrite lookup_insert_ne; [done|]. intros ->. apply Hn. by left.
Qed.

Lemma item_constraints_bail_witness :
  fire demo_ctx demo_error_context 50
    (SetItemConstraint 1 "arr" "t2" "p" (demo_loc 4)) shapes_store
  = (Ret tt, touch ["arr"] shapes_store).
Proof.
  apply (item_constraints_bail demo_ctx demo_error_context 50
           (SetItemConstraint 1 "arr" "t2" "p" (demo_loc 4))
           ["arr"; "t2"; "p"] shapes_store eq_refl).
  by left.
Defined.

(** X8.  Once all the variables they read have a type, the constraints of
    [setitem], [delitem] and [setattr] store the signature the context
    resolves and raise their cannot-resolve typing error when there is
    none; the static [setitem] asks [resolve_static_setitem] first, falls
    back on [resolve_setitem] with the type of the index variable only
    when that gives nothing, and fails only when both do.  The cells are
    left as they are. *)
Theorem item_constraints_resolve (ctx : Context)
    (nec : string -> list FmtArg -> exn -> exn) (depth : nat) (id : nat)
    (target index value attr : string) (static_index : pyvalue) (loc : Loc)
    (st : TypeInferer) (targetty idxty valty : type) :
  tv_type (cell_at st target) = Some targetty ->
  tv_type (cell_at st index) = Some idxty ->
  tv_type (cell_at st value) = Some valty ->
  let store := fun sig =>
    (Ret tt, set_signatures (insert id (Some sig)) st) in
  let fail := fun fmt fargs msg =>
    (@Raise unit (nec fmt fargs (TypingError msg (Some loc))), st) in
  fire ctx nec depth (SetItemConstraint id target index value loc) st
  = match resolve_setitem ctx targetty idxty valty with
    | Some sig => store sig
    | None =>
        fail "typing of setitem at {0}" [FmtLoc loc]
          (CannotResolveSetitem targetty idxty valty)
    end
  /\ fire ctx nec depth
       (StaticSetItemConstraint id target static_index index value loc) st
     = match resolve_static_setitem ctx targetty static_index valty with
       | Some sig => store sig
       | None =>
           match resolve_setitem ctx targetty idxty valty with
           | Some sig => store sig
           | None =>
               fail "typing of staticsetitem at {0}" [FmtLoc loc]
                 (CannotResolveStaticSetitem targetty static_index valty)
           end
       end
  /\ fire ctx nec depth (DelItemConstraint id target index loc) st
     = match resolve_delitem ctx targetty idxty with
       | Some sig => store sig
       | None =>
           fail "typing of delitem at {0}" [FmtLoc loc]
             (CannotResolveDelitem targetty idxty)
       end
  /\ fire ctx nec depth (SetAttrConstraint id target attr value loc) st
     = match resolve_setattr ctx targetty attr valty with
       | Some sig => store sig
       | None =>
           fail "typing of set attribute {0!r} at {1}"
             [FmtStr attr; FmtLoc loc]
             (CannotResolveSetattr targetty attr valty)
       end.
Proof.
  intros Ht Hi Hv store fail. subst store fail.
  assert (forall names,
            Forall (fun n => n = target \/ n = index \/ n = value) names ->
            all_defined names st = (Ret true, st)) as Hall.
  { intros names Hn. rewrite all_defined_eq.
    assert (Forall (fun n => tv_type (cell_at st n) <> None) names) as Hd.
    { eapply Forall_impl; [exact Hn|].
      intros n [-> | [-> | ->]]; congruence. }
    by destruct (forallb_defined_true st names Hd) as [-> ->]. }
  simpl.
  unfold SetItemConstraint_call, StaticSetItemConstraint_call,
    DelItemConstraint_call, SetAttrConstraint_call, with_error_context, bind.
  rewrite !Hall by (repeat constructor; auto).
  cbn [negb]. cbv iota.
  rewrite (typevars_getone_defined target targetty st Ht).
  rewrite (typevars_getone_defined index idxty st Hi).
  rewrite (typevars_getone_defined value valty st Hv).
  split; [|split; [|split]].
  - by destruct (resolve_setitem ctx targetty idxty valty).
  - destruct (resolve_static_setitem ctx targetty static_index valty);
      [done|].
    by destruct (resolve_setitem ctx targetty idxty valty).
  - by destruct (resolve_delitem ctx targetty idxty).
  - by destruct (resolve_setattr ctx targetty attr valty).
Qed.

Lemma item_constraints_resolve_witness :
  fire demo_ctx demo_error_context 50
    (StaticSetItemConstraint 1 "t2" (PyValue "0") "it" "p" (demo_loc 4))
    shapes_store
  = (Raise (TypingError
              (CannotResolveStaticSetitem (UniTuple int64 2) (PyValue "0")
                 (Pair int64 float64)) (Some (demo_loc 4))), shapes_store).
Proof.
  apply (item_constraints_resolve demo_ctx demo_error_context 50 1 "t2"
           "it" "p" "" (PyValue "0") (demo_loc 4) shapes_store
           (UniTuple int64 2) (IterableType "range_iter" int64)
           (Pair int64 float64) eq_refl eq_refl eq_refl).
Defined.

(** ** Constraints that build tuples and containers *)

Lemma product_cells (st : TypeInferer) (items : list string) :
  (Forall (fun n => tv_type (cell_at st n) <> None) items ->
   product (map (fun i => TypeVar_get (cell_at st i)) items)
   = [omap (fun i => tv_type (cell_at st i)) items])
  /\ (Exists (fun n => tv_type (cell_at st n) = None) items ->
      product (map (fun i => TypeVar_get (cell_at st i)) items) = []).
Proof.
  split.
  - induction 1 as [|n items Hn _ IH]; [done|].
    csimpl. rewrite IH. unfold TypeVar_get.
    by destruct (tv_type (cell_at st n)).
  - induction 1 as [n items Hn | n items _ IH]; csimpl.
    + unfold TypeVar_get. by rewrite Hn.
    + rewrite IH. unfold TypeVar_get.
      by destruct (tv_type (cell_at st n)).
Qed.

(** X9.  [BuildTupleConstraint] writes nothing as long as one of its
    items has no type, and once they all have one it adds exactly one
    tuple type, built from the types of the items in their order. *)
Theorem BuildTupleConstraint_on_cells (ctx : Context)
    (nec : string -> list FmtArg -> exn -> exn) (depth : nat)
    (target : string) (items : list string) (loc : Loc)
    (st : TypeInferer) :
  let call := BuildTupleConstraint_call ctx nec depth target items loc st in
  (Exists (fun n => tv_type (cell_at st n) = None) items ->
     call = (Ret tt, touch (items ++ [target]) st)
     /\ forall n, cell_at call.2 n = cell_at st n)
  /\ (Forall (fun n => tv_type (cell_at st n) <> None) items ->
      call
      = with_error_context nec "typing of tuple at {0}" [FmtLoc loc]
          (TypeInferer_add_type ctx depth target
             (build_tuple_type
                (omap (fun i => tv_type (cell_at st i)) items))
             (Some loc) false)
          (touch [target] st)).
Proof.
  intros call.
  assert (call
          = with_error_context nec "typing of tuple at {0}" [FmtLoc loc]
              (for_each
                 (product (map (fun i => TypeVar_get (cell_at st i)) items))
                 (fun vals =>
                    TypeInferer_add_type ctx depth target
                      (build_tuple_type vals) (Some loc) false))
              (touch (items ++ [target]) st)) as ->.
  { subst call. unfold BuildTupleConstraint_call, with_error_context.
    unfold bind at 1. rewrite map_M_get.
    unfold bind at 1. by rewrite typevars_getitem_eq, <- touch_app. }
  unfold with_error_context.
  destruct (product_cells st items) as [Hall Hex].
  split.
  - intros H. rewrite (Hex H). simpl.
    split; [done | intros n; apply cell_at_touch].
  - intros H. rewrite (Hall H), for_each_one.
    by rewrite touch_app, (touch_defined items st H).
Qed.

Lemma BuildTupleConstraint_on_cells_witness :
  tv_type
    (cell_at
       (BuildTupleConstraint_call demo_ctx demo_error_context 50 "r"
          ["p"; "t2"] (demo_loc 2) shapes_store).2 "r")
  = Some (Tuple [Pair int64 float64; UniTuple int64 2])
  /\ BuildTupleConstraint_call demo_ctx demo_error_context 50 "r"
       ["p"; "q"] (demo_loc 2) shapes_store
     = (Ret tt, touch ["p"; "q"; "r"] shapes_store).
Proof.
  destruct (BuildTupleConstraint_on_cells demo_ctx demo_error_context 50
              "r" ["p"; "t2"] (demo_loc 2) shapes_store) as [_ H1].
  destruct (BuildTupleConstraint_on_cells demo_ctx demo_error_context 50
              "r" ["p"; "q"] (demo_loc 2) shapes_store) as [H2 _].
  split.
  - rewrite H1; [by vm_compute|].
    repeat constructor; discriminate.
  - apply H2. right. by left.
Defined.

(** X10.  [BuildListConstraint] and [BuildSetConstraint] add the
    container of [undefined] elements when there is no item.  With items,
    they write nothing as long as one item has no type; once all have
    one they add the container of the unified element types, and write
    nothing, without any error, when the context cannot unify them. *)
Theorem BuildContainerConstraint_on_cells (ctx : Context)
    (nec : string -> list FmtArg -> exn -> exn) (depth : nat)
    (container_type : type -> type) (target : string)
    (items : list string) (loc : Loc) (st : TypeInferer) :
  let call :=
    BuildContainerConstraint_call ctx nec depth container_type target items
      loc st in
  let add := fun tp =>
    with_error_context nec "typing of list at {0}" [FmtLoc loc]
      (TypeInferer_add_type ctx depth target tp (Some loc) false)
      (touch (target :: items) st) in
  (items = [] -> call = add (container_type undefined))
  /\ (Exists (fun n => tv_type (cell_at st n) = None) items ->
      call = (Ret tt, touch (target :: items) st))
  /\ (items <> [] ->
      Forall (fun n => tv_type (cell_at st n) <> None) items ->
      match unify_types ctx (omap (fun i => tv_type (cell_at st i)) items) with
      | Some unified => call = add (container_type unified)
      | None => call = (Ret tt, touch (target :: items) st)
      end).
Proof.
  intros call add.
  assert (call
          = with_error_context nec "typing of list at {0}" [FmtLoc loc]
              (match map (fun i => TypeVar_get (cell_at st i)) items with
               | [] =>
                   TypeInferer_add_type ctx depth target
                     (container_type undefined) (Some loc) false
               | _ =>
                   for_each
                     (product
                        (map (fun i => TypeVar_get (cell_at st i)) items))
                     (fun typs =>
                        match unify_types ctx typs with
                        | Some unified =>
                            TypeInferer_add_type ctx depth target
                              (container_type unified) (Some loc) false
                        | None => ret tt
                        end)
               end)
              (touch (target :: items) st)) as ->.
  { subst call. unfold BuildContainerConstraint_call, with_error_context.
    unfold bind at 1. rewrite typevars_getitem_eq.
    unfold bind at 1. rewrite map_M_get.
    change (touch items (touch [target] st))
      with (touch (target :: items) st).
    assert (map (fun i => TypeVar_get (cell_at (touch [target] st) i)) items
            = map (fun i => TypeVar_get (cell_at st i)) items) as ->; [|done].
    apply map_ext. intros i. by rewrite cell_at_touch1. }
  subst add. unfold with_error_context.
  destruct (product_cells st items) as [Hall Hex].
  split; [by intros ->|]. split.
  - intros H. specialize (Hex H).
    destruct items as [|i items]; [by inversion H|].
    cbn [map] in *. cbv iota. by rewrite Hex.
  - intros Hne H. specialize (Hall H).
    destruct items as [|i items]; [done|].
    cbn [map] in *. cbv iota. rewrite Hall, for_each_one.
    by destruct (unify_types ctx _).
Qed.

Lemma BuildContainerConstraint_on_cells_witness :
  BuildContainerConstraint_call demo_ctx demo_error_context 50 ListType
    "l" ["p"; "t2"] (demo_loc 2) shapes_store
  = (Ret tt, touch ["l"; "p"; "t2"] shapes_store).
Proof.
  destruct (BuildContainerConstraint_on_cells demo_ctx demo_error_context
              50 ListType "l" ["p"; "t2"] (demo_loc 2) shapes_store)
    as (_ & _ & H).
  assert (["p"; "t2"] <> []) as Hne by discriminate.
  assert (Forall (fun n => tv_type (cell_at shapes_store n) <> None)
            ["p"; "t2"]) as Hall by (repeat constructor; discriminate).
  exact (H Hne Hall).
Defined.

(** ** Constraints of assignments, arguments and attributes *)

Lemma cell_at_update (var n : string) (tv : TypeVar) (st : TypeInferer) :
  cell_at (set_typevars (insert var tv) st) n
  = if decide (var = n) then tv else cell_at st n.
Proof.
  unfold cell_at; simpl. destruct (decide (var = n)) as [->|Hne].
  - by rewrite lookup_insert_eq.
  - by rewrite lookup_insert_ne.
Qed.

Lemma Propagate_call_eq (ctx : Context)
    (nec : string -> list FmtArg -> exn -> exn)
    (dst src : string) (loc : Loc) (st : TypeInferer) :
  Propagate_call ctx nec dst src loc st
  = let r := TypeVar_union ctx (cell_at st dst) (tv_type (cell_at st src))
               (Some loc) in
    let st1 := set_typevars (insert dst r.2) (touch [dst; src] st) in
    match r.1 with
    | Ret _ =>
        (Ret tt, set_refine_map (insert dst (Propagate dst src loc)) st1)
    | Raise e =>
        (Raise (nec "typing of assignment at {0}" [FmtLoc loc] e), st1)
    end.
Proof.
  unfold Propagate_call, with_error_context, TypeInferer_copy_type.
  unfold bind at 1. unfold bind at 1. rewrite typevars_getitem_eq.
  unfold bind at 1. rewrite typevars_getitem_eq, cell_at_touch1.
  change (touch [src] (touch [dst] st)) with (touch [dst; src] st).
  destruct (TypeVar_union ctx (cell_at st dst) (tv_type (cell_at st src))
              (Some loc)) as [[u|e] dst']; done.
Qed.

(** X11.  Firing [Propagate(dst, src)] adds the type of [src], if it has
    one, to the cell of [dst] and to no other cell: the refinement hook
    is not run by an assignment.  The constraint registers itself as the
    refiner of [dst] on every normal return, also when [src] has no type
    yet, and leaves [refine_map] as it is when the addition fails. *)
Theorem Propagate_call_cases (ctx : Context)
    (nec : string -> list FmtArg -> exn -> exn)
    (dst src : string) (loc : Loc) (st : TypeInferer) :
  let call := Propagate_call ctx nec dst src loc st in
  let self := Propagate dst src loc in
  (tv_type (cell_at st src) = None ->
     call.1 = Ret tt /\ cell_at call.2 dst = cell_at st dst)
  /\ (forall T, tv_type (cell_at st src) = Some T ->
        cell_at call.2 dst
        = (TypeVar_add_type ctx (cell_at st dst) T (Some loc)).2
        /\ (forall e,
              (TypeVar_add_type ctx (cell_at st dst) T (Some loc)).1
              = Raise e ->
              call.1
              = Raise (nec "typing of assignment at {0}" [FmtLoc loc] e)))
  /\ (forall n, n <> dst -> cell_at call.2 n = cell_at st n)
  /\ (call.1 = Ret tt -> refine_map call.2 = <[dst := self]> (refine_map st))
  /\ (call.1 <> Ret tt -> refine_map call.2 = refine_map st)
  /\ signatures call.2 = signatures st.
Proof.
  intros call self. subst call self. rewrite Propagate_call_eq. cbv zeta.
  destruct (touch_signatures [dst; src] st) as (Hsig & Href & _).
  assert (forall s n f, cell_at (set_refine_map f s) n = cell_at s n) as Hrm
    by done.
  unfold TypeVar_union.
  destruct (tv_type (cell_at st src)) as [T|] eqn:Hsrc.
  - destruct (TypeVar_add_type ctx (cell_at st dst) T (Some loc))
      as [[u|e] dst'] eqn:Hadd; cbn [fst snd].
    + split; [done|]. split.
      { intros T0 [= <-]. rewrite Hadd. cbn [fst snd].
        split; [|done]. by rewrite Hrm, cell_at_update, decide_True. }
      split.
      { intros n Hn. rewrite Hrm, cell_at_update, decide_False by done.
        apply cell_at_touch. }
      split.
      { intros _. cbn [refine_map set_refine_map set_typevars].
        by rewrite Href. }
      split; [done|]. cbn [signatures set_refine_map set_typevars]. done.
    + split; [done|]. split.
      { intros T0 [= <-]. rewrite Hadd. cbn [fst snd].
        split; [|by intros ? [= ->]].
        by rewrite cell_at_update, decide_True. }
      split.
      { intros n Hn. rewrite cell_at_update, decide_False by done.
        apply cell_at_touch. }
      split; [done|]. split.
      { intros _. cbn [refine_map set_refine_map set_typevars].
        by rewrite Href. }
      cbn [signatures set_refine_map set_typevars]. done.
  - cbn [fst snd]. split.
    { intros _. split; [done|].
      by rewrite Hrm, cell_at_update, decide_True. }
    split; [done|]. split.
    { intros n Hn. rewrite Hrm, cell_at_update, decide_False by done.
      apply cell_at_touch. }
    split.
    { intros _. cbn [refine_map set_refine_map set_typevars].
      by rewrite Href. }
    split; [done|]. cbn [signatures set_refine_map set_typevars]. done.
Qed.

Lemma GetAttrConstraint_call_eq (ctx : Context)
    (nec : string -> list FmtArg -> exn -> exn) (depth : nat)
    (target attr value : string) (loc inst_loc : Loc) (st : TypeInferer) :
  GetAttrConstraint_call ctx nec depth target attr value loc inst_loc st
  = let st0 := touch [value] st in
    let self := GetAttrConstraint target attr value loc inst_loc in
    let fmt := "typing of get attribute at {0}" in
    match tv_type (cell_at st value) with
    | None => (Ret tt, set_refine_map (insert target self) st0)
    | Some ty =>
        match resolve_getattr ctx ty attr with
        | None =>
            (Raise (nec fmt [FmtLoc loc]
                      (UntypedAttributeError ty attr (Some inst_loc))), st0)
        | Some attrty =>
            match TypeInferer_add_type ctx depth target attrty (Some loc)
                    false st0 with
            | (Ret _, st1) =>
                (Ret tt, set_refine_map (insert target self) st1)
            | (Raise e, st1) => (Raise (nec fmt [FmtLoc loc] e), st1)
            end
        end
    end.
Proof.
  unfold GetAttrConstraint_call, with_error_context.
  unfold bind at 1. unfold bind at 1. rewrite typevars_getitem_eq.
  unfold TypeVar_get.
  destruct (tv_type (cell_at st value)) as [ty|]; [|done].
  rewrite for_each_one.
  destruct (resolve_getattr ctx ty attr) as [attrty|]; [|done].
  by destruct (TypeInferer_add_type ctx depth target attrty (Some loc) false
                 (touch [value] st)) as [[[]|e] st1].
Qed.

(** X12.  [GetAttrConstraint] raises the untyped-attribute error, at the
    location of the instruction, when the context knows no such attribute
    for the type of the value; it then has written no type and has not
    registered itself as a refiner.  On a normal return it is registered
    as the refiner of its target, also when the value has no type yet. *)
Theorem GetAttrConstraint_call_cases (ctx : Context)
    (nec : string -> list FmtArg -> exn -> exn) (depth : nat)
    (target attr value : string) (loc inst_loc : Loc) (st : TypeInferer) :
  let call :=
    GetAttrConstraint_call ctx nec depth target attr value loc inst_loc st in
  let self := GetAttrConstraint target attr value loc inst_loc in
  (forall ty,
      tv_type (cell_at st value) = Some ty ->
      resolve_getattr ctx ty attr = None ->
      call
      = (Raise (nec "typing of get attribute at {0}" [FmtLoc loc]
                  (UntypedAttributeError ty attr (Some inst_loc))), st)
      /\ refine_map call.2 = refine_map st)
  /\ (tv_type (cell_at st value) = None ->
      call = (Ret tt, set_refine_map (insert target self) (touch [value] st))
      /\ forall n, cell_at call.2 n = cell_at st n)
  /\ (call.1 = Ret tt -> refine_map call.2 !! target = Some self)
  /\ (forall ty attrty,
        tv_type (cell_at st value) = Some ty ->
        resolve_getattr ctx ty attr = Some attrty ->
        typevars call.2
        = typevars (TypeInferer_add_type ctx depth target attrty (Some loc)
                      false st).2).
Proof.
  intros call self. subst call self. rewrite GetAttrConstraint_call_eq.
  cbv zeta.
  split; [|split; [|split]].
  - intros ty Hty Hattr. rewrite Hty, Hattr.
    rewrite (touch_defined [value] st)
      by (constructor; [congruence | done]).
    done.
  - intros ->. split; [done|]. intros n. simpl.
    unfold cell_at; simpl. apply (cell_at_touch [value]).
  - destruct (tv_type (cell_at st value)) as [ty|].
    + destruct (resolve_getattr ctx ty attr) as [attrty|]; [|done].
      destruct (TypeInferer_add_type ctx depth target attrty (Some loc)
                  false (touch [value] st)) as [[[]|e] st1]; [|done].
      intros _. simpl. apply lookup_insert_eq.
    + intros _. simpl. apply lookup_insert_eq.
  - intros ty attrty Hty Hattr. rewrite Hty, Hattr.
    rewrite (touch_defined [value] st)
      by (constructor; [congruence | done]).
    by destruct (TypeInferer_add_type ctx depth target attrty (Some loc)
                   false st) as [[[]|e] st1].
Qed.

Lemma GetAttrConstraint_call_cases_witness :
  GetAttrConstraint_call demo_ctx demo_error_context 50 "m" "append" "p"
    (demo_loc 3) (demo_loc 4) shapes_store
  = (Raise (UntypedAttributeError (Pair int64 float64) "append"
              (Some (demo_loc 4))), shapes_store).
Proof.
  destruct (GetAttrConstraint_call_cases demo_ctx demo_error_context 50 "m"
              "append" "p" (demo_loc 3) (demo_loc 4) shapes_store)
    as [H _].
  apply (H (Pair int64 float64) eq_refl eq_refl).
Defined.

(** X13.  [ArgConstraint] does nothing while the argument has no type.
    An argument of type [Omitted(v)] is typed by the value [v]: the type
    [resolve_value_type(v)] is added to the destination, and if there is
    none the assertion of [add_type] fails; any other type is added as it
    is. *)
Theorem ArgConstraint_call_cases (ctx : Context)
    (nec : string -> list FmtArg -> exn -> exn) (depth : nat)
    (dst src : string) (loc : Loc) (st : TypeInferer) :
  let call := ArgConstraint_call ctx nec depth dst src loc st in
  let fmt := "typing of argument at {0}" in
  let add := fun tp =>
    with_error_context nec fmt [FmtLoc loc]
      (TypeInferer_add_type ctx depth dst tp (Some loc) false) st in
  (tv_type (cell_at st src) = None -> call = (Ret tt, touch [src] st))
  /\ (forall value ty,
        tv_type (cell_at st src) = Some (Omitted value) ->
        resolve_value_type ctx value = Some ty -> call = add ty)
  /\ (forall value,
        tv_type (cell_at st src) = Some (Omitted value) ->
        resolve_value_type ctx value = None ->
        call = (Raise (nec fmt [FmtLoc loc] AssertionError), touch [dst] st))
  /\ (forall ty,
        tv_type (cell_at st src) = Some ty ->
        (forall value, ty <> Omitted value) -> call = add ty).
Proof.
  intros call fmt add. subst call add fmt.
  unfold ArgConstraint_call, with_error_context, bind.
  rewrite typevars_getitem_eq.
  split; [by intros ->|].
  assert (forall ty, tv_type (cell_at st src) = Some ty ->
            touch [src] st = st) as Hst.
  { intros ty Hty. apply touch_defined. constructor; [congruence | done]. }
  split; [|split].
  - intros value ty Hsrc Hres. by rewrite Hsrc, Hres, (Hst _ Hsrc).
  - intros value Hsrc Hres. rewrite Hsrc, Hres, (Hst _ Hsrc).
    by rewrite typevars_getitem_eq.
  - intros ty Hsrc Hno. rewrite Hsrc, (Hst _ Hsrc).
    destruct ty; try done. by destruct (Hno value).
Qed.

(** ** Extending the network *)

Lemma pass_app (ctx : Context) (nec : string -> list FmtArg -> exn -> exn)
    (depth : nat) (cs1 cs2 : list Constraint) (st : TypeInferer) :
  ConstraintNetwork_propagate ctx nec depth (cs1 ++ cs2) st
  = let '(errors1, st1) := ConstraintNetwork_propagate ctx nec depth cs1 st in
    let '(errors2, st2) :=
      ConstraintNetwork_propagate ctx nec depth cs2 st1 in
    (errors1 ++ errors2, st2).
Proof.
  revert st. induction cs1 as [|c cs1 IH]; intros st.
  - rewrite pass_nil. simpl.
    by destruct (ConstraintNetwork_propagate ctx nec depth cs2 st).
  - simpl. rewrite !pass_cons.
    destruct (fire ctx nec depth c st) as [r st1].
    rewrite IH.
    destruct (ConstraintNetwork_propagate ctx nec depth cs1 st1)
      as [errors1 st2].
    cbn [fst snd].
    destruct (ConstraintNetwork_propagate ctx nec depth cs2 st2)
      as [errors2 st3].
    cbn [fst snd]. by rewrite <- app_assoc.
Qed.

(** X14.  A pass over a network to which a constraint was appended is
    the pass over the old network followed, on the store it leaves, by
    the new constraint; its captured error, if any, comes after those of
    the old network.  Appending a constraint changes nothing but the
    network. *)
Theorem pass_after_append (ctx : Context)
    (nec : string -> list FmtArg -> exn -> exn) (depth : nat)
    (constraint : Constraint) (st start : TypeInferer) :
  let st' := ConstraintNetwork_append constraint st in
  let old := ConstraintNetwork_propagate ctx nec depth (constraints st)
               start in
  let new := fire ctx nec depth constraint old.2 in
  constraints st' = constraints st ++ [constraint]
  /\ typevars st' = typevars st /\ refine_map st' = refine_map st
  /\ signatures st' = signatures st /\ calls st' = calls st
  /\ ConstraintNetwork_propagate ctx nec depth (constraints st') start
     = (old.1 ++ capture constraint new.1 [], new.2).
Proof.
  intros st' old new. subst st' old new. simpl constraints.
  repeat (split; [done|]).
  rewrite pass_app.
  destruct (ConstraintNetwork_propagate ctx nec depth (constraints st) start)
    as [errors1 st1].
  rewrite pass_cons. cbn [fst snd].
  destruct (fire ctx nec depth constraint st1) as [r st2].
  rewrite pass_nil. cbn [fst snd]. by rewrite app_nil_r.
Qed.

(** ** Calls to the function being compiled *)

(** X15.  For a recursive callee [resolve_call] never answers [None]: it
    raises the runaway-recursion error when no return variable of the
    matching frame has a type, and what it returns otherwise is a
    signature over the arguments folded by the dispatcher whose return
    type is precise and is the unified type of the typed return
    variables.  For any other callee the answer of the context is handed
    on and the store is not touched. *)
Theorem resolve_call_recursive (ctx : Context) (disp func_id : nat)
    (pos_args : list type) (kw_args : list (string * type))
    (st : TypeInferer) :
  let fnty := FnType (RecursiveCall (Dispatcher disp) func_id) in
  let folded := fold_argument_types ctx disp pos_args kw_args in
  let frame := callstack_match ctx disp folded.2 in
  let cells :=
    if frame_is_self frame
    then map (fun v => tv_type (cell_at st v)) (return_vars st)
    else frame_return_types frame in
  let call := TypeInferer_resolve_call ctx fnty pos_args kw_args st in
  (omap id cells = [] ->
     call.1 = Raise (TypingError RunawayRecursion None))
  /\ (forall r, call.1 = Ret r ->
        exists sig,
          r = Some sig /\ args sig = folded.2
          /\ pysig sig = Some folded.1 /\ recvr sig = None
          /\ is_precise ctx (return_type sig) = true
          /\ unify_types ctx (remove_dups (omap id cells))
             = Some (return_type sig))
  /\ (forall n, cell_at call.2 n = cell_at st n)
  /\ (forall f, (forall dt i, f <> FnType (RecursiveCall dt i)) ->
        TypeInferer_resolve_call ctx f pos_args kw_args st
        = (Ret (resolve_function_type ctx f pos_args kw_args), st)).
Proof.
  intros fnty folded frame cells call.
  assert (call
          = (match remove_dups (omap id cells) with
             | [] => Raise (TypingError RunawayRecursion None)
             | rettypes =>
                 match unify_types ctx rettypes with
                 | Some unified =>
                     if is_precise ctx unified
                     then Ret (Some {| return_type := unified;
                                       args := folded.2; recvr := None;
                                       pysig := Some folded.1 |})
                     else Raise (TypingError (CannotUnifyReturn rettypes) None)
                 | None => Raise (TypingError (CannotUnifyReturn rettypes) None)
                 end
             end,
             if frame_is_self frame then touch (return_vars st) st else st))
    as Heq.
  { subst call cells frame folded fnty. unfold TypeInferer_resolve_call.
    destruct (fold_argument_types ctx disp pos_args kw_args)
      as [pysig0 args0]. cbn [fst snd].
    unfold bind at 1.
    destruct (frame_is_self (callstack_match ctx disp args0)).
    - unfold bind at 1. rewrite map_M_getitem. unfold ret at 1.
      rewrite map_map.
      destruct (remove_dups _) as [|t ts]; [done|].
      unfold bind, TypeInferer_unify_return_types.
      destruct (unify_types ctx (t :: ts)) as [u|]; [|done].
      by destruct (is_precise ctx u).
    - unfold ret at 1.
      destruct (remove_dups _) as [|t ts]; [done|].
      unfold bind, TypeInferer_unify_return_types.
      destruct (unify_types ctx (t :: ts)) as [u|]; [|done].
      by destruct (is_precise ctx u). }
  rewrite Heq. cbn [fst snd].
  split; [by intros ->|]. split; [|split].
  - intros r.
    destruct (remove_dups (omap id cells)) as [|t ts]; [done|].
    destruct (unify_types ctx (t :: ts)) as [u|]; [|done].
    destruct (is_precise ctx u) eqn:Hp; [|done].
    intros [= <-]. by eexists.
  - intros n. destruct (frame_is_self frame); [apply cell_at_touch | done].
  - intros f Hf. unfold TypeInferer_resolve_call.
    destruct f as [f|op]; [|done]. destruct f; try done.
    by destruct (Hf f func_id0).
Qed.

(** ** Seeding *)

Lemma TypeInferer_lock_type_eq (ctx : Context) (var : string) (T : type)
    (loc : option Loc) (st : TypeInferer) :
  TypeInferer_lock_type ctx var T loc st
  = ((TypeVar_lock ctx (cell_at st var) T loc).1,
     set_typevars (insert var (TypeVar_lock ctx (cell_at st var) T loc).2) st).
Proof.
  unfold TypeInferer_lock_type, bind. rewrite typevars_getitem_eq.
  destruct (TypeVar_lock ctx (cell_at st var) T loc) as [r tv'].
  unfold bind, typevar_update, lift. by rewrite update_after_touch.
Qed.

Lemma seed_loop_ok (ctx : Context) (typ : type) (vs : list string) :
  forall st,
    NoDup vs ->
    Forall (fun v => (TypeVar_lock ctx (cell_at st v) typ None).1 = Ret tt)
      vs ->
    exists st',
      for_each vs (fun var => TypeInferer_lock_type ctx var typ None) st
      = (Ret tt, st')
      /\ (forall v, v ∈ vs ->
            cell_at st' v = (TypeVar_lock ctx (cell_at st v) typ None).2)
      /\ (forall n, n ∉ vs -> cell_at st' n = cell_at st n).
Proof.
  induction vs as [|v vs IH]; intros st Hnd Hall.
  - exists st. split; [done|]. split; [by intros v Hv%elem_of_nil | done].
  - apply NoDup_cons in Hnd as [Hv Hnd].
    apply Forall_cons in Hall as [Hok Hall].
    set (st1 := set_typevars
                  (insert v (TypeVar_lock ctx (cell_at st v) typ None).2) st).
    assert (forall n, n <> v -> cell_at st1 n = cell_at st n) as Hother.
    { intros n Hn. unfold st1. rewrite cell_at_update.
      by rewrite decide_False by done. }
    destruct (IH st1 Hnd) as (st' & Hrun & Hin & Hout).
    { rewrite Forall_forall in Hall. apply Forall_forall.
      intros u Hu. rewrite Hother; [by apply Hall|]. by intros ->. }
    exists st'. simpl. unfold bind at 1.
    rewrite TypeInferer_lock_type_eq, Hok. fold st1.
    split; [done|]. split.
    + intros u [->|Hu]%elem_of_cons.
      * rewrite Hout by done. unfold st1. rewrite cell_at_update.
        by rewrite decide_True.
      * rewrite Hin by done. rewrite Hother; [done|]. by intros ->.
    + intros n Hn. apply not_elem_of_cons in Hn as [Hn1 Hn2].
      rewrite Hout by done. by apply Hother.
Qed.

Lemma seed_loop_fails (ctx : Context) (typ : type) (vs : list string) :
  forall st,
    Forall (fun v => (TypeVar_lock ctx (cell_at st v) typ None).1 = Ret tt
                     \/ tv_locked (cell_at st v) = true) vs ->
    ~ NoDup vs \/ Exists (fun v => tv_locked (cell_at st v) = true) vs ->
    (for_each vs (fun var => TypeInferer_lock_type ctx var typ None) st).1
    = Raise AssertionError.
Proof.
  induction vs as [|v vs IH]; intros st Hall Hbad.
  - destruct Hbad as [Hnd | Hex]; [destruct Hnd; constructor|].
    by apply Exists_nil in Hex.
  - apply Forall_cons in Hall as [Hv Hall].
    simpl. unfold bind at 1. rewrite TypeInferer_lock_type_eq.
    destruct (tv_locked (cell_at st v)) eqn:Hl.
    { by rewrite (proj2 (TypeVar_lock_locked ctx _ typ None) Hl). }
    destruct Hv as [Hok | ?]; [|done].
    rewrite Hok.
    set (st1 := set_typevars
                  (insert v (TypeVar_lock ctx (cell_at st v) typ None).2) st).
    assert (forall n, n <> v -> cell_at st1 n = cell_at st n) as Hother.
    { intros n Hn. unfold st1. rewrite cell_at_update.
      by rewrite decide_False by done. }
    assert (tv_locked (cell_at st1 v) = true) as Hlv.
    { unfold st1. rewrite cell_at_update, decide_True by done.
      by apply TypeVar_lock_locked. }
    apply IH.
    + rewrite Forall_forall in Hall. apply Forall_forall. intros u Hu.
      destruct (decide (u = v)) as [->|Hne]; [by right|].
      rewrite Hother by done. by apply Hall.
    + destruct (decide (v ∈ vs)) as [Hin | Hnin].
      { right. apply Exists_exists. by exists v. }
      destruct Hbad as [Hnd | Hex].
      * left. intros Hnd'. apply Hnd. by constructor.
      * right. apply Exists_cons in Hex as [? | Hex]; [congruence|].
        apply Exists_exists in Hex as (u & Hu & Hul).
        apply Exists_exists. exists u. split; [done|].
        destruct (decide (u = v)) as [->|Hne]; [done|].
        by rewrite Hother.
Qed.

(** X16.  [seed_return] locks every return variable to the seeded type
    when the return variables are distinct and each can be locked; the
    other cells are left alone.  It fails on the assertion of [lock], and
    stops there, when a return variable is already locked or when two
    return instructions return the same variable. *)
Theorem seed_return_cases (ctx : Context) (typ : type) (st : TypeInferer) :
  let seeded := TypeInferer_seed_return ctx typ st in
  let lockable := fun v =>
    (TypeVar_lock ctx (cell_at st v) typ None).1 = Ret tt in
  (NoDup (return_vars st) -> Forall lockable (return_vars st) ->
     seeded.1 = Ret tt
     /\ (forall v, v ∈ return_vars st ->
           cell_at seeded.2 v = (TypeVar_lock ctx (cell_at st v) typ None).2
           /\ tv_type (cell_at seeded.2 v) = Some typ
           /\ tv_locked (cell_at seeded.2 v) = true)
     /\ (forall n, n ∉ return_vars st -> cell_at seeded.2 n = cell_at st n))
  /\ (Forall (fun v => lockable v \/ tv_locked (cell_at st v) = true)
        (return_vars st) ->
      ~ NoDup (return_vars st)
      \/ Exists (fun v => tv_locked (cell_at st v) = true) (return_vars st) ->
      seeded.1 = Raise AssertionError).
Proof.
  intros seeded lockable. subst seeded lockable.
  unfold TypeInferer_seed_return. split.
  - intros Hnd Hall.
    destruct (seed_loop_ok ctx typ (return_vars st) st Hnd Hall)
      as (st' & -> & Hin & Hout).
    split; [done|]. split; [|done].
    intros v Hv. simpl. rewrite (Hin v Hv). split; [done|].
    rewrite Forall_forall in Hall.
    destruct (TypeVar_lock_locked ctx (cell_at st v) typ None) as [Hret _].
    by destruct (Hret (Hall v Hv)) as (-> & _ & ->).
  - apply seed_loop_fails.
Qed.

(** X17.  [seed_argument] locks the cell ["arg." + name] of an unseeded
    argument to its type and records the mangled name under the index;
    different arguments get different cells, and seeding the same
    argument again fails on the assertion of [lock].  An [ArgConstraint]
    fired afterwards on that cell adds the seeded type to its
    destination (for a type that is not [Omitted]). *)
Theorem seed_argument_then_fire (ctx : Context)
    (nec : string -> list FmtArg -> exn -> exn) (depth : nat)
    (arg_names : gmap nat string) (name : string) (index : nat)
    (typ : type) (dst : string) (loc : Loc) (st : TypeInferer) :
  tv_locked (cell_at st (mangle_arg_name name)) = false ->
  tv_type (cell_at st (mangle_arg_name name)) = None ->
  let arg := mangle_arg_name name in
  let seeded := TypeInferer_seed_argument ctx arg_names name index typ st in
  seeded.1 = Ret (<[index := arg]> arg_names)
  /\ tv_type (cell_at seeded.2 arg) = Some typ
  /\ tv_locked (cell_at seeded.2 arg) = true
  /\ (forall n, n <> arg -> cell_at seeded.2 n = cell_at st n)
  /\ (forall other, mangle_arg_name other = arg -> other = name)
  /\ (forall names' index' typ',
        (TypeInferer_seed_argument ctx names' name index' typ' seeded.2).1
        = Raise AssertionError)
  /\ ((forall v, typ <> Omitted v) ->
      ArgConstraint_call ctx nec depth dst arg loc seeded.2
      = with_error_context nec "typing of argument at {0}" [FmtLoc loc]
          (TypeInferer_add_type ctx depth dst typ (Some loc) false)
          seeded.2).
Proof.
  intros Hl Hty arg seeded.
  assert (forall names i T s,
            TypeInferer_seed_argument ctx names name i T s
            = match (TypeVar_lock ctx (cell_at s arg) T None).1 with
              | Ret _ =>
                  (Ret (<[i := arg]> names),
                   set_typevars
                     (insert arg (TypeVar_lock ctx (cell_at s arg) T None).2)
                     s)
              | Raise e =>
                  (Raise e,
                   set_typevars
                     (insert arg (TypeVar_lock ctx (cell_at s arg) T None).2)
                     s)
              end) as Hseed.
  { intros names i T s.
    unfold TypeInferer_seed_argument, TypeInferer_seed_type, bind.
    rewrite TypeInferer_lock_type_eq. fold arg.
    by destruct (TypeVar_lock ctx (cell_at s arg) T None).1. }
  assert (TypeVar_lock ctx (cell_at st arg) typ None
          = (Ret tt,
             match tv_define_loc (cell_at st arg) with
             | None =>
                 set_tv_define_loc
                   (set_tv_locked (set_tv_type (cell_at st arg) (Some typ))
                      true) None
             | Some _ =>
                 set_tv_locked (set_tv_type (cell_at st arg) (Some typ)) true
             end)) as Hlock.
  { unfold TypeVar_lock. fold arg in Hl, Hty. by rewrite Hl, Hty. }
  assert (tv_type (cell_at seeded.2 arg) = Some typ
          /\ tv_locked (cell_at seeded.2 arg) = true) as [Ht' Hl'].
  { subst seeded. rewrite Hseed, Hlock. cbn [fst snd].
    rewrite cell_at_update, decide_True by done.
    by destruct (tv_define_loc (cell_at st arg)). }
  split; [by subst seeded; rewrite Hseed, Hlock|].
  split; [done|]. split; [done|]. split.
  { intros n Hn. subst seeded. rewrite Hseed, Hlock. cbn [fst snd].
    by rewrite cell_at_update, decide_False. }
  split.
  { intros other Hother. unfold arg, mangle_arg_name in Hother.
    by apply (inj (String.app "arg.")) in Hother. }
  split.
  { intros names' index' typ'. rewrite Hseed.
    by rewrite (proj2 (TypeVar_lock_locked ctx _ typ' None) Hl'). }
  intros Hno. unfold ArgConstraint_call, with_error_context, bind.
  rewrite typevars_getitem_eq.
  assert (touch [arg] seeded.2 = seeded.2) as ->.
  { apply touch_defined. constructor; [congruence | done]. }
  rewrite Ht'. destruct typ; try done. by destruct (Hno value).
Qed.

Lemma seed_argument_then_fire_witness :
  tv_type
    (cell_at
       (ArgConstraint_call demo_ctx demo_error_context 50 "n" "arg.n"
          (demo_loc 1)
          (TypeInferer_seed_argument demo_ctx ∅ "n" 0 int64
             (fresh_inferer [] [] [])).2).2 "n")
  = Some int64.
Proof.
  destruct (seed_argument_then_fire demo_ctx demo_error_context 50 ∅ "n" 0
              int64 "n" (demo_loc 1) (fresh_inferer [] [] []) eq_refl
              eq_refl) as (_ & _ & _ & _ & _ & _ & H).
  change (mangle_arg_name "n") with "arg.n" in H.
  rewrite H by discriminate. by vm_compute.
Defined.

Lemma seed_return_cases_witness :
  (TypeInferer_seed_return demo_ctx int64
     (fresh_inferer [] [] ["r"; "r"])).1
  = Raise AssertionError
  /\ tv_type
       (cell_at
          (TypeInferer_seed_return demo_ctx int64
             (fresh_inferer [] [] ["r"; "q"])).2 "q")
     = Some int64.
Proof.
  split.
  - apply (proj2 (seed_return_cases demo_ctx int64
                    (fresh_inferer [] [] ["r"; "r"]))).
    + repeat constructor.
    + left. intros Hnd. apply NoDup_cons in Hnd as [Hr _].
      apply Hr. by left.
  - apply (proj1 (seed_return_cases demo_ctx int64
                    (fresh_inferer [] [] ["r"; "q"]))).
    + apply NoDup_cons. split; [|apply NoDup_singleton].
      by intros [= ?]%list_elem_of_singleton.
    + by repeat constructor.
    + apply elem_of_cons. right. apply elem_of_cons. by left.
Defined.

(** ** The unify phase *)

Lemma check_vars_app ctx st d a b :
  check_vars ctx st d (a ++ b)
  = match check_vars ctx st d a with
    | inl e => inl e
    | inr d' => check_vars ctx st d' b
    end.
Proof.
  revert d. induction a as [|v a IH]; intros d; [done|].
  cbn [app check_vars]. destruct (check_var ctx st d v); [done|apply IH].
Qed.

Lemma check_vars_inr ctx st d l d' :
  check_vars ctx st d l = inr d' ->
  Forall (fun v => exists t, tv_type (cell_at st v) = Some t
                             /\ is_precise ctx t = true) l
  /\ forall n, d' !! n
       = if decide (n ∈ l) then tv_type (cell_at st n) else d !! n.
Proof.
  revert d. induction l as [|v l IH]; intros d H.
  - injection H as <-. split; [constructor|]. intros n.
    destruct (decide _) as [Hin|]; [|done]. by apply elem_of_nil in Hin.
  - cbn [check_vars] in H. unfold check_var in H.
    destruct (tv_type (cell_at st v)) as [tp|] eqn:Htp; [|done].
    destruct (is_precise ctx tp) eqn:Hp; [|done].
    apply IH in H as [Hall Hd]. split.
    + constructor; [|done]. by exists tp.
    + intros n. rewrite Hd.
      destruct (decide (n ∈ l)) as [Hin|Hin].
      * rewrite decide_True; [done|]. by apply elem_of_cons; right.
      * destruct (decide (n = v)) as [->|Hne].
        -- rewrite lookup_insert_eq, decide_True; [done|].
           apply elem_of_cons. by left.
        -- rewrite lookup_insert_ne by done.
           rewrite decide_False; [done|].
           intros [?|?]%elem_of_cons; done.
Qed.

Lemma typevars_keys_elem (st : TypeInferer) (n : string) :
  n ∈ (map_to_list (typevars st)).*1 <-> is_Some (typevars st !! n).
Proof.
  rewrite list_elem_of_fmap. split.
  - intros [[k tv] [-> H]]. apply elem_of_map_to_list in H. by eexists.
  - intros [tv H]. exists (n, tv). split; [done|].
    by apply elem_of_map_to_list.
Qed.

Lemma unify_order_elem isalpha0 st n :
  n ∈ unify_order isalpha0 st <-> is_Some (typevars st !! n).
Proof.
  unfold unify_order. rewrite elem_of_app, !merge_sort_Permutation.
  rewrite !list_elem_of_filter, typevars_keys_elem.
  destruct (isalpha0 n); intuition congruence.
Qed.

Lemma get_function_types_store (st st' : TypeInferer)
    (r : Outcome (gmap nat (option Signature))) :
  TypeInferer_get_function_types st = (r, st') ->
  typevars st' = typevars st /\ return_vars st' = return_vars st.
Proof.
  unfold TypeInferer_get_function_types, bind.
  assert (forall l s o s',
    for_each l (fun '(call, constraint) =>
       bind (get_call_signature constraint) (fun sig st' =>
         (Ret tt, set_calltypes (insert call sig) st'))) s = (o, s') ->
    typevars s' = typevars s /\ return_vars s' = return_vars s) as Hloop.
  { induction l as [|[call c] l IH]; intros s o s' H.
    - by injection H as _ <-.
    - cbn [for_each] in H. unfold bind at 1 in H. unfold bind at 1 in H.
      assert (exists x, get_call_signature c s = (x, s)) as [x Hx].
      { unfold get_call_signature.
        destruct c; try destruct (signatures s !! _);
          try destruct index_var; by eexists. }
      rewrite Hx in H. destruct x as [sig|e].
      + apply IH in H as [-> ->]. done.
      + by injection H as _ <-. }
  destruct (for_each _ _ st) as [[[]|e] s1] eqn:Hfe; intros H;
    injection H as _ <-; by apply Hloop in Hfe.
Qed.

Lemma cell_at_lookup (st : TypeInferer) (n : string) (tv : TypeVar) :
  typevars st !! n = Some tv -> cell_at st n = tv.
Proof. unfold cell_at. by intros ->. Qed.

Lemma unify_return_types_cases ctx tys st t :
  (TypeInferer_unify_return_types ctx tys st).1 = Ret t ->
  (tys = [] /\ t = none)
  \/ (tys <> [] /\ unify_types ctx tys = Some t /\ is_precise ctx t = true).
Proof.
  unfold TypeInferer_unify_return_types.
  destruct tys as [|a tys]; [intros [= <-]; by left|].
  destruct (unify_types ctx (a :: tys)) as [u|]; [|done].
  destruct (is_precise ctx u) eqn:Hp; [|done].
  intros [= <-]. by right.
Qed.

(** X18.  When [unify] returns, the cells are those it started from,
    every variable of the inferer has a defined, precise type and
    [typdict] maps exactly these variables to their types; without
    generator information the return type is [none] when no return
    variable exists and otherwise the precise unification of the
    distinct types of the return variables. *)
Theorem TypeInferer_unify_success (ctx : Context)
    (isalpha0 : string -> bool) (arg_names : gmap nat string)
    (generator_info : option GeneratorInfo) (st st' : TypeInferer)
    (typdict : gmap string type) (retty : ReturnType)
    (fntys : gmap nat (option Signature)) :
  TypeInferer_unify ctx isalpha0 arg_names generator_info st
    = (inr (typdict, retty, fntys), st') ->
  typevars st' = typevars st
  /\ (forall n tv, typevars st !! n = Some tv ->
        exists t, tv_type tv = Some t /\ is_precise ctx t = true
                  /\ typdict !! n = Some t)
  /\ (forall n, typevars st !! n = None -> typdict !! n = None)
  /\ (generator_info = None ->
        exists t tys, retty = PlainReturn t
          /\ typemap_getitems typdict (return_vars st) = inr tys
          /\ (tys = [] -> t = none)
          /\ (tys <> [] ->
                unify_types ctx (remove_dups tys) = Some t
                /\ is_precise ctx t = true)).
Proof.
  unfold TypeInferer_unify. case_bool_decide as Hempty; [done|].
  destruct (check_vars ctx st ∅ (unify_order isalpha0 st))
    as [e|d] eqn:Hcheck; [done|].
  apply check_vars_inr in Hcheck as [Hall Hd].
  unfold TypeInferer_get_return_type.
  destruct (typemap_getitems d (return_vars st)) as [e|tys] eqn:Hget;
    [done|].
  destruct (TypeInferer_unify_return_types ctx (remove_dups tys) st).1
    as [t|e] eqn:Hret; [|done].
  destruct (TypeInferer_get_function_types st) as [[m|e] st1] eqn:Hfn;
    [|done].
  apply get_function_types_store in Hfn as [Htv _].
  assert (forall r, (inr (d, r, m), st1)
      = (inr (typdict, retty, fntys), st') :> (UnifyError + _) * _ ->
    typevars st' = typevars st
    /\ (forall n tv, typevars st !! n = Some tv ->
          exists t, tv_type tv = Some t /\ is_precise ctx t = true
                    /\ typdict !! n = Some t)
    /\ (forall n, typevars st !! n = None -> typdict !! n = None)) as Hmain.
  { intros r [= -> _ _ ->]. split; [done|]. split.
    - intros n tv Hn.
      assert (n ∈ unify_order isalpha0 st) as Hin
        by (apply unify_order_elem; by eexists).
      rewrite Forall_forall in Hall. specialize (Hall n Hin).
      destruct Hall as (tp & Htp & Hp).
      rewrite (cell_at_lookup _ _ _ Hn) in Htp.
      exists tp. split; [done|]. split; [done|].
      rewrite Hd, decide_True by done.
      by rewrite (cell_at_lookup _ _ _ Hn).
    - intros n Hn. rewrite Hd, decide_False; [done|].
      rewrite unify_order_elem, Hn. by intros [? ?]. }
  destruct generator_info as [gi|].
  - destruct (TypeInferer_get_generator_type _ _ _ _) as [e|r]; [done|].
    intros H. destruct (Hmain _ H) as (? & ? & ?). done.
  - intros H. destruct (Hmain _ H) as (? & ? & ?).
    injection H as -> <- _ _.
    repeat split; [done..|]. intros _. exists t, tys.
    apply unify_return_types_cases in Hret as [[Hnil ->]|(Hne & Hu & Hp)].
    + split; [done|]. split; [done|]. split; [done|].
      intros Hne. destruct tys as [|a tys]; [done|].
      exfalso. assert (a ∈ remove_dups (a :: tys)) as Ha.
      { apply elem_of_remove_dups, elem_of_cons. by left. }
      rewrite Hnil in Ha. by apply elem_of_nil in Ha.
    + split; [done|]. split; [done|]. split; [|done].
      intros ->. done.
Qed.

Lemma check_var_indep ctx st d d' v e :
  check_var ctx st d v = inl e -> check_var ctx st d' v = inl e.
Proof.
  unfold check_var. destruct (tv_type (cell_at st v)) as [tp|]; [|done].
  by destruct (is_precise ctx tp).
Qed.

Lemma check_vars_passes ctx st d l :
  Forall (fun u => forall e, check_var ctx st ∅ u <> inl e) l ->
  exists d', check_vars ctx st d l = inr d'.
Proof.
  revert d. induction l as [|u l IH]; intros d Hl; [by eexists|].
  apply Forall_cons in Hl as [Hu Hl]. cbn [check_vars].
  destruct (check_var ctx st d u) as [e|d1] eqn:Hc; [|apply IH, Hl].
  exfalso. eapply Hu, check_var_indep, Hc.
Qed.

Lemma sorted_prefix_passes ctx st (a b : list string) (v : string) :
  StronglySorted String.le (a ++ v :: b) ->
  NoDup (a ++ v :: b) ->
  (forall u e, u ∈ a -> check_var ctx st ∅ u = inl e -> String.le v u) ->
  Forall (fun u => forall e, check_var ctx st ∅ u <> inl e) a.
Proof.
  intros Hsorted Hnd Hfirst. apply Forall_forall. intros u Hu e Hc.
  assert (String.le u v) as Huv.
  { eapply (StronglySorted_app_1_elem_of _ _ _ _ _ Hsorted); [done|].
    apply elem_of_cons. by left. }
  assert (u = v) as ->
    by (apply (anti_symm String.le); [done|]; by eapply Hfirst).
  apply NoDup_app in Hnd as (_ & Hdisj & _).
  apply (Hdisj v Hu). apply elem_of_cons. by left.
Qed.

Lemma check_vars_first_failure ctx st d (a b : list string) (v : string) e :
  Forall (fun u => forall e, check_var ctx st ∅ u <> inl e) a ->
  check_var ctx st ∅ v = inl e ->
  check_vars ctx st d (a ++ v :: b) = inl e.
Proof.
  intros Ha Hv. rewrite check_vars_app.
  destruct (check_vars_passes ctx st d a Ha) as [d' ->].
  cbn [check_vars]. by rewrite (check_var_indep _ _ _ d' _ _ Hv).
Qed.

(** X19.  [unify] checks the user-visible variables before the
    temporaries, each group in the order of the names: when no name is
    empty and [v] is the first variable in that order whose check fails,
    [unify] raises the error of [v] and leaves the store as it is. *)
Theorem unify_reports_first_variable (ctx : Context)
    (isalpha0 : string -> bool) (arg_names : gmap nat string)
    (generator_info : option GeneratorInfo) (st : TypeInferer)
    (v : string) (e : UnifyError) :
  typevars st !! "" = None ->
  is_Some (typevars st !! v) ->
  check_var ctx st ∅ v = inl e ->
  (forall u e', is_Some (typevars st !! u) ->
     check_var ctx st ∅ u = inl e' ->
     (isalpha0 v = true /\ isalpha0 u = false)
     \/ (isalpha0 u = isalpha0 v /\ String.le v u)) ->
  TypeInferer_unify ctx isalpha0 arg_names generator_info st = (inl e, st).
Proof.
  intros Hempty Hv He Hfirst. unfold TypeInferer_unify.
  rewrite bool_decide_eq_false_2
    by (rewrite typevars_keys_elem, Hempty; by intros [? ?]).
  assert (check_vars ctx st ∅ (unify_order isalpha0 st) = inl e) as ->;
    [|done].
  unfold unify_order.
  set (keys := (map_to_list (typevars st)).*1).
  assert (NoDup keys) as Hnd by apply NoDup_fst_map_to_list.
  assert (forall (P : string -> Prop) `{!forall k, Decision (P k)},
    NoDup (merge_sort String.le (filter P keys))
    /\ StronglySorted String.le (merge_sort String.le (filter P keys)))
    as Hs.
  { intros P HP. split.
    - rewrite merge_sort_Permutation. by apply NoDup_filter.
    - apply StronglySorted_merge_sort; apply _. }
  assert (forall (P : string -> Prop) `{!forall k, Decision (P k)} u,
    u ∈ merge_sort String.le (filter P keys)
    <-> P u /\ is_Some (typevars st !! u)) as Hel.
  { intros P HP u. unfold keys.
    by rewrite merge_sort_Permutation, list_elem_of_filter,
               typevars_keys_elem. }
  destruct (isalpha0 v) eqn:Halpha.
  - assert (v ∈ merge_sort String.le
                  (filter (fun k => isalpha0 k = true) keys)) as Hin
      by (by apply Hel).
    apply list_elem_of_split in Hin as (a & b & Hab).
    destruct (Hs (fun k => isalpha0 k = true) _) as [Hnd1 Hsorted].
    rewrite Hab in Hnd1, Hsorted. rewrite Hab, <- app_assoc.
    cbn [app]. apply check_vars_first_failure; [|done].
    apply (sorted_prefix_passes _ _ a b v); [done..|].
    intros u e' Hu Hc.
    assert (u ∈ merge_sort String.le
                  (filter (fun k => isalpha0 k = true) keys)) as Hu'
      by (rewrite Hab; apply elem_of_app; by left).
    apply Hel in Hu' as [Hua Huk].
    destruct (Hfirst u e' Huk Hc) as [[_ ?]|[_ ?]]; [congruence|done].
  - assert (v ∈ merge_sort String.le
                  (filter (fun k => isalpha0 k = false) keys)) as Hin
      by (by apply Hel).
    apply list_elem_of_split in Hin as (a & b & Hab).
    destruct (Hs (fun k => isalpha0 k = false) _) as [Hnd1 Hsorted].
    rewrite Hab in Hnd1, Hsorted. rewrite Hab, app_assoc.
    apply check_vars_first_failure; [|done].
    apply Forall_app. split.
    + apply Forall_forall. intros u Hu e' Hc.
      apply Hel in Hu as [Hua Huk].
      destruct (Hfirst u e' Huk Hc) as [[? _]|[? _]]; congruence.
    + apply (sorted_prefix_passes _ _ a b v); [done..|].
      intros u e' Hu Hc.
      assert (u ∈ merge_sort String.le
                    (filter (fun k => isalpha0 k = false) keys)) as Hu'
        by (rewrite Hab; apply elem_of_app; by left).
      apply Hel in Hu' as [Hua Huk].
      destruct (Hfirst u e' Huk Hc) as [[? _]|[_ ?]]; [congruence|done].
Qed.

Lemma typemap_getitems_error typemap names e :
  typemap_getitems typemap names = inl e ->
  exists name, e = TypemapKeyError name /\ name ∈ names
               /\ typemap !! name = None.
Proof.
  induction names as [|n names IH]; [done|]. cbn [typemap_getitems].
  destruct (typemap !! n) eqn:Hn.
  - destruct (typemap_getitems typemap names) as [e'|ts]; [|done].
    intros [= <-]. destruct (IH eq_refl) as (name & -> & Hin & Hnone).
    exists name. split; [done|]. split; [|done].
    apply elem_of_cons. by right.
  - intros [= <-]. exists n. split; [done|]. split; [|done].
    apply elem_of_cons. by left.
Qed.

Lemma typemap_getitems_nil typemap names :
  typemap_getitems typemap names = inr [] -> names = [].
Proof.
  destruct names as [|n names]; [done|]. cbn [typemap_getitems].
  destruct (typemap !! n); [|done].
  by destruct (typemap_getitems typemap names).
Qed.

Lemma fill_arg_types (typdict : gmap string type)
    (l : list (nat * string)) (acc : list (option type)) :
  NoDup l.*1 ->
  match
    fold_left
      (fun (acc : UnifyError + list (option type)) (item : nat * string) =>
         match acc with
         | inl e => inl e
         | inr arg_types =>
             match typdict !! item.2 with
             | None => inl (TypemapKeyError item.2)
             | Some t =>
                 if bool_decide (item.1 < length arg_types)
                 then inr (<[item.1 := Some t]> arg_types)
                 else inl (ArgIndexError item.1)
             end
         end) l (inr acc)
  with
  | inr res =>
      length res = length acc
      /\ (forall i name, (i, name) ∈ l ->
            exists t, typdict !! name = Some t
                      /\ res !! i = Some (Some t))
      /\ (forall i, i ∉ l.*1 -> res !! i = acc !! i)
  | inl (ArgIndexError i) =>
      exists name, (i, name) ∈ l /\ length acc <= i
  | inl (TypemapKeyError name) =>
      name ∈ l.*2 /\ typdict !! name = None
  | inl _ => False
  end.
Proof.
  revert acc. induction l as [|[i name] l IH]; intros acc Hnd.
  - cbn. split; [done|]. split; [|done]. intros i name Hin.
    by apply elem_of_nil in Hin.
  - cbn [fold_left fst snd]. cbn [fmap list_fmap fst] in Hnd.
    apply NoDup_cons in Hnd as [Hi Hnd].
    assert (forall e, fold_left
      (fun (acc : UnifyError + list (option type)) (item : nat * string) =>
         match acc with
         | inl e => inl e
         | inr arg_types =>
             match typdict !! item.2 with
             | None => inl (TypemapKeyError item.2)
             | Some t =>
                 if bool_decide (item.1 < length arg_types)
                 then inr (<[item.1 := Some t]> arg_types)
                 else inl (ArgIndexError item.1)
             end
         end) l (inl e) = inl e) as Hinl.
    { intros e. clear. induction l as [|x l IH]; [done|]. apply IH. }
    destruct (typdict !! name) as [t|] eqn:Hname.
    + case_bool_decide as Hlt.
      * specialize (IH (<[i := Some t]> acc) Hnd).
        destruct (fold_left _ l _) as [[]|res].
        all: try done.
        -- destruct IH as [Hin Hnone]. split; [|done].
           cbn. apply elem_of_cons. by right.
        -- destruct IH as (nm & Hin & Hlen).
           rewrite length_insert in Hlen.
           exists nm. split; [|done]. apply elem_of_cons. by right.
        -- destruct IH as (Hlen & Hset & Hkeep).
           rewrite length_insert in Hlen. split; [done|]. split.
           ++ intros j nm [[= -> ->]|Hin]%elem_of_cons.
              ** exists t. split; [done|]. rewrite Hkeep by done.
                 by apply list_lookup_insert_eq.
              ** by apply Hset.
           ++ intros j Hj. cbn in Hj.
              apply not_elem_of_cons in Hj as [Hne Hj].
              rewrite Hkeep by done.
              by apply list_lookup_insert_ne.
      * rewrite Hinl. exists name. split; [|lia].
        apply elem_of_cons. by left.
    + rewrite Hinl. split; [|done]. cbn. apply elem_of_cons. by left.
Qed.

(** X20.  [get_generator_type]: a generator type has one argument type
    per entry of [arg_names], at the entry's index, the types of the
    state variables, and the unification of the types yielded at the
    yield points, of which there is at least one.  An index beyond the
    number of arguments and a name [typdict] lacks are errors of the
    list and of the dictionary; no yield point, or yield types that do
    not unify, are typing errors. *)
Theorem get_generator_type_cases (ctx : Context)
    (arg_names : gmap nat string) (gi : GeneratorInfo)
    (typdict : gmap string type) :
  match TypeInferer_get_generator_type ctx arg_names gi typdict with
  | inr (GeneratorReturn yield_type arg_types state_types) =>
      length arg_types = size arg_names
      /\ (forall i name, arg_names !! i = Some name ->
            exists t, typdict !! name = Some t
                      /\ arg_types !! i = Some (Some t))
      /\ typemap_getitems typdict (state_vars gi) = inr state_types
      /\ exists yield_types,
           typemap_getitems typdict (yield_points gi) = inr yield_types
           /\ yield_points gi <> []
           /\ unify_types ctx yield_types = Some yield_type
  | inr (PlainReturn _) => False
  | inl (ArgIndexError i) => is_Some (arg_names !! i) /\ size arg_names <= i
  | inl (TypemapKeyError name) => typdict !! name = None
  | inl GeneratorDoesNotYield => yield_points gi = []
  | inl (GeneratorCannotUnify yield_types) =>
      typemap_getitems typdict (yield_points gi) = inr yield_types
      /\ unify_types ctx yield_types = None
  | inl _ => False
  end.
Proof.
  unfold TypeInferer_get_generator_type.
  pose proof (fill_arg_types typdict (map_to_list arg_names)
                (replicate (size arg_names) None)
                (NoDup_fst_map_to_list _)) as Hfill.
  destruct (fold_left _ _ _) as [e|arg_types].
  - destruct e; try done.
    + tauto.
    + destruct Hfill as (name & Hin & Hlen).
      apply elem_of_map_to_list in Hin. rewrite length_replicate in Hlen.
      split; [by eexists|done].
  - destruct Hfill as (Hlen & Hset & _). rewrite length_replicate in Hlen.
    destruct (typemap_getitems typdict (state_vars gi))
      as [e|state_types] eqn:Hstate.
    { apply typemap_getitems_error in Hstate as (n & -> & _ & Hn). done. }
    destruct (typemap_getitems typdict (yield_points gi))
      as [e|yield_types] eqn:Hyield.
    { apply typemap_getitems_error in Hyield as (n & -> & _ & Hn). done. }
    destruct yield_types as [|y ys].
    { by apply typemap_getitems_nil in Hyield. }
    destruct (unify_types ctx (y :: ys)) as [yield_type|] eqn:Hu; [|done].
    split; [done|]. split.
    + intros i name Hin. apply Hset. by apply elem_of_map_to_list.
    + split; [done|]. exists (y :: ys). split; [done|]. split; [|done].
      intros Hnil. rewrite Hnil in Hyield. done.
Qed.

Lemma TypeInferer_unify_success_witness :
  exists typdict,
    (TypeInferer_unify demo_ctx starts_alpha ∅ None unify_store).1
    = inr (typdict, PlainReturn int64, ∅)
    /\ typdict !! "x" = Some int64 /\ typdict !! "y" = None.
Proof.
  assert (TypeInferer_unify demo_ctx starts_alpha ∅ None unify_store
          = (inr (<["x" := int64]> {["$0.1" := int64]},
                  PlainReturn int64, ∅), unify_store)) as H
    by (vm_compute; reflexivity).
  eexists. split; [by rewrite H|].
  destruct (TypeInferer_unify_success _ _ _ _ _ _ _ _ _ H)
    as (_ & Hsome & Hnone & _).
  split.
  - destruct (Hsome "x" (cell_of "x" int64) eq_refl) as (t & Ht & _ & Hx).
    injection Ht as <-. exact Hx.
  - by apply Hnone.
Defined.

Lemma unify_reports_first_variable_witness :
  TypeInferer_unify demo_ctx starts_alpha ∅ None undefined_store
  = (inl (UndefinedVariable "b"), undefined_store).
Proof.
  apply (unify_reports_first_variable _ _ _ _ _ "b").
  - reflexivity.
  - by eexists.
  - reflexivity.
  - intros u e' [tv Hu] Hc. unfold undefined_store, store_of in Hu.
    cbn [typevars] in Hu. apply elem_of_list_to_map_2 in Hu.
    apply elem_of_cons in Hu as [[= -> ->]|Hu]; [by left|].
    apply elem_of_cons in Hu as [[= -> ->]|Hu]; [by right|].
    apply elem_of_cons in Hu as [[= -> ->]|Hu]; [done|].
    by apply elem_of_nil in Hu.
Defined.

(** ** Static getitem and the call types *)

Lemma StaticGetItemConstraint_call_eq (ctx : Context)
    (nec : string -> list FmtArg -> exn -> exn) (depth : nat)
    (fallback_id : nat) (target value : string) (index : pyvalue)
    (index_var : option string) (loc : Loc) (st : TypeInferer) :
  StaticGetItemConstraint_call ctx nec depth fallback_id target value
    index index_var loc st
  = let st0 := touch [target; value] st in
    match tv_type (cell_at st value) with
    | None => (Ret tt, st0)
    | Some ty =>
        with_error_context nec "typing of static-get-item at {0}"
          [FmtLoc loc]
          match resolve_static_getitem ctx ty index with
          | Some itemty =>
              TypeInferer_add_type ctx depth target itemty (Some loc) false
          | None =>
              match index_var with
              | Some iv =>
                  IntrinsicCallConstraint_call ctx nec depth fallback_id
                    target "getitem" [value; iv] [] None loc
              | None => ret tt
              end
          end st0
    end.
Proof.
  unfold StaticGetItemConstraint_call, with_error_context.
  unfold bind at 1. rewrite typevars_getitem_eq.
  unfold bind at 1. rewrite typevars_getitem_eq.
  rewrite cell_at_touch1. unfold TypeVar_get.
  change (touch [value] (touch [target] st))
    with (touch [target; value] st). cbv zeta.
  destruct (tv_type (cell_at st value)) as [ty|]; [|done].
  by rewrite for_each_one.
Qed.

(** X21.  [StaticGetItemConstraint] takes the statically resolved item
    type when the context gives one, and only otherwise fires its
    fallback, the intrinsic [getitem] call on the index variable.
    Without an index variable an item the context cannot resolve is
    passed over: no type is written, no error is raised and the call
    signature of the constraint is [None].  While the value has no type
    the constraint only looks its two variables up. *)
Theorem StaticGetItemConstraint_call_cases (ctx : Context)
    (nec : string -> list FmtArg -> exn -> exn) (depth : nat)
    (fallback_id : nat) (target value : string) (index : pyvalue)
    (index_var : option string) (loc : Loc) (st : TypeInferer) :
  let call :=
    StaticGetItemConstraint_call ctx nec depth fallback_id target value
      index index_var loc st in
  let self :=
    StaticGetItemConstraint fallback_id target value index index_var loc in
  let fmt := "typing of static-get-item at {0}" in
  let st0 := touch [target; value] st in
  (tv_type (cell_at st value) = None -> call = (Ret tt, st0))
  /\ (forall ty itemty,
        tv_type (cell_at st value) = Some ty ->
        resolve_static_getitem ctx ty index = Some itemty ->
        call
        = with_error_context nec fmt [FmtLoc loc]
            (TypeInferer_add_type ctx depth target itemty (Some loc) false)
            st0)
  /\ (forall ty,
        tv_type (cell_at st value) = Some ty ->
        resolve_static_getitem ctx ty index = None ->
        match index_var with
        | None =>
            call = (Ret tt, st0)
            /\ get_call_signature self call.2 = (Ret None, call.2)
        | Some iv =>
            call
            = with_error_context nec fmt [FmtLoc loc]
                (IntrinsicCallConstraint_call ctx nec depth fallback_id
                   target "getitem" [value; iv] [] None loc) st0
        end).
Proof.
  intros call self fmt st0. subst call self fmt st0.
  rewrite StaticGetItemConstraint_call_eq. cbv zeta.
  split; [|split].
  - intros H. by rewrite H.
  - intros ty itemty H Hres. by rewrite H, Hres.
  - intros ty H Hres. rewrite H, Hres.
    destruct index_var as [iv|]; done.
Qed.

Lemma get_call_signature_store (c : Constraint) (s s0 : TypeInferer) :
  signatures s = signatures s0 ->
  (get_call_signature c s).2 = s
  /\ (get_call_signature c s).1 = (get_call_signature c s0).1.
Proof.
  intros Hs. unfold get_call_signature. rewrite Hs.
  destruct c; simpl; try done;
    repeat match goal with
           | |- context [match ?x with _ => _ end] => destruct x
           end; done.
Qed.

Lemma get_function_types_loop (cs : list (nat * Constraint))
    (st0 st st' : TypeInferer) (r : Outcome unit) :
  signatures st = signatures st0 ->
  for_each cs (fun '(call, constraint) =>
      sig <- get_call_signature constraint ;;
      fun s => (Ret tt, set_calltypes (insert call sig) s))%method st
  = (r, st') ->
  match r with
  | Ret _ =>
      forall call, call ∉ cs.*1 -> calltypes st' !! call = calltypes st !! call
  | Raise e =>
      exists pre call c post,
        cs = pre ++ (call, c) :: post
        /\ get_call_signature c st0 = (Raise e, st0)
        /\ Forall (fun entry => exists sig,
                     get_call_signature entry.2 st0 = (Ret sig, st0)) pre
  end.
Proof.
  revert st. induction cs as [|[call0 c0] cs IH]; intros st Hsig.
  - intros [= <- <-]. done.
  - cbn [for_each]. unfold bind at 1. unfold bind at 1.
    destruct (get_call_signature_store c0 st st0 Hsig) as [Hst Hr].
    destruct (get_call_signature_store c0 st0 st0 eq_refl) as [Hst0 _].
    destruct (get_call_signature c0 st) as [[sig0|e] s1] eqn:Hg;
      destruct (get_call_signature c0 st0) as [r0 s0] eqn:Hg0;
      cbn [fst snd] in Hst, Hr, Hst0; subst s1 s0 r0.
    + intros Hrest. apply IH in Hrest; [|done].
      destruct r as [[]|e].
      * intros call Hcall. cbn in Hcall.
        apply not_elem_of_cons in Hcall as [Hne Hcall].
        rewrite Hrest by done. cbn. by apply lookup_insert_ne.
      * destruct Hrest as (pre & call & c & post & -> & Hc & Hpre).
        exists ((call0, c0) :: pre), call, c, post.
        split; [done|]. split; [done|]. constructor; [|done].
        by exists sig0.
    + intros [= <- <-]. exists [], call0, c0, cs. by repeat split.
Qed.

Lemma get_function_types_frame (cs : list (nat * Constraint))
    (st st' : TypeInferer) (r : Outcome unit) :
  for_each cs (fun '(call, constraint) =>
      sig <- get_call_signature constraint ;;
      fun s => (Ret tt, set_calltypes (insert call sig) s))%method st
  = (r, st') ->
  st' = set_calltypes (fun _ => calltypes st') st.
Proof.
  revert st. induction cs as [|[call0 c0] cs IH]; intros st.
  - intros [= <- <-]. by destruct st.
  - cbn [for_each]. unfold bind at 1. unfold bind at 1.
    destruct (get_call_signature_store c0 st st eq_refl) as [Hst _].
    destruct (get_call_signature c0 st) as [[sig0|e] s1];
      cbn [snd] in Hst; subst s1.
    + intros Hrest. apply IH in Hrest. rewrite Hrest at 1. done.
    + intros [= <- <-]. by destruct st.
Qed.

(** X22.  [get_function_types], for calls that are distinct and not yet
    in [calltypes] (so that every assignment to the dictionary is an
    insertion): on a normal return only [calltypes] has changed, every
    call of the inferer is mapped to the signature of its constraint and
    the other entries are as before.  It raises exactly when a
    constraint has no signature to give, with the attribute error of the
    first such constraint. *)
Theorem get_function_types_cases (st : TypeInferer) :
  NoDup (calls st).*1 ->
  (forall call, call ∈ (calls st).*1 -> calltypes st !! call = None) ->
  match TypeInferer_get_function_types st with
  | (Ret m, st') =>
      st' = set_calltypes (fun _ => m) st
      /\ (forall call c, (call, c) ∈ calls st ->
            exists sig, get_call_signature c st = (Ret sig, st)
                        /\ m !! call = Some sig)
      /\ (forall call, call ∉ (calls st).*1 ->
            m !! call = calltypes st !! call)
  | (Raise e, st') =>
      (e = AttributeError "signature"
       \/ e = AttributeError "get_call_signature")
      /\ exists pre call c post,
           calls st = pre ++ (call, c) :: post
           /\ get_call_signature c st = (Raise e, st)
           /\ Forall (fun entry => exists sig,
                        get_call_signature entry.2 st = (Ret sig, st)) pre
  end.
Proof.
  intros Hnd Hfresh. unfold TypeInferer_get_function_types.
  unfold bind at 1.
  match goal with
  | |- context [for_each ?cs ?body st] =>
      destruct (for_each cs body st) as [[[]|e] s1] eqn:Hloop
  end.
  - split; [|split].
    + by apply get_function_types_frame in Hloop.
    + intros call c Hin. apply list_elem_of_split in Hin as (pre & post & Hcs).
      destruct (get_function_types_entry (calls st) st st s1 pre call c post
                  eq_refl Hloop Hcs) as (sig & Hsig & Hentry).
      * rewrite Hcs, fmap_app in Hnd. cbn in Hnd.
        apply NoDup_app in Hnd as (_ & _ & Hnd).
        by apply NoDup_cons in Hnd as [? _].
      * by exists sig.
    + by apply (get_function_types_loop _ st st s1 (Ret tt) eq_refl Hloop).
  - pose proof (get_function_types_loop _ st st s1 (Raise e) eq_refl Hloop)
      as (pre & call & c & post & Hcs & Hc & Hpre).
    split; [|by exists pre, call, c, post].
    unfold get_call_signature in Hc.
    destruct c; try (injection Hc as <-; by right);
      repeat match type of Hc with
             | context [match ?x with _ => _ end] => destruct x
             end; try done; injection Hc as <-; by left.
Qed.

Lemma get_function_types_cases_witness :
  NoDup (calls print_store).*1
  /\ match TypeInferer_get_function_types print_store with
     | (Ret _, _) => False
     | (Raise e, st') =>
         e = AttributeError "signature" /\ st' = print_store
     end.
Proof.
  assert (NoDup (calls print_store).*1) as Hnd.
  { repeat constructor. by intros ?%elem_of_nil. }
  split; [done|].
  pose proof (get_function_types_cases print_store Hnd (fun _ _ => eq_refl))
    as H.
  destruct (TypeInferer_get_function_types print_store) as [[m|e] st']
    eqn:Hget.
  - destruct H as (_ & H & _).
    destruct (H 7 print_constraint_demo) as (sig & Hsig & _); [|done].
    apply elem_of_cons. by left.
  - vm_compute in Hget. by injection Hget as <- <-.
Defined.

(** ** Further properties on concrete inputs *)

Lemma TypeVarMap_getitem_setitem_witness :
  exists m', TypeVarMap_getitem ∅ "x" = inr (TypeVar_init "x", m').
Proof.
  destruct (TypeVarMap_getitem_setitem ∅ "x")
    as (cell & m' & Hget & _ & Hfresh & _).
  exists m'. by rewrite Hget, (Hfresh eq_refl).
Defined.

Lemma fold_arg_vars_cases_witness :
  (fold_arg_vars ["p"; "t2"] None [] shapes_store).1
  = Ret (Some ([Pair int64 float64; UniTuple int64 2], [])).
Proof.
  apply (proj2 (proj2 (fold_arg_vars_cases ["p"; "t2"] None []
                         shapes_store))).
  by repeat constructor.
Defined.

Lemma Propagate_call_cases_witness :
  (Propagate_call demo_ctx demo_error_context "w" "z" (demo_loc 4)
     refine_store).1 = Ret tt.
Proof.
  apply (proj1 (Propagate_call_cases demo_ctx demo_error_context "w" "z"
                  (demo_loc 4) refine_store)).
  reflexivity.
Defined.

Lemma ArgConstraint_call_cases_witness :
  ArgConstraint_call demo_ctx demo_error_context 5 "x" "arg.x" (demo_loc 1)
    shapes_store
  = (Ret tt, touch ["arg.x"] shapes_store).
Proof.
  apply (proj1 (ArgConstraint_call_cases demo_ctx demo_error_context 5
                  "x" "arg.x" (demo_loc 1) shapes_store)).
  reflexivity.
Defined.

Lemma resolve_call_recursive_witness :
  (TypeInferer_resolve_call demo_ctx
     (FnType (RecursiveCall (Dispatcher 0) 0)) [] [] print_store).1
  = Raise (TypingError RunawayRecursion None).
Proof.
  apply (proj1 (resolve_call_recursive demo_ctx 0 0 [] [] print_store)).
  reflexivity.
Defined.

Lemma get_generator_type_cases_witness :
  exists arg_types,
    TypeInferer_get_generator_type demo_ctx {[0 := "arg.n"]}
      {| state_vars := ["n"]; yield_points := ["$y.1"; "$y.2"] |}
      (<["arg.n" := int64]> (<["n" := int64]>
         (<["$y.1" := int64]> {["$y.2" := float64]})))
    = inr (GeneratorReturn float64 arg_types [int64])
    /\ arg_types !! 0 = Some (Some int64).
Proof.
  pose proof (get_generator_type_cases demo_ctx {[0 := "arg.n"]}
    {| state_vars := ["n"]; yield_points := ["$y.1"; "$y.2"] |}
    (<["arg.n" := int64]> (<["n" := int64]>
       (<["$y.1" := int64]> {["$y.2" := float64]})))) as H.
  destruct (TypeInferer_get_generator_type _ _ _ _)
    as [e|[t|y arg_types state_types]] eqn:Hget.
  - vm_compute in Hget. discriminate.
  - done.
  - exists arg_types. destruct H as (_ & Hargs & _).
    destruct (Hargs 0 "arg.n" eq_refl) as (t & Ht & Ha).
    injection Ht as <-. split; [|done].
    vm_compute in Hget. injection Hget as <- <- <-. reflexivity.
Defined.

Lemma StaticGetItemConstraint_call_cases_witness :
  StaticGetItemConstraint_call demo_ctx demo_error_context 5 0 "x" "v"
    py_print None (demo_loc 2) shapes_store
  = (Ret tt, touch ["x"; "v"] shapes_store).
Proof.
  apply (proj1 (StaticGetItemConstraint_call_cases demo_ctx
                  demo_error_context 5 0 "x" "v" py_print None (demo_loc 2)
                  shapes_store)).
  reflexivity.
Defined.
